(** * A shallow embedding of [cifar10.py]

    The script trains a Vision Transformer under per-layer parameter
    sharding.  This development embeds the model classes ([PreNorm],
    [FeedForward], [Attention], [Transformer], [AttnPooler],
    [PatchEmbed], [VIT]) and the module-level script (sharding calls,
    dataset set-up, training loop) and proves properties of them.

    Conventions.
    - A tensor is a shape together with an indexing function.  Scalars
      are real numbers: floating-point rounding is not modelled.
    - Python exceptions are an error type; a computation that may raise
      returns a [Result].
    - Dropout draws random masks and parameter initialisation draws random
      arrays; both are modelled by threading a supply of future draws
      through the computation (a state-and-error monad).
    - Sizes are natural numbers (torch rejects negative sizes when the
      layers are constructed). *)

From Stdlib Require Import List Arith Lia Bool String.
From Stdlib Require Import QArith Qreals Reals Lra.
Import ListNotations.

Close Scope Q_scope.
Close Scope R_scope.
Open Scope nat_scope.

Set Implicit Arguments.
Set Warnings "-register-all".

(* ================================================================= *)
(** ** Exceptions and the state-and-error monad *)

Inductive Error : Type :=
| EinopsError        (* einops: pattern does not fit the shape *)
| RuntimeError       (* torch: size mismatch *)
| ZeroDivisionError
| IndexError
| ValueError.

Inductive Result (A : Type) : Type :=
| Ok (a : A)
| Raise (e : Error).
Arguments Ok {A} a.
Arguments Raise {A} e.

Definition is_ok {A} (r : Result A) : bool :=
  match r with Ok _ => true | Raise _ => false end.

(** Shape errors of the spec's taxonomy: raised by einops or by torch when
    sizes do not fit. *)
Definition ShapeError (e : Error) : bool :=
  match e with EinopsError | RuntimeError => true | _ => false end.

Definition raises_ShapeError {A} (r : Result A) : bool :=
  match r with Ok _ => false | Raise e => ShapeError e end.

(** A computation over a state [S] that may raise. *)
Definition StateErr (S A : Type) : Type := S -> Result (A * S).

Definition ret {S A} (a : A) : StateErr S A := fun s => Ok (a, s).

Definition bind {S A B} (m : StateErr S A) (k : A -> StateErr S B)
  : StateErr S B :=
  fun s => match m s with
           | Ok (a, s') => k a s'
           | Raise e => Raise e
           end.

Definition lift {S A} (r : Result A) : StateErr S A :=
  fun s => match r with Ok a => Ok (a, s) | Raise e => Raise e end.

Definition raise {S A} (e : Error) : StateErr S A := fun _ => Raise e.

Declare Scope monad_scope.
Delimit Scope monad_scope with monad.
Notation "x <- m ;; k" := (bind m (fun x => k))
  (at level 61, m at next level, right associativity) : monad_scope.
Open Scope monad_scope.

(* ================================================================= *)
(** ** Tensors *)

Definition Index := list nat.

Record Tensor : Type := mkTensor {
  shape : list nat;
  val : Index -> R
}.

(** [sum_upto n f] is f 0 + ... + f (n-1). *)
Fixpoint sum_upto (n : nat) (f : nat -> R) : R :=
  match n with
  | O => 0%R
  | S k => (sum_upto k f + f k)%R
  end.

(** Split a list into everything but the last element, and the last
    element (the [-1] axis of a shape or index). *)
Definition unsnoc {A} (l : list A) : option (list A * A) :=
  match rev l with
  | [] => None
  | x :: r => Some (rev r, x)
  end.

(** [lst[i]] with Python's IndexError. *)
Definition getitem {A} (l : list A) (i : nat) : Result A :=
  match nth_error l i with
  | Some a => Ok a
  | None => Raise IndexError
  end.

(** *** Broadcasting addition: [x + y] *)

(** Shapes are aligned from the right; [s] and [t] are reversed shapes. *)
Fixpoint broadcast_rev (s t : list nat) : Result (list nat) :=
  match s, t with
  | [], _ => Ok t
  | _, [] => Ok s
  | a :: s', b :: t' =>
      match broadcast_rev s' t' with
      | Ok r =>
          if a =? b then Ok (a :: r)
          else if a =? 1 then Ok (b :: r)
          else if b =? 1 then Ok (a :: r)
          else Raise RuntimeError
      | Raise e => Raise e
      end
  end.

Definition broadcast_shapes (s t : list nat) : Result (list nat) :=
  match broadcast_rev (rev s) (rev t) with
  | Ok r => Ok (rev r)
  | Raise e => Raise e
  end.

(** The index of an operand of reversed shape [s] read at the reversed
    output index [i]: a size-1 axis is read at 0, missing leading axes are
    dropped. *)
Fixpoint broadcast_index_rev (s : list nat) (i : Index) : Index :=
  match s, i with
  | a :: s', j :: i' => (if a =? 1 then 0 else j) :: broadcast_index_rev s' i'
  | _, _ => []
  end.

Definition broadcast_index (s : list nat) (i : Index) : Index :=
  rev (broadcast_index_rev (rev s) (rev i)).

Definition add_at (x y : Tensor) (out : list nat) : Tensor :=
  {| shape := out;
     val := fun i => (val x (broadcast_index (shape x) i)
                      + val y (broadcast_index (shape y) i))%R |}.

Definition add (x y : Tensor) : Result Tensor :=
  match broadcast_shapes (shape x) (shape y) with
  | Ok out => Ok (add_at x y out)
  | Raise e => Raise e
  end.

(** [x * c] for a Python float [c]. *)
Definition mul_scalar (x : Tensor) (c : R) : Tensor :=
  {| shape := shape x; val := fun i => (val x i * c)%R |}.

(** [x.unsqueeze(0)] *)
Definition unsqueeze0 (x : Tensor) : Tensor :=
  {| shape := 1 :: shape x; val := fun i => val x (tl i) |}.

(** [x.squeeze(1)]: axis 1 is removed when its size is 1, and the tensor
    is returned unchanged otherwise. *)
Definition squeeze1 (x : Tensor) : Result Tensor :=
  match shape x with
  | a :: m :: rest =>
      if m =? 1
      then Ok {| shape := a :: rest;
                 val := fun i => match i with
                                 | i0 :: r => val x (i0 :: 0 :: r)
                                 | [] => 0%R
                                 end |}
      else Ok x
  | _ => Raise IndexError
  end.

(** [x.transpose(-1, -2)] *)
Definition swap_last2 {A} (l : list A) : option (list A) :=
  match rev l with
  | a :: b :: r => Some (rev r ++ [a; b])
  | _ => None
  end.

Definition transpose_at (x : Tensor) (s : list nat) : Tensor :=
  {| shape := s;
     val := fun i => match swap_last2 i with
                     | Some j => val x j
                     | None => 0%R
                     end |}.

Definition transpose_last2 (x : Tensor) : Result Tensor :=
  match swap_last2 (shape x) with
  | Some s => Ok (transpose_at x s)
  | None => Raise IndexError
  end.

(** *** [torch.matmul] on batches of matrices *)

Definition unsnoc2 {A} (l : list A) : option (list A * A * A) :=
  match rev l with
  | y :: x :: r => Some (rev r, x, y)
  | _ => None
  end.

Fixpoint shape_eqb (s t : list nat) : bool :=
  match s, t with
  | [], [] => true
  | a :: s', b :: t' => (a =? b) && shape_eqb s' t'
  | _, _ => false
  end.

Definition matmul_at (a b : Tensor) (pre : list nat) (n d m : nat) : Tensor :=
  {| shape := pre ++ [n; m];
     val := fun idx =>
       match unsnoc2 idx with
       | Some (ip, i, j) =>
           sum_upto d (fun k => (val a (ip ++ [i; k]) * val b (ip ++ [k; j]))%R)
       | None => 0%R
       end |}.

(** Both operands of the only call ([Attention.forward]) have rank 4 and the
    same leading axes, so promotion of vectors and broadcasting of batch
    axes are left out: they are reported as a size mismatch. *)
Definition matmul (a b : Tensor) : Result Tensor :=
  match unsnoc2 (shape a), unsnoc2 (shape b) with
  | Some (pa, n, d), Some (pb, d', m) =>
      if shape_eqb pa pb && (d =? d')
      then Ok (matmul_at a b pa n d m)
      else Raise RuntimeError
  | _, _ => Raise RuntimeError
  end.

(** *** [nn.Softmax(dim = -1)] *)

Definition softmax_row (x : Tensor) (m : nat) (ip : Index) (j : nat) : R :=
  (exp (val x (ip ++ [j])) / sum_upto m (fun k => exp (val x (ip ++ [k]))))%R.

Definition softmax_at (x : Tensor) (m : nat) : Tensor :=
  {| shape := shape x;
     val := fun idx =>
       match unsnoc idx with
       | Some (ip, j) => softmax_row x m ip j
       | None => 0%R
       end |}.

Definition softmax_last (x : Tensor) : Tensor :=
  match unsnoc (shape x) with
  | Some (_, m) => softmax_at x m
  | None => {| shape := []; val := fun _ => 1%R |}
  end.

(** *** [x.chunk(chunks, dim = -1)] *)

(** torch cuts the last axis into pieces of size ceil(m / chunks); the last
    piece may be shorter and there may be fewer than [chunks] pieces. *)
Definition chunk_at (x : Tensor) (pre : list nat) (m cs j : nat) : Tensor :=
  {| shape := pre ++ [Nat.min cs (m - j * cs)];
     val := fun idx =>
       match unsnoc idx with
       | Some (ip, i) => val x (ip ++ [j * cs + i])
       | None => 0%R
       end |}.

Definition chunk (chunks : nat) (x : Tensor) : Result (list Tensor) :=
  match unsnoc (shape x) with
  | Some (pre, m) =>
      let cs := (m + chunks - 1) / chunks in
      let cnt := if cs =? 0 then chunks else (m + cs - 1) / cs in
      Ok (map (chunk_at x pre m cs) (seq 0 cnt))
  | None => Raise RuntimeError
  end.

(** *** The three [einops.rearrange] patterns of the source *)

(** A composite axis with a known factor [k]: einops computes
    [length % k], which divides by zero when [k] is 0, and raises
    EinopsError when the remainder is not 0. *)
Definition split_axis (length k : nat) : Result nat :=
  if k =? 0 then Raise ZeroDivisionError
  else if length mod k =? 0 then Ok (length / k)
  else Raise EinopsError.

(** ['b c (h p1) (w p2) -> b (h w) (p1 p2 c)'] *)
Definition patches_at (x : Tensor) (b c h w p1 p2 : nat) : Tensor :=
  {| shape := [b; h * w; p1 * p2 * c];
     val := fun idx =>
       match idx with
       | [bi; k; j] =>
           val x [bi; j mod c;
                  (k / w) * p1 + (j / c) / p2;
                  (k mod w) * p2 + (j / c) mod p2]
       | _ => 0%R
       end |}.

Definition rearrange_patches (x : Tensor) (p1 p2 : nat) : Result Tensor :=
  match shape x with
  | [b; c; H; W] =>
      match split_axis H p1 with
      | Ok h =>
          match split_axis W p2 with
          | Ok w => Ok (patches_at x b c h w p1 p2)
          | Raise e => Raise e
          end
      | Raise e => Raise e
      end
  | _ => Raise EinopsError
  end.

(** ['b n (h d) -> b h n d'] *)
Definition split_heads_at (x : Tensor) (b n h d : nat) : Tensor :=
  {| shape := [b; h; n; d];
     val := fun idx =>
       match idx with
       | [bi; hi; ni; di] => val x [bi; ni; hi * d + di]
       | _ => 0%R
       end |}.

Definition rearrange_split_heads (x : Tensor) (h : nat) : Result Tensor :=
  match shape x with
  | [b; n; hd] =>
      match split_axis hd h with
      | Ok d => Ok (split_heads_at x b n h d)
      | Raise e => Raise e
      end
  | _ => Raise EinopsError
  end.

(** ['b h n d -> b n (h d)'] *)
Definition merge_heads_at (x : Tensor) (b h n d : nat) : Tensor :=
  {| shape := [b; n; h * d];
     val := fun idx =>
       match idx with
       | [bi; ni; j] => val x [bi; j / d; ni; j mod d]
       | _ => 0%R
       end |}.

Definition rearrange_merge_heads (x : Tensor) : Result Tensor :=
  match shape x with
  | [b; h; n; d] => Ok (merge_heads_at x b h n d)
  | _ => Raise EinopsError
  end.

(** *** [q.expand(b, -1, -1)] *)

Definition expand0_at (q : Tensor) (a b m d : nat) : Tensor :=
  {| shape := [b; m; d];
     val := fun idx =>
       match idx with
       | [i; j; k] => val q [if a =? 1 then 0 else i; j; k]
       | _ => 0%R
       end |}.

(** A new leading axis of size b in front of a matrix. *)
Definition expand_new_at (q : Tensor) (b m d : nat) : Tensor :=
  {| shape := [b; m; d];
     val := fun idx =>
       match idx with
       | [_; j; k] => val q [j; k]
       | _ => 0%R
       end |}.

(** Three sizes are given: a rank-3 tensor is stretched along its first
    axis, which must have size 1 or b; a matrix gets a new first axis; -1
    for an axis that does not exist, and more than three axes, are
    refused. *)
Definition expand0 (q : Tensor) (b : nat) : Result Tensor :=
  match shape q with
  | [a; m; d] =>
      if (a =? 1) || (a =? b) then Ok (expand0_at q a b m d)
      else Raise RuntimeError
  | [m; d] => Ok (expand_new_at q b m d)
  | _ => Raise RuntimeError
  end.

(** *** [F.scaled_dot_product_attention(q, k, v)] *)

(** Default arguments: no mask, no dropout, scale 1 / sqrt(E) for query
    width E.  The result is softmax(q k^T * scale) v over the last two
    axes; the leading (batch) axes of q, k and v are broadcast against each
    other as [torch.matmul] does. *)

(** The batch index at which an operand with batch axes [s] is read, for
    the batch index [i] of a result with batch axes [o] (all reversed): an
    axis of the operand that was stretched is read at 0, and the leading
    axes that the operand does not have are dropped. *)
Fixpoint batch_index_rev (s o : list nat) (i : Index) : Index :=
  match s, o, i with
  | a :: s', c :: o', j :: i' =>
      (if a =? c then j else 0) :: batch_index_rev s' o' i'
  | _, _, _ => []
  end.

Definition batch_index (s o : list nat) (i : Index) : Index :=
  rev (batch_index_rev (rev s) (rev o) (rev i)).

(** The weight of key [j] for query [i], the query read at batch index
    [iq] and the keys at batch index [ik]. *)
Definition sdpa_weight_at (q k : Tensor) (e s : nat) (iq ik : Index)
  (i j : nat) : R :=
  let score := fun j' =>
    (sum_upto e (fun c => val q (iq ++ [i; c]) * val k (ik ++ [j'; c]))
     / sqrt (INR e))%R in
  (exp (score j) / sum_upto s (fun j' => exp (score j')))%R.

(** The same weight for rank-3 operands with the same batch axis. *)
Definition sdpa_weight (q k : Tensor) (e s : nat) (bi i j : nat) : R :=
  let score := fun j' =>
    (sum_upto e (fun c => val q [bi; i; c] * val k [bi; j'; c]) / sqrt (INR e))%R in
  (exp (score j) / sum_upto s (fun j' => exp (score j')))%R.

Definition sdpa_at (q k v : Tensor) (pq pk pv out : list nat)
  (l s e ev : nat) : Tensor :=
  {| shape := out ++ [l; ev];
     val := fun idx =>
       match unsnoc2 idx with
       | Some (ip, i, c) =>
           sum_upto s (fun j =>
             (sdpa_weight_at q k e s (batch_index pq out ip)
                             (batch_index pk out ip) i j
              * val v (batch_index pv out ip ++ [j; c]))%R)
       | None => 0%R
       end |}.

(** Each operand needs at least two axes; the widths of q and k and the
    lengths of k and v must agree, and the batch axes must broadcast. *)
Definition scaled_dot_product_attention (q k v : Tensor) : Result Tensor :=
  match unsnoc2 (shape q), unsnoc2 (shape k), unsnoc2 (shape v) with
  | Some (pq, l, e), Some (pk, s, e'), Some (pv, s', ev) =>
      if (e =? e') && (s =? s')
      then match broadcast_shapes pq pk with
           | Ok p =>
               match broadcast_shapes p pv with
               | Ok out => Ok (sdpa_at q k v pq pk pv out l s e ev)
               | Raise err => Raise err
               end
           | Raise err => Raise err
           end
      else Raise RuntimeError
  | _, _, _ => Raise RuntimeError
  end.

(* ================================================================= *)
(** ** Random draws *)

(** The masks that dropout will draw, in order. *)
Definition Rng := nat -> Index -> bool.

(** The arrays that parameter initialisation will draw, in order. *)
Definition ParamSrc := nat -> Index -> R.

(** A forward computation: may raise, may consume dropout masks. *)
Definition Fwd := StateErr Rng.

(** A constructor: may raise, may consume initial parameter values. *)
Definition Init := StateErr ParamSrc.

(** One freshly initialised parameter array ([torch.randn], or the
    default initialisation of [nn.Linear]). *)
Definition sample (s : list nat) : Init Tensor :=
  fun src => Ok ({| shape := s; val := src 0 |}, fun k => src (S k)).

Definition ones (s : list nat) : Tensor := {| shape := s; val := fun _ => 1%R |}.
Definition zeros (s : list nat) : Tensor := {| shape := s; val := fun _ => 0%R |}.

Fixpoint replicateM {S A} (n : nat) (m : StateErr S A) : StateErr S (list A) :=
  match n with
  | O => ret []
  | S k => a <- m ;; r <- replicateM k m ;; ret (a :: r)
  end.

(** Every [nn.Module] of the source has a [forward]. *)
Class Module (M : Type) := forward : M -> Tensor -> Fwd Tensor.

(* ================================================================= *)
(** ** Library layers: [nn.Linear], [nn.LayerNorm], [nn.Dropout] *)

Record Linear : Type := mkLinear {
  in_features : nat;
  out_features : nat;
  weight : Tensor;           (* [out_features, in_features] *)
  bias : option Tensor       (* [out_features] *)
}.

Definition Linear_init (i o : nat) (with_bias : bool) : Init Linear :=
  w <- sample [o; i] ;;
  b <- (if with_bias then (t <- sample [o] ;; ret (Some t)) else ret None) ;;
  ret {| in_features := i; out_features := o; weight := w; bias := b |}.

(** y = x W^T + b on the last axis. *)
Definition Linear_row (l : Linear) (x : Tensor) (ip : Index) (o : nat) : R :=
  (sum_upto (in_features l) (fun j => val x (ip ++ [j]) * val (weight l) [o; j])
   + match bias l with Some b => val b [o] | None => 0 end)%R.

Definition Linear_at (l : Linear) (x : Tensor) (pre : list nat) : Tensor :=
  {| shape := pre ++ [out_features l];
     val := fun idx =>
       match unsnoc idx with
       | Some (ip, o) => Linear_row l x ip o
       | None => 0%R
       end |}.

Definition Linear_apply (l : Linear) (x : Tensor) : Result Tensor :=
  match unsnoc (shape x) with
  | Some (pre, k) =>
      if k =? in_features l then Ok (Linear_at l x pre)
      else Raise RuntimeError
  | None => Raise RuntimeError
  end.

#[export] Instance Linear_Module : Module Linear :=
  fun l x => lift (Linear_apply l x).

Record LayerNorm : Type := mkLayerNorm {
  normalized_shape : nat;
  eps : R;
  ln_weight : Tensor;
  ln_bias : Tensor
}.

Definition LayerNorm_init (dim : nat) : LayerNorm :=
  {| normalized_shape := dim; eps := (1 / 100000)%R;
     ln_weight := ones [dim]; ln_bias := zeros [dim] |}.

Definition row_mean (x : Tensor) (n : nat) (ip : Index) : R :=
  (sum_upto n (fun k => val x (ip ++ [k])) / INR n)%R.

Definition row_var (x : Tensor) (n : nat) (ip : Index) : R :=
  (sum_upto n (fun k => (val x (ip ++ [k]) - row_mean x n ip) ^ 2) / INR n)%R.

Definition LayerNorm_row (ln : LayerNorm) (x : Tensor) (ip : Index) (j : nat) : R :=
  let n := normalized_shape ln in
  ((val x (ip ++ [j]) - row_mean x n ip) / sqrt (row_var x n ip + eps ln)
   * val (ln_weight ln) [j] + val (ln_bias ln) [j])%R.

Definition LayerNorm_at (ln : LayerNorm) (x : Tensor) : Tensor :=
  {| shape := shape x;
     val := fun idx =>
       match unsnoc idx with
       | Some (ip, j) => LayerNorm_row ln x ip j
       | None => 0%R
       end |}.

Definition LayerNorm_apply (ln : LayerNorm) (x : Tensor) : Result Tensor :=
  match unsnoc (shape x) with
  | Some (_, k) =>
      if k =? normalized_shape ln then Ok (LayerNorm_at ln x)
      else Raise RuntimeError
  | None => Raise RuntimeError
  end.

#[export] Instance LayerNorm_Module : Module LayerNorm :=
  fun ln x => lift (LayerNorm_apply ln x).

Record Dropout : Type := mkDropout {
  drop_p : Q;
  training : bool
}.

(** [nn.Dropout(p)] checks its rate; a new module is in training mode. *)
Definition Dropout_init (rate : Q) : Init Dropout :=
  if Qle_bool 0 rate && Qle_bool rate 1
  then ret {| drop_p := rate; training := true |}
  else raise ValueError.

(** Number of entries. *)
Definition numel (x : Tensor) : nat := fold_right Nat.mul 1 (shape x).

Definition Dropout_at (d : Dropout) (x : Tensor) (mask : Index -> bool) : Tensor :=
  {| shape := shape x;
     val := fun idx =>
       if mask idx then (val x idx / (1 - Q2R (drop_p d)))%R else 0%R |}.

(** Outside training mode, at rate 0 and on an empty tensor the input is
    returned; at rate 1 the result is all zeros; otherwise a mask is drawn
    and the kept entries are scaled by 1 / (1 - p). *)
#[export] Instance Dropout_Module : Module Dropout :=
  fun d x g =>
    if negb (training d) || Qeq_bool (drop_p d) 0 || (numel x =? 0)
    then Ok (x, g)
    else if Qeq_bool (drop_p d) 1
    then Ok (mul_scalar x 0, g)
    else Ok (Dropout_at d x (g 0), fun k => g (S k)).

(* ================================================================= *)
(** ** The model classes of the source *)

(** [nn.GELU()]: x * Phi(x), Phi the standard normal distribution
    function, Phi(x) = (1 + erf(x / sqrt 2)) / 2. *)
Definition gauss (t : R) : R := exp (- (t * t)).

Lemma gauss_continuity : continuity gauss.
Proof. unfold gauss. apply derivable_continuous. reg. Qed.

Lemma gauss_integrable (a b : R) : Riemann_integrable gauss a b.
Proof.
  destruct (Rle_dec a b) as [H|H].
  - apply continuity_implies_RiemannInt; [exact H|].
    intros x _. apply gauss_continuity.
  - apply RiemannInt_P1. apply continuity_implies_RiemannInt; [lra|].
    intros x _. apply gauss_continuity.
Defined.

Definition erf (x : R) : R :=
  (2 / sqrt PI * RiemannInt (gauss_integrable 0 x))%R.

Definition gelu (x : R) : R := (x * ((1 + erf (x / sqrt 2)) / 2))%R.

(** The building blocks that [nn.Sequential] and the optional norms hold. *)
Inductive Layer : Type :=
| LLinear (l : Linear)
| LGELU
| LDropout (d : Dropout)
| LLayerNorm (ln : LayerNorm)
| LIdentity
| LSequential (layers : list Layer).

Definition GELU_at (x : Tensor) : Tensor :=
  {| shape := shape x; val := fun idx => gelu (val x idx) |}.

Fixpoint Layer_forward (l : Layer) (x : Tensor) : Fwd Tensor :=
  match l with
  | LLinear l => forward l x
  | LGELU => ret (GELU_at x)
  | LDropout d => forward d x
  | LLayerNorm ln => forward ln x
  | LIdentity => ret x
  | LSequential layers =>
      (fix run (ls : list Layer) (x : Tensor) : Fwd Tensor :=
         match ls with
         | [] => ret x
         | l :: rest => y <- Layer_forward l x ;; run rest y
         end) layers x
  end.

#[export] Instance Layer_Module : Module Layer := Layer_forward.

(** *** PreNorm *)

Record PreNorm (F : Type) : Type := mkPreNorm {
  norm : LayerNorm;
  fn : F
}.

Definition PreNorm_init {F} (dim : nat) (f : F) : PreNorm F :=
  {| norm := LayerNorm_init dim; fn := f |}.

(** [return self.fn(self.norm(x), **kwargs)]; no caller passes keyword
    arguments. *)
Definition PreNorm_forward {F} `{Module F} (m : PreNorm F) (x : Tensor)
  : Fwd Tensor :=
  h <- forward (norm m) x ;;
  forward (fn m) h.

#[export] Instance PreNorm_Module {F} `{Module F} : Module (PreNorm F) :=
  PreNorm_forward.

(** *** FeedForward *)

Record FeedForward : Type := mkFeedForward {
  net : Layer
}.

Definition FeedForward_init (dim hidden_dim : nat) (dropout : Q)
  : Init FeedForward :=
  l1 <- Linear_init dim hidden_dim true ;;
  d1 <- Dropout_init dropout ;;
  l2 <- Linear_init hidden_dim dim true ;;
  d2 <- Dropout_init dropout ;;
  ret {| net := LSequential
                  [LLinear l1; LGELU; LDropout d1; LLinear l2; LDropout d2] |}.

Definition FeedForward_forward (m : FeedForward) (x : Tensor) : Fwd Tensor :=
  forward (net m) x.

#[export] Instance FeedForward_Module : Module FeedForward :=
  FeedForward_forward.

(** *** Attention *)

(** [self.attend] is [nn.Softmax(dim = -1)], which has no state; it is
    applied as [softmax_last]. *)
Record Attention : Type := mkAttention {
  heads : nat;
  scale : R;
  to_qkv : Linear;
  to_out : Layer
}.

(** [dim_head ** -0.5]; Python raises ZeroDivisionError at 0. *)
Definition pow_neg_half (n : nat) : Result R :=
  if n =? 0 then Raise ZeroDivisionError
  else Ok (Rpower (INR n) (- (1 / 2))).

Definition Attention_init (dim heads_ dim_head : nat) (dropout : Q)
  : Init Attention :=
  let inner_dim := dim_head * heads_ in
  let project_out := negb ((heads_ =? 1) && (dim_head =? dim)) in
  sc <- lift (pow_neg_half dim_head) ;;
  qkv <- Linear_init dim (inner_dim * 3) false ;;
  out <- (if project_out
          then (l <- Linear_init inner_dim dim true ;;
                d <- Dropout_init dropout ;;
                ret (LSequential [LLinear l; LDropout d]))
          else ret LIdentity) ;;
  ret {| heads := heads_; scale := sc; to_qkv := qkv; to_out := out |}.

(** [q, k, v = map(..., qkv)]: unpacking needs exactly three chunks. *)
Definition unpack3 {A} (l : list A) : Result (A * A * A) :=
  match l with
  | [a; b; c] => Ok (a, b, c)
  | _ => Raise ValueError
  end.

(** [map(f, xs)] consumed from left to right: the first failure is the
    one raised. *)
Fixpoint map_results {A B} (f : A -> Result B) (l : list A)
  : Result (list B) :=
  match l with
  | [] => Ok []
  | a :: rest =>
      match f a with
      | Ok b =>
          match map_results f rest with
          | Ok bs => Ok (b :: bs)
          | Raise e => Raise e
          end
      | Raise e => Raise e
      end
  end.

(** Lines 73-74: the projections split into heads. *)
Definition Attention_qkv (m : Attention) (x : Tensor)
  : Result (Tensor * Tensor * Tensor) :=
  match Linear_apply (to_qkv m) x with
  | Ok t =>
      match chunk 3 t with
      | Ok qkv =>
          match map_results (fun t => rearrange_split_heads t (heads m)) qkv with
          | Ok l => unpack3 l
          | Raise e => Raise e
          end
      | Raise e => Raise e
      end
  | Raise e => Raise e
  end.

(** Lines 76-78: [attn = self.attend(matmul(q, k^T) * self.scale)]. *)
Definition Attention_weights (m : Attention) (q k : Tensor) : Result Tensor :=
  match transpose_last2 k with
  | Ok kt =>
      match matmul q kt with
      | Ok qk => Ok (softmax_last (mul_scalar qk (scale m)))
      | Raise e => Raise e
      end
  | Raise e => Raise e
  end.

(** Lines 80-81: the weighted values, heads merged. *)
Definition Attention_out (attn v : Tensor) : Result Tensor :=
  match matmul attn v with
  | Ok out => rearrange_merge_heads out
  | Raise e => Raise e
  end.

Definition Attention_forward (m : Attention) (x : Tensor) : Fwd Tensor :=
  qkv <- lift (Attention_qkv m x) ;;
  let '(q, k, v) := qkv in
  attn <- lift (Attention_weights m q k) ;;
  out <- lift (Attention_out attn v) ;;
  forward (to_out m) out.

#[export] Instance Attention_Module : Module Attention := Attention_forward.

(** *** Transformer *)

Record Transformer : Type := mkTransformer {
  attentions : list (PreNorm Attention);
  ffns : list (PreNorm FeedForward)
}.

Definition Transformer_init (dim depth heads_ dim_head mlp_dim : nat)
  (dropout : Q) : Init Transformer :=
  atts <- replicateM depth
            (a <- Attention_init dim heads_ dim_head dropout ;;
             ret (PreNorm_init dim a)) ;;
  ffs <- replicateM depth
           (f <- FeedForward_init dim mlp_dim dropout ;;
            ret (PreNorm_init dim f)) ;;
  ret {| attentions := atts; ffns := ffs |}.

(** The body of the loop at index [i]. *)
Definition Transformer_step (m : Transformer) (i : nat) (x : Tensor)
  : Fwd Tensor :=
  a <- lift (getitem (attentions m) i) ;;
  ax <- forward a x ;;
  x <- lift (add ax x) ;;
  f <- lift (getitem (ffns m) i) ;;
  fx <- forward f x ;;
  lift (add fx x).

(** [for i in range(len(self.attentions))] *)
Fixpoint Transformer_loop (m : Transformer) (range : list nat) (x : Tensor)
  : Fwd Tensor :=
  match range with
  | [] => ret x
  | i :: rest => x' <- Transformer_step m i x ;; Transformer_loop m rest x'
  end.

Definition Transformer_forward (m : Transformer) (x : Tensor) : Fwd Tensor :=
  Transformer_loop m (seq 0 (List.length (attentions m))) x.

#[export] Instance Transformer_Module : Module Transformer :=
  Transformer_forward.

(** *** AttnPooler *)

Record AttnPooler : Type := mkAttnPooler {
  to_k : Linear;
  to_v : Linear;
  q : Tensor                 (* [1, 1, dim] *)
}.

Definition AttnPooler_init (dim : nat) : Init AttnPooler :=
  k <- Linear_init dim dim true ;;
  v <- Linear_init dim dim true ;;
  q0 <- sample [1; 1; dim] ;;
  ret {| to_k := k; to_v := v; q := q0 |}.

(** [x.shape[0]] *)
Definition shape0 (x : Tensor) : Result nat :=
  match shape x with
  | b :: _ => Ok b
  | [] => Raise IndexError
  end.

Definition AttnPooler_forward (m : AttnPooler) (x : Tensor) : Fwd Tensor :=
  k <- forward (to_k m) x ;;
  v <- forward (to_v m) x ;;
  b <- lift (shape0 x) ;;
  q' <- lift (expand0 (q m) b) ;;
  o <- lift (scaled_dot_product_attention q' k v) ;;
  lift (squeeze1 o).

#[export] Instance AttnPooler_Module : Module AttnPooler := AttnPooler_forward.

(** *** PatchEmbed *)

(** [patch_size] is an int or a pair. *)
Inductive PatchSize : Type :=
| PatchInt (n : nat)
| PatchPair (h w : nat).

Record PatchEmbed : Type := mkPatchEmbed {
  patch_height : nat;
  patch_width : nat;
  pre_norm : Layer;
  post_norm : Layer;
  proj : Linear
}.

(** [if isinstance(patch_size, int): patch_size = (patch_size, patch_size)] *)
Definition patch_dims (patch_size : PatchSize) : nat * nat :=
  match patch_size with
  | PatchInt n => (n, n)
  | PatchPair h w => (h, w)
  end.

Definition PatchEmbed_init (channels : nat) (patch_size : PatchSize)
  (out_dim : nat) (with_bias pre post : bool) : Init PatchEmbed :=
  let '(ph, pw) := patch_dims patch_size in
  let patch_dim := channels * ph * pw in
  let pre_n := if pre then LLayerNorm (LayerNorm_init patch_dim) else LIdentity in
  let post_n := if post then LLayerNorm (LayerNorm_init out_dim) else LIdentity in
  pr <- Linear_init patch_dim out_dim with_bias ;;
  ret {| patch_height := ph; patch_width := pw;
         pre_norm := pre_n; post_norm := post_n; proj := pr |}.

Definition PatchEmbed_forward (m : PatchEmbed) (x : Tensor) : Fwd Tensor :=
  x <- lift (rearrange_patches x (patch_height m) (patch_width m)) ;;
  x <- forward (pre_norm m) x ;;
  x <- forward (proj m) x ;;
  x <- forward (post_norm m) x ;;
  ret x.

#[export] Instance PatchEmbed_Module : Module PatchEmbed := PatchEmbed_forward.

(** *** VIT *)

(** The keyword arguments of [VIT.__init__]. *)
Record VITArgs : Type := mkVITArgs {
  num_layers : nat;
  head_dim : nat;
  arg_heads : nat;
  mlp_mult : nat;
  dropout : Q;
  emb_dropout : Q;
  num_classes : nat;
  in_channels : nat;
  patch_size : nat;
  image_size : nat
}.

Definition VIT_defaults : VITArgs :=
  {| num_layers := 8; head_dim := 64; arg_heads := 8; mlp_mult := 4;
     dropout := (1 # 10)%Q; emb_dropout := (1 # 10)%Q; num_classes := 10;
     in_channels := 3; patch_size := 4; image_size := 32 |}.

Record VIT : Type := mkVIT {
  patch_embed : PatchEmbed;
  pos_embs : Tensor;
  transformer : Transformer;
  out_norm : LayerNorm;
  pooler : AttnPooler;
  proj_out : Linear
}.

(** [a // b] *)
Definition floordiv (a b : nat) : Result nat :=
  if b =? 0 then Raise ZeroDivisionError else Ok (a / b).

Definition VIT_init (a : VITArgs) : Init VIT :=
  pe <- PatchEmbed_init 3 (PatchInt (patch_size a))
          (head_dim a * arg_heads a) true false true ;;
  let dim := head_dim a * arg_heads a in
  side <- lift (floordiv (image_size a) (patch_size a)) ;;
  pos <- sample [side ^ 2; head_dim a * arg_heads a] ;;
  tr <- Transformer_init dim (num_layers a) (arg_heads a) (head_dim a)
          (dim * mlp_mult a) (dropout a) ;;
  let on := LayerNorm_init dim in
  po <- AttnPooler_init dim ;;
  pj <- Linear_init dim (num_classes a) true ;;
  ret {| patch_embed := pe; pos_embs := pos; transformer := tr;
         out_norm := on; pooler := po; proj_out := pj |}.

Definition VIT_forward (m : VIT) (pixel_values : Tensor) : Fwd Tensor :=
  x <- forward (patch_embed m) pixel_values ;;
  h <- lift (add x (unsqueeze0 (pos_embs m))) ;;
  h <- forward (transformer m) h ;;
  h <- forward (out_norm m) h ;;
  h <- forward (pooler m) h ;;
  h <- forward (proj_out m) h ;;
  ret h.

#[export] Instance VIT_Module : Module VIT := VIT_forward.

(* ================================================================= *)
(** ** The module-level script *)

(** What one worker does that is visible outside its own computation, in
    program order.  Numerical work (forward, loss, backward, optimizer
    step) writes nothing and is not part of the trace. *)

Record FsdpConfig : Type := mkFsdpConfig {
  mesh : string * list nat * list string;
  reshard_after_forward : bool
}.

Inductive ShardTarget : Type :=
| ShardAttention (m : PreNorm Attention)
| ShardFFN (m : PreNorm FeedForward)
| ShardModel (m : VIT).

Inductive Event : Type :=
| EvDataset (train : bool)           (* CIFAR10(..., download=True) *)
| EvBarrier                          (* torch.distributed.barrier() *)
| EvFullyShard (target : ShardTarget) (cfg : FsdpConfig)
| EvPrint (msg : string)             (* print(...) *)
| EvPrintLoss (epoch batch : nat)    (* print(f'[{epoch}, {batch}] loss: ...') *)
| EvProgress.                        (* tqdm draws the progress bar *)

Definition debug : bool := false.

Definition print_if_master (rank : nat) (msg : string) : list Event :=
  if (rank =? 0) && debug then [EvPrint msg] else [].

(** Lines 201-218. *)
Definition load_datasets (rank : nat) : list Event :=
  (if rank =? 0 then [EvDataset true] else [])
  ++ [EvBarrier; EvDataset true]
  ++ (if rank =? 0 then [EvDataset false] else [])
  ++ [EvBarrier; EvDataset false].

Definition fsdp_config : FsdpConfig :=
  {| mesh := ("cuda"%string, [8], ["dp"%string]);
     reshard_after_forward := true |}.

(** Lines 231-238. *)
Definition shard_model (rank : nat) (m : VIT) : list Event :=
  flat_map (fun attn => print_if_master rank "Sharding attention"
                        ++ [EvFullyShard (ShardAttention attn) fsdp_config])
           (attentions (transformer m))
  ++ flat_map (fun ffn => print_if_master rank "Sharding ffn"
                          ++ [EvFullyShard (ShardFFN ffn) fsdp_config])
              (ffns (transformer m))
  ++ print_if_master rank "Sharding transformer"
  ++ [EvFullyShard (ShardModel m) fsdp_config].

(** [tqdm(..., disable=...)]: a disabled bar draws nothing. *)
Definition pbar_draw (disable : bool) : list Event :=
  if disable then [] else [EvProgress].

(** Lines 248-274: one mini-batch. *)
Definition train_batch (rank epoch i : nat) : list Event :=
  print_if_master rank "zeroed grad"
  ++ print_if_master rank "got outputs"
  ++ print_if_master rank "got loss"
  ++ print_if_master rank "backprop'd"
  ++ print_if_master rank "stepped"
  ++ (if i mod 2000 =? 1999 then [EvPrintLoss (epoch + 1) (i + 1)] else [])
  ++ pbar_draw (negb (rank =? 0))      (* pbar.update(1) *)
  ++ pbar_draw (negb (rank =? 0)).     (* pbar.set_description(...) *)

(** Lines 244-276; [batches] is [len(trainloader)]. *)
Definition train (rank batches : nat) : list Event :=
  pbar_draw (negb (rank =? 0))
  ++ flat_map (fun epoch => flat_map (train_batch rank epoch) (seq 0 batches))
              (seq 0 2)
  ++ [EvPrint "Finished Training"].

(** The whole run of one worker, given the model [net = VIT()]. *)
Definition script (rank batches : nat) (m : VIT) : list Event :=
  load_datasets rank ++ shard_model rank m ++ train rank batches.

(** Lines written to standard output or to the progress bar. *)
Definition is_output (e : Event) : bool :=
  match e with
  | EvPrint _ | EvPrintLoss _ _ | EvProgress => true
  | _ => false
  end.

Definition shard_calls (t : list Event) : list (ShardTarget * FsdpConfig) :=
  flat_map (fun e => match e with
                     | EvFullyShard tg cfg => [(tg, cfg)]
                     | _ => []
                     end) t.

(* ================================================================= *)
(** ** Vocabulary of the statements *)

Unset Implicit Arguments.

(** A forward computation that, from every state, returns a tensor of
    shape [s]. *)
Definition returns_shape (c : Fwd Tensor) (s : list nat) : Prop :=
  forall g, exists y g', c g = Ok (y, g') /\ shape y = s.

(** A forward computation that raises [e] from every state. *)
Definition raises (c : Fwd Tensor) (e : Error) : Prop :=
  forall g, c g = Raise e.

(** The residual connection as the spec writes it: x <- x + f(x). *)
Definition residual (f : Tensor -> Fwd Tensor) (x : Tensor) : Fwd Tensor :=
  y <- f x ;; lift (add x y).

(** f(normalize(x)), with no addition. *)
Definition normalized {F} `{Module F} (ln : LayerNorm) (f : F) (x : Tensor)
  : Fwd Tensor :=
  h <- forward ln x ;; forward f h.

(** Block i of the spec: attention with residual, then feed-forward with
    residual. *)
Definition block (b : PreNorm Attention * PreNorm FeedForward) (x : Tensor)
  : Fwd Tensor :=
  x1 <- residual (normalized (norm (fst b)) (fn (fst b))) x ;;
  residual (normalized (norm (snd b)) (fn (snd b))) x1.

(** Blocks run one after the other, each on the output of the one before. *)
Fixpoint blocks (bs : list (PreNorm Attention * PreNorm FeedForward))
  (x : Tensor) : Fwd Tensor :=
  match bs with
  | [] => ret x
  | b :: rest => x' <- block b x ;; blocks rest x'
  end.

(** Two sizes that broadcasting accepts on one axis. *)
Definition broadcastable (n m : nat) : bool :=
  (n =? m) || (n =? 1) || (m =? 1).

(** *** What the constructors establish, and names for intermediate
    tensors *)

(** The three projections of an input [b, n, dim], as lines 73-74
    compute them. *)
Definition qkv_part (m : Attention) (x : Tensor) (b n dh j : nat) : Tensor :=
  split_heads_at
    (chunk_at (Linear_at (to_qkv m) x [b; n]) [b; n]
              (dh * heads m * 3) (dh * heads m) j)
    b n (heads m) dh.

(** The score of query [i] against key [j] in head [hi]:
    (Q K^T)[i, j] * scale. *)
Definition attention_score (m : Attention) (q k : Tensor) (d : nat)
  (bi hi i j : nat) : R :=
  (sum_upto d (fun c => val q [bi; hi; i; c] * val k [bi; hi; j; c])
   * scale m)%R.

(** The weights of line 78 for q of shape [b, h, n, d] and k of shape
    [b, h, n', d]. *)
Definition attention_matrix (m : Attention) (q k : Tensor) (b h n d n' : nat)
  : Tensor :=
  softmax_at
    (mul_scalar (matmul_at q (transpose_at k [b; h; d; n']) [b; h] n d n')
                (scale m)) n'.

(** What [Attention.__init__] establishes. *)
Record Attention_built (dim h dh : nat) (dr : Q) (m : Attention) : Prop := {
  built_heads : heads m = h;
  built_dh : dh <> 0;
  built_scale : scale m = Rpower (INR dh) (- (1 / 2));
  built_qkv_in : in_features (to_qkv m) = dim;
  built_qkv_out : out_features (to_qkv m) = dh * h * 3;
  built_out :
    (h = 1 /\ dh = dim /\ to_out m = LIdentity)
    \/ (~ (h = 1 /\ dh = dim) /\
        exists l d, to_out m = LSequential [LLinear l; LDropout d]
                    /\ in_features l = dh * h /\ out_features l = dim
                    /\ drop_p d = dr)
}.

(** [forward] as a function of the weights: lines 80-82. *)
Definition Attention_finish (m : Attention) (attn v : Tensor) : Fwd Tensor :=
  out <- lift (Attention_out attn v) ;;
  forward (to_out m) out.

(** The merged heads of lines 80-81 for an input [b, n, dim]. *)
Definition attention_merged (m : Attention) (x : Tensor) (b n dh : nat)
  : Tensor :=
  merge_heads_at
    (matmul_at
       (attention_matrix m (qkv_part m x b n dh 0) (qkv_part m x b n dh 1)
                         b (heads m) n dh n)
       (qkv_part m x b n dh 2) [b; heads m] n n dh)
    b (heads m) n dh.

(** What [FeedForward.__init__] establishes. *)
Record FeedForward_built (dim hidden : nat) (m : FeedForward) : Prop := {
  built_net :
    exists l1 d1 l2 d2,
      net m = LSequential [LLinear l1; LGELU; LDropout d1; LLinear l2; LDropout d2]
      /\ in_features l1 = dim /\ out_features l1 = hidden
      /\ in_features l2 = hidden /\ out_features l2 = dim
}.

(** What [Transformer.__init__] establishes for its two lists. *)
Definition attention_block_built (dim h dh : nat) (dr : Q)
  (pn : PreNorm Attention) : Prop :=
  normalized_shape (norm pn) = dim /\ Attention_built dim h dh dr (fn pn).

Definition ffn_block_built (dim hidden : nat) (pn : PreNorm FeedForward)
  : Prop :=
  normalized_shape (norm pn) = dim /\ FeedForward_built dim hidden (fn pn).

(** What [AttnPooler.__init__] establishes. *)
Record AttnPooler_built (dim : nat) (m : AttnPooler) : Prop := {
  built_k_in : in_features (to_k m) = dim;
  built_k_out : out_features (to_k m) = dim;
  built_v_in : in_features (to_v m) = dim;
  built_v_out : out_features (to_v m) = dim;
  built_q : shape (q m) = [1; 1; dim]
}.

(** [nn.LayerNorm(d) if flag else nn.Identity()] *)
Definition norm_or_identity (l : Layer) (d : nat) : Prop :=
  l = LIdentity \/ l = LLayerNorm (LayerNorm_init d).

(** The value such a layer returns. *)
Definition norm_or_identity_at (l : Layer) (x : Tensor) : Tensor :=
  match l with
  | LLayerNorm ln => LayerNorm_at ln x
  | _ => x
  end.

(** What [PatchEmbed.__init__] establishes. *)
Record PatchEmbed_built (channels ph pw out_dim : nat) (m : PatchEmbed)
  : Prop := {
  built_ph : patch_height m = ph;
  built_pw : patch_width m = pw;
  built_proj_in : in_features (proj m) = channels * ph * pw;
  built_proj_out : out_features (proj m) = out_dim;
  built_pre : norm_or_identity (pre_norm m) (channels * ph * pw);
  built_post : norm_or_identity (post_norm m) out_dim
}.

(** The output of [PatchEmbed.forward] on an image batch whose patches
    are [pt]. *)
Definition PatchEmbed_at (m : PatchEmbed) (pt : Tensor) (pre : list nat)
  : Tensor :=
  norm_or_identity_at (post_norm m)
    (Linear_at (proj m) (norm_or_identity_at (pre_norm m) pt) pre).

(** What [VIT.__init__] establishes. *)
Record VIT_built (a : VITArgs) (m : VIT) : Prop := {
  built_patch_embed :
    PatchEmbed_built 3 (patch_size a) (patch_size a)
                     (head_dim a * arg_heads a) (patch_embed m);
  built_patch_size : patch_size a <> 0;
  built_pos_embs :
    shape (pos_embs m)
    = [(image_size a / patch_size a) ^ 2; head_dim a * arg_heads a];
  built_transformer :
    exists s s',
      Transformer_init (head_dim a * arg_heads a) (num_layers a) (arg_heads a)
        (head_dim a) (head_dim a * arg_heads a * mlp_mult a) (dropout a) s
      = Ok (transformer m, s');
  built_out_norm : normalized_shape (out_norm m) = head_dim a * arg_heads a;
  built_pooler : AttnPooler_built (head_dim a * arg_heads a) (pooler m);
  built_proj_out_in : in_features (proj_out m) = head_dim a * arg_heads a;
  built_proj_out_out : out_features (proj_out m) = num_classes a
}.

(** Lines 187-191: from the transformer to the logits. *)
Definition VIT_tail (m : VIT) (h : Tensor) : Fwd Tensor :=
  h <- forward (transformer m) h ;;
  h <- forward (out_norm m) h ;;
  h <- forward (pooler m) h ;;
  h <- forward (proj_out m) h ;;
  ret h.

(** The same arguments with other values for [in_channels] and
    [emb_dropout]. *)
Definition with_unused (a : VITArgs) (ic : nat) (ed : Q) : VITArgs :=
  {| num_layers := num_layers a; head_dim := head_dim a;
     arg_heads := arg_heads a; mlp_mult := mlp_mult a;
     dropout := dropout a; emb_dropout := ed;
     num_classes := num_classes a; in_channels := ic;
     patch_size := patch_size a; image_size := image_size a |}.

(** Initial parameter values all 0, dropout masks that keep everything. *)
Definition zero_src : ParamSrc := fun _ _ => 0%R.
Definition keep_all : Rng := fun _ _ => true.

(** The failure condition in the words of the spec (C7): H or W is not
    divisible by the patch size, or the number of patches differs from the
    first dimension of the table. *)
Definition stated_failure (a : VITArgs) (H W : nat) : Prop :=
  H mod patch_size a <> 0 \/ W mod patch_size a <> 0
  \/ H / patch_size a * (W / patch_size a)
     <> (image_size a / patch_size a) ^ 2.

(** *** Vocabulary of the further properties *)

(** A forward computation that returns the same tensor of shape [s] from
    every state and leaves the state as it was: no dropout mask is drawn. *)
Definition returns_pure (c : Fwd Tensor) (s : list nat) : Prop :=
  exists y, shape y = s /\ forall g, c g = Ok (y, g).

(** Two forward computations that, from the same state, both return a
    tensor of shape [s], reach the same state, and agree on the row at
    index prefix [ip]. *)
Definition agree_on_row (c c' : Fwd Tensor) (ip : Index) (s : list nat)
  : Prop :=
  forall g, exists y y' g',
    c g = Ok (y, g') /\ c' g = Ok (y', g') /\
    shape y = s /\ shape y' = s /\
    forall o, val y (ip ++ [o]) = val y' (ip ++ [o]).

(** The rate check of [nn.Dropout]. *)
Definition rate_ok (r : Q) : bool := Qle_bool 0 r && Qle_bool r 1.

(** The weight that [AttnPooler.forward] gives position [j] of batch
    element [bi], for an input [b, n, dim]. *)
Definition pool_weight (m : AttnPooler) (x : Tensor) (b n dim bi j : nat) : R :=
  sdpa_weight (expand0_at (q m) 1 b 1 dim) (Linear_at (to_k m) x [b; n])
              dim n bi 0 j.

(** Points at which the workers must meet: barriers and sharding calls. *)
Definition is_sync (e : Event) : bool :=
  match e with
  | EvBarrier | EvFullyShard _ _ => true
  | _ => false
  end.

Definition is_progress (e : Event) : bool :=
  match e with EvProgress => true | _ => false end.

Definition is_loss_line (e : Event) : bool :=
  match e with EvPrintLoss _ _ => true | _ => false end.

(** A feed-forward block as [FeedForward.__init__] builds it, with its
    dropout rate. *)
Definition FeedForward_rated (dim hidden : nat) (dr : Q) (m : FeedForward)
  : Prop :=
  exists l1 d1 l2 d2,
    net m = LSequential [LLinear l1; LGELU; LDropout d1; LLinear l2; LDropout d2]
    /\ in_features l1 = dim /\ out_features l1 = hidden
    /\ in_features l2 = hidden /\ out_features l2 = dim
    /\ drop_p d1 = dr /\ drop_p d2 = dr.

(** The tensor [AttnPooler.forward] returns for an input [b, n, dim]. *)
Definition AttnPooler_at (m : AttnPooler) (x : Tensor) (b n dim : nat)
  : Tensor :=
  let o := sdpa_at (expand0_at (q m) 1 b 1 dim)
                   (Linear_at (to_k m) x [b; n])
                   (Linear_at (to_v m) x [b; n]) [b] [b] [b] [b] 1 n dim dim in
  {| shape := [b; dim];
     val := fun i => match i with
                     | i0 :: r => val o (i0 :: 0 :: r)
                     | [] => 0%R
                     end |}.

(** For an input [n, dim] without a batch axis, every row of the result
    weighs the n positions in the same way: the weight of position [j]. *)
Definition shared_pool_weight (m : AttnPooler) (x : Tensor) (n dim j : nat)
  : R :=
  let score := fun j' =>
    (sum_upto dim (fun c => val (q m) [0%nat; 0%nat; c]
                            * val (Linear_at (to_k m) x [n]) [j'; c])
     / sqrt (INR dim))%R in
  (exp (score j) / sum_upto n (fun j' => exp (score j')))%R.

(** The tensor [AttnPooler.forward] returns for an input [n, dim]. *)
Definition AttnPooler_shared_at (m : AttnPooler) (x : Tensor) (n dim : nat)
  : Tensor :=
  let o := sdpa_at (expand0_at (q m) 1 n 1 dim)
                   (Linear_at (to_k m) x [n])
                   (Linear_at (to_v m) x [n]) [n] [] [] [n] 1 n dim dim in
  {| shape := [n; dim];
     val := fun i => match i with
                     | i0 :: r => val o (i0 :: 0 :: r)
                     | [] => 0%R
                     end |}.

(** Row [r] of the bias-free projection [to_qkv] applied to token [ni]. *)
Definition qkv_row (m : Attention) (x : Tensor) (dim bi ni r : nat) : R :=
  sum_upto dim (fun c => (val x [bi; ni; c] * val (weight (to_qkv m)) [r; c])%R).

(** A small model without dropout: 2 layers, 2 heads of width 2, 8 x 8
    images in patches of 4. *)
Definition small_args : VITArgs :=
  {| num_layers := 2; head_dim := 2; arg_heads := 2; mlp_mult := 2;
     dropout := 0; emb_dropout := 0; num_classes := 10;
     in_channels := 3; patch_size := 4; image_size := 8 |}.

(** A batch [2, 3, 4] that is 0 at position 1 of batch element 0 and 1
    everywhere else. *)
Definition zero_row_input : Tensor :=
  {| shape := [2; 3; 4];
     val := fun i => match i with
                     | [0; 1; _] => 0%R
                     | _ => 1%R
                     end |}.

(** [x] and [x'] hold the same values for batch element [bi], read at
    indices with [r] further axes. *)
Definition same_sample (r bi : nat) (x x' : Tensor) : Prop :=
  forall rest, List.length rest = r -> val x (bi :: rest) = val x' (bi :: rest).

(** Two forward computations that, from the same state, both return a
    tensor of shape [s], reach the same state, and agree on batch element
    [bi]. *)
Definition agree_on_sample (c c' : Fwd Tensor) (r bi : nat) (s : list nat)
  : Prop :=
  forall g, exists y y' g',
    c g = Ok (y, g') /\ c' g = Ok (y', g') /\
    shape y = s /\ shape y' = s /\ same_sample r bi y y'.

(** A batch of two 8 x 8 images: the first all 0, the second all 1. *)
Definition two_images : Tensor :=
  {| shape := [2; 3; 8; 8];
     val := fun i => match i with
                     | 0 :: _ => 0%R
                     | _ => 1%R
                     end |}.

(* ================================================================= *)
(** ** The monad *)

Lemma bind_Ok {S A B} (m : StateErr S A) (k : A -> StateErr S B) s a s' :
  m s = Ok (a, s') -> bind m k s = k a s'.
Proof. intros H. unfold bind. now rewrite H. Qed.

Lemma bind_Raise {S A B} (m : StateErr S A) (k : A -> StateErr S B) s e :
  m s = Raise e -> bind m k s = Raise e.
Proof. intros H. unfold bind. now rewrite H. Qed.

Lemma bind_inv {S A B} (m : StateErr S A) (k : A -> StateErr S B) s b s'' :
  bind m k s = Ok (b, s'') ->
  exists a s', m s = Ok (a, s') /\ k a s' = Ok (b, s'').
Proof.
  unfold bind. destruct (m s) as [[a s']|e]; intros H; [|discriminate].
  now exists a, s'.
Qed.

Lemma lift_inv {S A} (r : Result A) (s : S) a s' :
  lift r s = Ok (a, s') -> r = Ok a /\ s' = s.
Proof.
  unfold lift. destruct r; intros H; inversion H; auto.
Qed.

Lemma returns_bind (c : Fwd Tensor) (k : Tensor -> Fwd Tensor) s s' :
  returns_shape c s ->
  (forall y, shape y = s -> returns_shape (k y) s') ->
  returns_shape (bind c k) s'.
Proof.
  intros Hc Hk g. destruct (Hc g) as (y & g1 & E & Hy).
  destruct (Hk y Hy g1) as (z & g2 & E2 & Hz).
  exists z, g2. split; [|exact Hz]. now rewrite (bind_Ok _ _ _ _ _ E).
Qed.

Lemma returns_lift (r : Result Tensor) y s :
  r = Ok y -> shape y = s -> returns_shape (lift r) s.
Proof. intros -> Hs g. exists y, g. now split. Qed.

Lemma returns_ret y s : shape y = s -> returns_shape (ret y) s.
Proof. intros Hs g. exists y, g. now split. Qed.

Lemma raises_bind_l (c : Fwd Tensor) (k : Tensor -> Fwd Tensor) e :
  raises c e -> raises (bind c k) e.
Proof. intros H g. now apply bind_Raise. Qed.

Lemma raises_bind_r (c : Fwd Tensor) (k : Tensor -> Fwd Tensor) s e :
  returns_shape c s ->
  (forall y, shape y = s -> raises (k y) e) ->
  raises (bind c k) e.
Proof.
  intros Hc Hk g. destruct (Hc g) as (y & g1 & E & Hy).
  rewrite (bind_Ok _ _ _ _ _ E). now apply Hk.
Qed.

(* ================================================================= *)
(** ** Sums *)

Lemma sum_upto_ext n f g :
  (forall k, k < n -> f k = g k) -> sum_upto n f = sum_upto n g.
Proof.
  induction n as [|n IH]; intros H; simpl; [reflexivity|].
  rewrite IH by (intros; apply H; lia). now rewrite H by lia.
Qed.

Lemma sum_upto_scal n f c :
  sum_upto n (fun k => (f k / c)%R) = (sum_upto n f / c)%R.
Proof.
  induction n as [|n IH]; simpl.
  - unfold Rdiv. now rewrite Rmult_0_l.
  - rewrite IH. unfold Rdiv. now rewrite Rmult_plus_distr_r.
Qed.

Lemma sum_upto_pos n f :
  0 < n -> (forall k, (0 < f k)%R) -> (0 < sum_upto n f)%R.
Proof.
  intros Hn Hf. destruct n as [|n]; [lia|]. clear Hn.
  induction n as [|n IH]; simpl in *.
  - rewrite Rplus_0_l. apply Hf.
  - apply Rplus_lt_0_compat; [exact IH | apply Hf].
Qed.

(* ================================================================= *)
(** ** Shapes of the tensor operations *)

Lemma unsnoc_app {A} (l : list A) (x : A) : unsnoc (l ++ [x]) = Some (l, x).
Proof. unfold unsnoc. rewrite rev_app_distr. simpl. now rewrite rev_involutive. Qed.

Lemma shape_eqb_refl s : shape_eqb s s = true.
Proof. induction s; simpl; [reflexivity|]. now rewrite Nat.eqb_refl. Qed.

Lemma Linear_apply_ok l x pre :
  shape x = pre ++ [in_features l] ->
  Linear_apply l x = Ok (Linear_at l x pre).
Proof.
  intros H. unfold Linear_apply. now rewrite H, unsnoc_app, Nat.eqb_refl.
Qed.

Lemma Linear_apply_mismatch l x pre k :
  shape x = pre ++ [k] -> k <> in_features l ->
  Linear_apply l x = Raise RuntimeError.
Proof.
  intros H Hk. unfold Linear_apply. rewrite H, unsnoc_app.
  apply Nat.eqb_neq in Hk. now rewrite Hk.
Qed.

Lemma Linear_returns l x pre :
  shape x = pre ++ [in_features l] ->
  returns_shape (forward l x) (pre ++ [out_features l]).
Proof.
  intros H. eapply returns_lift; [apply Linear_apply_ok, H|reflexivity].
Qed.

Lemma LayerNorm_apply_ok ln x pre :
  shape x = pre ++ [normalized_shape ln] ->
  LayerNorm_apply ln x = Ok (LayerNorm_at ln x).
Proof.
  intros H. unfold LayerNorm_apply. now rewrite H, unsnoc_app, Nat.eqb_refl.
Qed.

Lemma LayerNorm_returns ln x pre :
  shape x = pre ++ [normalized_shape ln] ->
  returns_shape (forward ln x) (shape x).
Proof.
  intros H. eapply returns_lift; [apply (LayerNorm_apply_ok _ _ pre), H|reflexivity].
Qed.

Lemma Dropout_returns (d : Dropout) x : returns_shape (forward d x) (shape x).
Proof.
  intros g. unfold forward, Dropout_Module.
  destruct (negb (training d) || Qeq_bool (drop_p d) 0 || (numel x =? 0));
    [eauto|].
  destruct (Qeq_bool (drop_p d) 1); eauto.
Qed.

Lemma bind_assoc {S A B C} (m : StateErr S A) (f : A -> StateErr S B)
  (k : B -> StateErr S C) s :
  bind (bind m f) k s = bind m (fun a => bind (f a) k) s.
Proof. unfold bind. destruct (m s) as [[a s']|e]; reflexivity. Qed.

Lemma bind_ext {S A B} (m : StateErr S A) (f f' : A -> StateErr S B) s :
  (forall a s', f a s' = f' a s') -> bind m f s = bind m f' s.
Proof. intros H. unfold bind. destruct (m s) as [[a s']|e]; auto. Qed.

(** *** Addition *)

Lemma broadcast_rev_comm s t : broadcast_rev s t = broadcast_rev t s.
Proof.
  revert t. induction s as [|a s IH]; intros [|b t]; simpl; try reflexivity.
  rewrite (IH t). destruct (broadcast_rev t s) as [r|e]; [|reflexivity].
  destruct (Nat.eqb_spec a b), (Nat.eqb_spec b a), (Nat.eqb_spec a 1),
    (Nat.eqb_spec b 1); subst; try reflexivity; congruence.
Qed.

Lemma broadcast_rev_same s : broadcast_rev s s = Ok s.
Proof.
  induction s as [|a s IH]; simpl; [reflexivity|].
  now rewrite IH, Nat.eqb_refl.
Qed.

Lemma broadcast_shapes_same s : broadcast_shapes s s = Ok s.
Proof.
  unfold broadcast_shapes. now rewrite broadcast_rev_same, rev_involutive.
Qed.

Lemma add_comm x y : add x y = add y x.
Proof.
  unfold add, broadcast_shapes. rewrite broadcast_rev_comm.
  destruct (broadcast_rev (rev (shape y)) (rev (shape x))) as [r|e];
    [|reflexivity].
  unfold add_at. do 2 f_equal.
  apply FunctionalExtensionality.functional_extensionality. intros i.
  apply Rplus_comm.
Qed.

Lemma add_same_shape x y :
  shape x = shape y -> add x y = Ok (add_at x y (shape y)).
Proof.
  intros H. unfold add. now rewrite H, broadcast_shapes_same.
Qed.

(* ================================================================= *)
(** ** Transformer: the loop runs the blocks in order *)

Lemma PreNorm_forward_eq {F} `{Module F} (m : PreNorm F) x :
  forward m x = normalized (norm m) (fn m) x.
Proof. reflexivity. Qed.

Lemma Transformer_step_block m i a f x g :
  nth_error (attentions m) i = Some a ->
  nth_error (ffns m) i = Some f ->
  Transformer_step m i x g = block (a, f) x g.
Proof.
  intros Ha Hf. unfold Transformer_step, getitem. rewrite Ha, Hf.
  unfold block, residual. simpl fst. simpl snd.
  rewrite bind_assoc. simpl.
  change (bind (lift (Ok a)) ?k g) with (k a g). cbv beta.
  rewrite PreNorm_forward_eq.
  apply bind_ext. intros ax g1.
  rewrite (add_comm ax x).
  apply bind_ext. intros x1 g2.
  change (bind (lift (Ok f)) ?k g2) with (k f g2). cbv beta.
  rewrite PreNorm_forward_eq.
  apply bind_ext. intros fx g3.
  now rewrite (add_comm fx x1).
Qed.

Lemma Transformer_loop_blocks m :
  forall rest_a rest_f pre_a pre_f g x,
    attentions m = pre_a ++ rest_a ->
    ffns m = pre_f ++ rest_f ->
    List.length pre_a = List.length pre_f ->
    List.length rest_a = List.length rest_f ->
    Transformer_loop m (seq (List.length pre_a) (List.length rest_a)) x g
    = blocks (combine rest_a rest_f) x g.
Proof.
  induction rest_a as [|a rest_a IH]; intros rest_f pre_a pre_f g x Ha Hf Hp Hr.
  - reflexivity.
  - destruct rest_f as [|f rest_f]; [discriminate|].
    simpl. unfold bind.
    rewrite (Transformer_step_block m _ a f).
    + destruct (block (a, f) x g) as [[x' g']|e]; [|reflexivity].
      specialize (IH rest_f (pre_a ++ [a]) (pre_f ++ [f]) g' x').
      rewrite !length_app in IH. simpl in IH.
      rewrite Nat.add_1_r in IH. apply IH.
      * now rewrite <- app_assoc.
      * now rewrite <- app_assoc.
      * lia.
      * simpl in Hr. lia.
    + rewrite Ha, nth_error_app2, Nat.sub_diag by lia. reflexivity.
    + rewrite Hf, nth_error_app2 by lia. rewrite Hp, Nat.sub_diag. reflexivity.
Qed.

Lemma Transformer_forward_blocks m x g :
  List.length (attentions m) = List.length (ffns m) ->
  Transformer_forward m x g = blocks (combine (attentions m) (ffns m)) x g.
Proof.
  intros H. unfold Transformer_forward.
  exact (Transformer_loop_blocks m (attentions m) (ffns m) [] [] g x
           eq_refl eq_refl eq_refl H).
Qed.

(* ================================================================= *)
(** ** Constructors *)

Ltac inv_bind H :=
  let a := fresh "a" in
  let s := fresh "s" in
  let E := fresh "E" in
  apply bind_inv in H; destruct H as (a & s & E & H).

Ltac inv_ret H := unfold ret in H; inversion H; subst; clear H.

Lemma replicateM_length {S A} (c : StateErr S A) n :
  forall s l s', replicateM n c s = Ok (l, s') -> List.length l = n.
Proof.
  induction n as [|n IH]; intros s l s' H; simpl in H.
  - now inv_ret H.
  - inv_bind H. inv_bind H. inv_ret H. simpl. f_equal. eapply IH; eauto.
Qed.

Lemma replicateM_Forall {S A} (c : StateErr S A) (P : A -> Prop) n :
  (forall s a s', c s = Ok (a, s') -> P a) ->
  forall s l s', replicateM n c s = Ok (l, s') -> Forall P l.
Proof.
  intros Hc. induction n as [|n IH]; intros s l s' H; simpl in H.
  - inv_ret H. constructor.
  - inv_bind H. inv_bind H. inv_ret H. constructor; eauto.
Qed.

Lemma Transformer_init_lengths dim depth h dh mlp dr src m src' :
  Transformer_init dim depth h dh mlp dr src = Ok (m, src') ->
  List.length (attentions m) = depth /\ List.length (ffns m) = depth.
Proof.
  intros H. unfold Transformer_init in H.
  inv_bind H. inv_bind H. inv_ret H. simpl.
  split; eapply replicateM_length; eauto.
Qed.

(** C1. In a [Transformer] built with [depth] blocks, [forward] runs the
    blocks in index order, each on the output of the one before; block i
    is x <- x + Attention_i(norm(x)) followed by
    x <- x + FeedForward_i(norm(x)); a [PreNorm] computes fn(norm(x)) and
    nothing else: both additions are made in [Transformer.forward]. *)
Theorem Transformer_forward_runs_blocks :
  forall dim depth h dh mlp dr src m src',
    Transformer_init dim depth h dh mlp dr src = Ok (m, src') ->
    List.length (attentions m) = depth /\
    List.length (ffns m) = depth /\
    (forall x g,
        Transformer_forward m x g
        = blocks (combine (attentions m) (ffns m)) x g) /\
    (forall (pn : PreNorm Attention) x g,
        forward pn x g = (h <- forward (norm pn) x ;; forward (fn pn) h) g) /\
    (forall (pn : PreNorm FeedForward) x g,
        forward pn x g = (h <- forward (norm pn) x ;; forward (fn pn) h) g).
Proof.
  intros dim depth h dh mlp dr src m src' H.
  destruct (Transformer_init_lengths _ _ _ _ _ _ _ _ _ H) as [Ha Hf].
  repeat split; auto.
  intros x g. apply Transformer_forward_blocks. congruence.
Qed.

(* ================================================================= *)
(** ** Attention *)

Lemma chunk3_ok t pre inner :
  shape t = pre ++ [inner * 3] ->
  chunk 3 t = Ok [chunk_at t pre (inner * 3) inner 0;
                  chunk_at t pre (inner * 3) inner 1;
                  chunk_at t pre (inner * 3) inner 2].
Proof.
  intros H. unfold chunk. rewrite H, unsnoc_app. cbv zeta.
  replace ((inner * 3 + 3 - 1) / 3) with inner.
  2:{ replace (inner * 3 + 3 - 1) with (2 + inner * 3) by lia.
      rewrite Nat.div_add by lia. reflexivity. }
  destruct (Nat.eqb_spec inner 0) as [E|E]; [reflexivity|].
  replace ((inner * 3 + inner - 1) / inner) with 3; [reflexivity|].
  apply (Nat.div_unique _ _ _ (inner - 1)); lia.
Qed.

Lemma chunk_at_shape t pre inner j :
  j < 3 -> shape (chunk_at t pre (inner * 3) inner j) = pre ++ [inner].
Proof.
  intros Hj. unfold chunk_at. simpl. do 2 f_equal.
  destruct j as [|[|[|j]]]; lia.
Qed.

Lemma split_axis_mul d h : h <> 0 -> split_axis (d * h) h = Ok d.
Proof.
  intros Hh. unfold split_axis.
  destruct (Nat.eqb_spec h 0); [contradiction|].
  now rewrite Nat.Div0.mod_mul, Nat.div_mul.
Qed.

Lemma rearrange_split_heads_ok t b n d h :
  h <> 0 -> shape t = [b; n; d * h] ->
  rearrange_split_heads t h = Ok (split_heads_at t b n h d).
Proof.
  intros Hh H. unfold rearrange_split_heads. now rewrite H, split_axis_mul.
Qed.

Lemma Attention_qkv_ok m x b n dh :
  heads m <> 0 ->
  out_features (to_qkv m) = dh * heads m * 3 ->
  shape x = [b; n; in_features (to_qkv m)] ->
  Attention_qkv m x
  = Ok (qkv_part m x b n dh 0, qkv_part m x b n dh 1, qkv_part m x b n dh 2).
Proof.
  intros Hh Ho Hx. unfold Attention_qkv.
  rewrite (Linear_apply_ok _ _ [b; n]) by exact Hx.
  rewrite (chunk3_ok _ [b; n] (dh * heads m))
    by (unfold Linear_at; simpl; now rewrite Ho).
  simpl map_results.
  rewrite !(rearrange_split_heads_ok _ b n dh) by
    (try exact Hh; apply (chunk_at_shape _ [b; n]); lia).
  reflexivity.
Qed.

Lemma Attention_weights_ok m q k b h n d n' :
  shape q = [b; h; n; d] -> shape k = [b; h; n'; d] ->
  Attention_weights m q k = Ok (attention_matrix m q k b h n d n').
Proof.
  intros Hq Hk. unfold Attention_weights, transpose_last2, matmul.
  rewrite Hk. simpl. rewrite Hq. simpl.
  rewrite !Nat.eqb_refl. simpl. reflexivity.
Qed.

Lemma attention_matrix_val m q k b h n d n' bi hi i j :
  val (attention_matrix m q k b h n d n') [bi; hi; i; j]
  = (exp (attention_score m q k d bi hi i j)
     / sum_upto n' (fun j' => exp (attention_score m q k d bi hi i j')))%R.
Proof. reflexivity. Qed.

Lemma softmax_row_sum (s : nat -> R) n :
  0 < n ->
  sum_upto n (fun j => (exp (s j) / sum_upto n (fun j' => exp (s j')))%R) = 1%R.
Proof.
  intros Hn. rewrite sum_upto_scal.
  apply Rdiv_diag. apply Rgt_not_eq, Rlt_gt.
  apply sum_upto_pos; [exact Hn|]. intros k. apply exp_pos.
Qed.

(** Over the reals, subtracting a constant from every score (such as the
    row maximum) does not change the softmax. *)
Lemma softmax_shift_invariant (s : nat -> R) (c : R) n j :
  (exp (s j - c) / sum_upto n (fun j' => exp (s j' - c)))%R
  = (exp (s j) / sum_upto n (fun j' => exp (s j')))%R.
Proof.
  assert (E : forall t, exp (t - c) = (exp t / exp c)%R).
  { intros t. unfold Rminus. rewrite exp_plus, exp_Ropp. reflexivity. }
  rewrite E.
  rewrite (sum_upto_ext n (fun j' => exp (s j' - c))
             (fun j' => (exp (s j') / exp c)%R)) by (intros; apply E).
  rewrite sum_upto_scal.
  pose proof (exp_pos c) as Hc.
  destruct n as [|n].
  - simpl. unfold Rdiv. now rewrite Rmult_0_l, !Rinv_0, !Rmult_0_r.
  - assert (Hs : (0 < sum_upto (S n) (fun j' => exp (s j')))%R)
      by (apply sum_upto_pos; [lia|intros; apply exp_pos]).
    field. split; apply Rgt_not_eq; assumption.
Qed.

(** [dim_head ** -0.5] is 1 / sqrt(dim_head). *)
Lemma pow_neg_half_inv_sqrt n r :
  pow_neg_half n = Ok r -> r = (/ sqrt (INR n))%R.
Proof.
  unfold pow_neg_half. destruct (Nat.eqb_spec n 0) as [Z|NZ]; [discriminate|].
  intros H. inversion H; subst r.
  assert (Hn : (0 < INR n)%R) by (apply lt_0_INR; lia).
  replace (- (1 / 2))%R with (- / 2)%R by lra.
  rewrite Rpower_Ropp, Rpower_sqrt by exact Hn. reflexivity.
Qed.

Lemma Linear_init_inv i o wb src l src' :
  Linear_init i o wb src = Ok (l, src') ->
  in_features l = i /\ out_features l = o.
Proof.
  unfold Linear_init. intros H. inv_bind H. inv_bind H. inv_ret H. now simpl.
Qed.

Lemma Dropout_init_inv r src d src' :
  Dropout_init r src = Ok (d, src') -> drop_p d = r /\ training d = true.
Proof.
  unfold Dropout_init. intros H.
  destruct (Qle_bool 0 r && Qle_bool r 1); [|discriminate].
  inv_ret H. now simpl.
Qed.

Lemma Attention_init_built dim h dh dr src m src' :
  Attention_init dim h dh dr src = Ok (m, src') ->
  Attention_built dim h dh dr m.
Proof.
  unfold Attention_init. intros H.
  inv_bind H. apply lift_inv in E as [E ->].
  unfold pow_neg_half in E.
  destruct (Nat.eqb_spec dh 0) as [Z|NZ]; [discriminate|]. inversion E; subst a.
  inv_bind H. inv_bind H. inv_ret H.
  apply Linear_init_inv in E0 as [Hi Ho].
  constructor; simpl; auto.
  destruct (Nat.eqb_spec h 1) as [H1|H1], (Nat.eqb_spec dh dim) as [H2|H2];
    simpl in E1.
  - inv_ret E1. now left.
  - right. split; [tauto|].
    inv_bind E1. inv_bind E1. inv_ret E1.
    apply Linear_init_inv in E0 as [? ?]. apply Dropout_init_inv in E2 as [? ?].
    eauto 10.
  - right. split; [tauto|].
    inv_bind E1. inv_bind E1. inv_ret E1.
    apply Linear_init_inv in E0 as [? ?]. apply Dropout_init_inv in E2 as [? ?].
    eauto 10.
  - right. split; [tauto|].
    inv_bind E1. inv_bind E1. inv_ret E1.
    apply Linear_init_inv in E0 as [? ?]. apply Dropout_init_inv in E2 as [? ?].
    eauto 10.
Qed.

Lemma Attention_out_ok w v b h n n' d :
  shape w = [b; h; n; n'] -> shape v = [b; h; n'; d] ->
  Attention_out w v = Ok (merge_heads_at (matmul_at w v [b; h] n n' d) b h n d).
Proof.
  intros Hw Hv. unfold Attention_out, matmul. rewrite Hw, Hv. simpl.
  now rewrite !Nat.eqb_refl.
Qed.

Lemma Attention_forward_unfold m x b n dh g :
  heads m <> 0 ->
  out_features (to_qkv m) = dh * heads m * 3 ->
  shape x = [b; n; in_features (to_qkv m)] ->
  Attention_forward m x g
  = Attention_finish m
      (attention_matrix m (qkv_part m x b n dh 0) (qkv_part m x b n dh 1)
                        b (heads m) n dh n)
      (qkv_part m x b n dh 2) g.
Proof.
  intros Hh Ho Hx. unfold Attention_forward.
  unfold bind at 1. rewrite (Attention_qkv_ok m x b n dh Hh Ho Hx). simpl.
  unfold bind at 1.
  rewrite (Attention_weights_ok m _ _ b (heads m) n dh n) by reflexivity.
  reflexivity.
Qed.

Lemma to_out_returns dim h dh dr m y pre :
  Attention_built dim h dh dr m ->
  shape y = pre ++ [h * dh] ->
  returns_shape (forward (to_out m) y) (pre ++ [dim]).
Proof.
  intros B Hy. destruct (built_out _ _ _ _ _ B) as [(H1 & H2 & E)|(_ & l & d & E & Hi & Ho & _)];
    rewrite E.
  - subst. apply returns_ret. rewrite Hy. now rewrite Nat.mul_1_l.
  - simpl. eapply returns_bind.
    + apply (Linear_returns l y pre). now rewrite Hy, Hi, Nat.mul_comm.
    + intros y1 Hy1. eapply returns_bind.
      * apply Dropout_returns.
      * intros y2 Hy2. apply returns_ret. now rewrite Hy2, Hy1, Ho.
Qed.

Lemma Attention_forward_returns dim h dh dr m x b n :
  Attention_built dim h dh dr m -> h <> 0 ->
  shape x = [b; n; dim] ->
  returns_shape (forward m x) [b; n; dim].
Proof.
  intros B Hh Hx g.
  assert (Hm : heads m = h) by apply B.
  unfold forward, Attention_Module.
  rewrite (Attention_forward_unfold m x b n dh).
  - unfold Attention_finish. unfold bind at 1.
    rewrite (Attention_out_ok _ _ b (heads m) n n dh) by reflexivity.
    simpl lift. cbv iota beta.
    apply (to_out_returns dim h dh dr m _ [b; n] B).
    simpl. now rewrite Hm.
  - now rewrite Hm.
  - rewrite Hm. apply B.
  - rewrite Hx. f_equal. f_equal. f_equal. symmetry. apply B.
Qed.

Lemma Attention_forward_to_out dim h dh dr m x b n g :
  Attention_built dim h dh dr m -> h <> 0 ->
  shape x = [b; n; dim] ->
  Attention_forward m x g = forward (to_out m) (attention_merged m x b n dh) g.
Proof.
  intros B Hh Hx.
  assert (Hm : heads m = h) by apply B.
  rewrite (Attention_forward_unfold m x b n dh).
  - unfold Attention_finish, bind.
    rewrite (Attention_out_ok _ _ b (heads m) n n dh) by reflexivity.
    reflexivity.
  - congruence.
  - rewrite Hm. apply B.
  - rewrite Hx. do 3 f_equal. symmetry. apply B.
Qed.

Lemma Linear_init_bias i o src l src' :
  Linear_init i o true src = Ok (l, src') -> exists bs, bias l = Some bs.
Proof.
  unfold Linear_init. intros H. inv_bind H. inv_bind H. inv_ret H.
  inv_bind E0. inv_ret E0. simpl. eauto.
Qed.

(** What [Attention.__init__] stores in [to_out] when it projects. *)
Lemma Attention_init_projection dim h dh dr src m src' :
  Attention_init dim h dh dr src = Ok (m, src') ->
  ~ (h = 1 /\ dh = dim) ->
  exists l d bs,
    to_out m = LSequential [LLinear l; LDropout d] /\
    in_features l = dh * h /\ out_features l = dim /\ bias l = Some bs /\
    drop_p d = dr /\ training d = true.
Proof.
  unfold Attention_init. intros H N.
  inv_bind H. inv_bind H. inv_bind H. inv_ret H. simpl.
  destruct (Nat.eqb_spec h 1) as [H1|H1], (Nat.eqb_spec dh dim) as [H2|H2];
    simpl in E1; try tauto;
    inv_bind E1; inv_bind E1; inv_ret E1;
    destruct (Linear_init_bias _ _ _ _ _ E2) as [bs Hb];
    apply Linear_init_inv in E2 as [? ?];
    apply Dropout_init_inv in E3 as [? ?];
    exists a2, a3, bs; auto 10.
Qed.

(** A two-layer [nn.Sequential] of a linear layer and a dropout. *)
Lemma Sequential_Linear_Dropout l d y pre g :
  shape y = pre ++ [in_features l] ->
  forward (LSequential [LLinear l; LDropout d]) y g
  = forward d (Linear_at l y pre) g.
Proof.
  intros Hy. unfold forward at 1, Layer_Module. simpl.
  unfold bind at 1. unfold forward at 1, Linear_Module, lift.
  rewrite (Linear_apply_ok _ _ _ Hy).
  unfold bind, ret. now destruct (forward d (Linear_at l y pre) g) as [[? ?]|].
Qed.

(** C4. The per-head outputs, merged to [b, n, heads * head_dim], go
    through [to_out].  [to_out] is the learned projection (a linear layer
    inner_dim -> dim with bias, followed by dropout) exactly when
    not (heads == 1 and head_dim == dim), and is the identity exactly when
    heads == 1 and head_dim == dim.  In the identity case [forward] returns
    the merged heads unchanged.  In the projection case [forward] returns
    the dropout of y, where y = merged W^T + bias has shape [b, n, dim];
    the result has shape [b, n, dim], and at dropout rate 0 it is y. *)
Theorem Attention_output_projection :
  forall dim h dh dr src m src',
    Attention_init dim h dh dr src = Ok (m, src') ->
    (to_out m = LIdentity <-> (h = 1 /\ dh = dim)) /\
    ((exists l d, to_out m = LSequential [LLinear l; LDropout d]
                  /\ in_features l = dh * h /\ out_features l = dim)
     <-> ~ (h = 1 /\ dh = dim)) /\
    (forall x b n, h <> 0 -> shape x = [b; n; dim] ->
       let out := attention_merged m x b n dh in
       shape out = [b; n; h * dh] /\
       (forall g, Attention_forward m x g = forward (to_out m) out g) /\
       (h = 1 /\ dh = dim ->
        forall g, Attention_forward m x g = Ok (out, g)) /\
       (~ (h = 1 /\ dh = dim) ->
        exists l d bs,
          to_out m = LSequential [LLinear l; LDropout d] /\
          in_features l = dh * h /\ out_features l = dim /\
          bias l = Some bs /\ drop_p d = dr /\ training d = true /\
          let y := Linear_at l out [b; n] in
          shape y = [b; n; dim] /\
          (forall bi i o,
              val y [bi; i; o]
              = (sum_upto (dh * h)
                   (fun j => val out [bi; i; j] * val (weight l) [o; j])
                 + val bs [o])%R) /\
          (forall g, Attention_forward m x g = forward d y g) /\
          returns_shape (Attention_forward m x) [b; n; dim] /\
          (Qeq_bool dr 0 = true ->
           forall g, Attention_forward m x g = Ok (y, g)))).
Proof.
  intros dim h dh dr src m src' H.
  pose proof (Attention_init_built _ _ _ _ _ _ _ H) as B.
  assert (Hm : heads m = h) by apply B.
  assert (F : forall x b n, h <> 0 -> shape x = [b; n; dim] ->
              shape (attention_merged m x b n dh) = [b; n; h * dh] /\
              (forall g, Attention_forward m x g
                         = forward (to_out m) (attention_merged m x b n dh) g)).
  { intros x b n Hh Hx. split.
    - simpl. now rewrite Hm.
    - intros g. now apply (Attention_forward_to_out dim h dh dr). }
  assert (P : forall x b n, h <> 0 -> shape x = [b; n; dim] ->
              ~ (h = 1 /\ dh = dim) ->
              exists l d bs,
                to_out m = LSequential [LLinear l; LDropout d] /\
                in_features l = dh * h /\ out_features l = dim /\
                bias l = Some bs /\ drop_p d = dr /\ training d = true /\
                let y := Linear_at l (attention_merged m x b n dh) [b; n] in
                shape y = [b; n; dim] /\
                (forall bi i o,
                    val y [bi; i; o]
                    = (sum_upto (dh * h)
                         (fun j => val (attention_merged m x b n dh) [bi; i; j]
                                   * val (weight l) [o; j])
                       + val bs [o])%R) /\
                (forall g, Attention_forward m x g = forward d y g) /\
                returns_shape (Attention_forward m x) [b; n; dim] /\
                (Qeq_bool dr 0 = true ->
                 forall g, Attention_forward m x g = Ok (y, g))).
  { intros x b n Hh Hx N.
    destruct (Attention_init_projection _ _ _ _ _ _ _ H N)
      as (l & d & bs & E & Hi & Ho & Hb & Hd & Ht).
    destruct (F x b n Hh Hx) as [F1 F2].
    assert (Hy : shape (attention_merged m x b n dh) = [b; n] ++ [in_features l]).
    { rewrite F1, Hi. simpl. now rewrite Nat.mul_comm. }
    assert (G : forall g, Attention_forward m x g
                          = forward d (Linear_at l (attention_merged m x b n dh)
                                                 [b; n]) g).
    { intros g. rewrite F2, E. now apply Sequential_Linear_Dropout. }
    exists l, d, bs. repeat (split; [assumption|]).
    cbv zeta. split; [|split; [|split; [|split]]].
    - simpl. now rewrite Ho.
    - intros bi i o. simpl. unfold Linear_row. rewrite Hi, Hb. reflexivity.
    - exact G.
    - intros g. rewrite G.
      destruct (Dropout_returns d (Linear_at l (attention_merged m x b n dh)
                                             [b; n]) g) as (y & g' & Ey & Sy).
      exists y, g'. split; [exact Ey|]. rewrite Sy. simpl. now rewrite Ho.
    - intros Z g. rewrite G. unfold forward, Dropout_Module.
      rewrite Hd, Z, orb_true_r. reflexivity. }
  destruct (built_out _ _ _ _ _ B) as [(H1 & H2 & E)|(N & l & d & E & Hi & Ho & _)].
  - split; [|split].
    + tauto.
    + split; [|tauto]. intros (l & d & E' & _). congruence.
    + intros x b n Hh Hx out. destruct (F x b n Hh Hx) as [F1 F2].
      split; [exact F1|split; [exact F2|split]].
      * intros _ g. rewrite F2, E. reflexivity.
      * intros N. tauto.
  - split; [|split].
    + split; [congruence|tauto].
    + split; [tauto|]. intros _. eauto 10.
    + intros x b n Hh Hx out. destruct (F x b n Hh Hx) as [F1 F2].
      split; [exact F1|split; [exact F2|split; [tauto|]]].
      intros N'. exact (P x b n Hh Hx N').
Qed.

(** C5. In every [Attention.forward] call that reaches line 78, the
    weights are softmax((Q K^T) * head_dim ** -0.5) over the key axis, and
    the weights of every query position sum to 1 over the keys. *)
Theorem Attention_weights_softmax :
  forall dim h dh dr src m src' x b n,
    Attention_init dim h dh dr src = Ok (m, src') ->
    h <> 0 ->
    shape x = [b; n; dim] ->
    exists q k v w,
      Attention_qkv m x = Ok (q, k, v) /\
      Attention_weights m q k = Ok w /\
      (forall g, Attention_forward m x g = Attention_finish m w v g) /\
      shape w = [b; h; n; n] /\
      scale m = Rpower (INR dh) (- (1 / 2)) /\
      (forall bi hi i j,
          val w [bi; hi; i; j]
          = (exp (attention_score m q k dh bi hi i j)
             / sum_upto n (fun j' => exp (attention_score m q k dh bi hi i j')))%R) /\
      (forall bi hi i,
          i < n -> sum_upto n (fun j => val w [bi; hi; i; j]) = 1%R).
Proof.
  intros dim h dh dr src m src' x b n H Hh Hx.
  pose proof (Attention_init_built _ _ _ _ _ _ _ H) as B.
  assert (Hm : heads m = h) by apply B.
  assert (Hh' : heads m <> 0) by congruence.
  assert (Ho : out_features (to_qkv m) = dh * heads m * 3)
    by (rewrite Hm; apply B).
  assert (Hx' : shape x = [b; n; in_features (to_qkv m)]).
  { rewrite Hx. do 3 f_equal. symmetry. apply B. }
  exists (qkv_part m x b n dh 0), (qkv_part m x b n dh 1),
    (qkv_part m x b n dh 2).
  exists (attention_matrix m (qkv_part m x b n dh 0) (qkv_part m x b n dh 1)
            b (heads m) n dh n).
  split; [|split; [|split; [|split; [|split; [|split]]]]].
  - now apply Attention_qkv_ok.
  - now apply Attention_weights_ok.
  - intros g. now apply Attention_forward_unfold.
  - simpl. now rewrite Hm.
  - apply B.
  - intros. apply attention_matrix_val.
  - intros bi hi i Hi.
    rewrite (sum_upto_ext n _ _
               (fun j _ => attention_matrix_val m _ _ b (heads m) n dh n bi hi i j)).
    apply softmax_row_sum. lia.
Qed.

(* ================================================================= *)
(** ** Shapes through FeedForward, the blocks and the pooler *)

Lemma FeedForward_init_built dim hidden dr src m src' :
  FeedForward_init dim hidden dr src = Ok (m, src') ->
  FeedForward_built dim hidden m.
Proof.
  unfold FeedForward_init. intros H.
  inv_bind H. inv_bind H. inv_bind H. inv_bind H. inv_ret H.
  apply Linear_init_inv in E as [? ?]. apply Linear_init_inv in E1 as [? ?].
  constructor. simpl. eauto 10.
Qed.

Lemma FeedForward_forward_returns dim hidden m x pre :
  FeedForward_built dim hidden m ->
  shape x = pre ++ [dim] ->
  returns_shape (forward m x) (pre ++ [dim]).
Proof.
  intros [(l1 & d1 & l2 & d2 & E & I1 & O1 & I2 & O2)] Hx.
  unfold forward, FeedForward_Module, FeedForward_forward. rewrite E. simpl.
  eapply returns_bind.
  { apply (Linear_returns l1 x pre). now rewrite I1. }
  intros y1 H1. eapply returns_bind.
  { apply returns_ret. reflexivity. }
  intros y2 H2. simpl in H2. eapply returns_bind.
  { apply Dropout_returns. }
  intros y3 H3. eapply returns_bind.
  { apply (Linear_returns l2 y3 pre). now rewrite H3, H2, H1, O1, I2. }
  intros y4 H4. eapply returns_bind.
  { apply Dropout_returns. }
  intros y5 H5. apply returns_ret. now rewrite H5, H4, O2.
Qed.

Lemma add_returns x y s :
  shape x = s -> shape y = s -> returns_shape (lift (add x y)) s.
Proof.
  intros Hx Hy. eapply returns_lift.
  - apply add_same_shape. congruence.
  - simpl. exact Hy.
Qed.

Lemma residual_returns f x s :
  shape x = s -> returns_shape (f x) s -> returns_shape (residual f x) s.
Proof.
  intros Hx Hf. unfold residual. eapply returns_bind; [exact Hf|].
  intros y Hy. now apply add_returns.
Qed.

Lemma normalized_returns {F} `{Module F} ln (f : F) x pre s :
  shape x = pre ++ [normalized_shape ln] ->
  (forall h, shape h = shape x -> returns_shape (forward f h) s) ->
  returns_shape (normalized ln f x) s.
Proof.
  intros Hx Hf. unfold normalized. eapply returns_bind.
  - apply (LayerNorm_returns ln x pre Hx).
  - exact Hf.
Qed.

Lemma Transformer_init_built dim depth h dh mlp dr src m src' :
  Transformer_init dim depth h dh mlp dr src = Ok (m, src') ->
  Forall (attention_block_built dim h dh dr) (attentions m) /\
  Forall (ffn_block_built dim mlp) (ffns m).
Proof.
  intros H. unfold Transformer_init in H.
  inv_bind H. inv_bind H. inv_ret H. simpl. split.
  - eapply replicateM_Forall; [|exact E].
    intros s1 pn s2 Hpn. inv_bind Hpn. inv_ret Hpn.
    split; [reflexivity|]. simpl. eapply Attention_init_built; eauto.
  - eapply replicateM_Forall; [|exact E0].
    intros s1 pn s2 Hpn. inv_bind Hpn. inv_ret Hpn.
    split; [reflexivity|]. simpl. eapply FeedForward_init_built; eauto.
Qed.

Lemma block_returns dim h dh dr mlp a f x b n :
  h <> 0 ->
  attention_block_built dim h dh dr a ->
  ffn_block_built dim mlp f ->
  shape x = [b; n; dim] ->
  returns_shape (block (a, f) x) [b; n; dim].
Proof.
  intros Hh [Na Ba] [Nf Bf] Hx. unfold block. simpl fst. simpl snd.
  eapply returns_bind.
  - apply residual_returns; [exact Hx|].
    apply (normalized_returns _ _ _ [b; n]); [now rewrite Hx, Na|].
    intros y Hy. apply (Attention_forward_returns dim h dh dr); auto.
    congruence.
  - intros x1 Hx1. apply residual_returns; [exact Hx1|].
    apply (normalized_returns _ _ _ [b; n]); [now rewrite Hx1, Nf|].
    intros y Hy.
    apply (FeedForward_forward_returns dim mlp _ _ [b; n]); auto.
    simpl. congruence.
Qed.

Lemma blocks_returns dim h dh dr mlp b n :
  h <> 0 ->
  forall atts ffs,
    Forall (attention_block_built dim h dh dr) atts ->
    Forall (ffn_block_built dim mlp) ffs ->
    forall x, shape x = [b; n; dim] ->
              returns_shape (blocks (combine atts ffs) x) [b; n; dim].
Proof.
  intros Hh. induction atts as [|a atts IH]; intros ffs Ha Hf x Hx.
  - now apply returns_ret.
  - destruct ffs as [|f ffs]; [now apply returns_ret|].
    inversion Ha; subst. inversion Hf; subst. simpl.
    eapply returns_bind.
    + eapply block_returns; eauto.
    + intros x' Hx'. now apply IH.
Qed.

Lemma Transformer_forward_returns dim depth h dh mlp dr src m src' x b n :
  Transformer_init dim depth h dh mlp dr src = Ok (m, src') ->
  h <> 0 ->
  shape x = [b; n; dim] ->
  returns_shape (forward m x) [b; n; dim].
Proof.
  intros H Hh Hx g.
  destruct (Transformer_init_lengths _ _ _ _ _ _ _ _ _ H) as [La Lf].
  destruct (Transformer_init_built _ _ _ _ _ _ _ _ _ H) as [Ba Bf].
  unfold forward, Transformer_Module.
  rewrite Transformer_forward_blocks by congruence.
  eapply blocks_returns; eauto.
Qed.

Lemma AttnPooler_init_built dim src m src' :
  AttnPooler_init dim src = Ok (m, src') -> AttnPooler_built dim m.
Proof.
  unfold AttnPooler_init. intros H.
  inv_bind H. inv_bind H. inv_bind H. inv_ret H.
  apply Linear_init_inv in E as [? ?]. apply Linear_init_inv in E0 as [? ?].
  unfold sample in E1. inversion E1; subst.
  constructor; simpl; auto.
Qed.

Lemma sdpa_ok q0 k v b l s e ev :
  shape q0 = [b; l; e] -> shape k = [b; s; e] -> shape v = [b; s; ev] ->
  scaled_dot_product_attention q0 k v
  = Ok (sdpa_at q0 k v [b] [b] [b] [b] l s e ev).
Proof.
  intros Hq Hk Hv. unfold scaled_dot_product_attention.
  rewrite Hq, Hk, Hv. cbn [unsnoc2 rev app].
  rewrite !Nat.eqb_refl. cbn [andb].
  unfold broadcast_shapes. cbn [rev app broadcast_rev].
  rewrite !Nat.eqb_refl. cbn [rev app broadcast_rev].
  now rewrite !Nat.eqb_refl.
Qed.

(** With one batch axis shared by the three operands, batch element [bi]
    of the result is computed from batch element [bi] of each. *)
Lemma sdpa_at_same_batch q0 k v b l s e ev bi i c :
  val (sdpa_at q0 k v [b] [b] [b] [b] l s e ev) [bi; i; c]
  = sum_upto s (fun j => (sdpa_weight q0 k e s bi i j * val v [bi; j; c])%R).
Proof.
  cbn [val sdpa_at unsnoc2 rev app batch_index batch_index_rev].
  rewrite Nat.eqb_refl. reflexivity.
Qed.

(** The pooled output has one vector per batch element, whatever the
    sequence length. *)
Lemma AttnPooler_forward_returns dim m x b n :
  AttnPooler_built dim m ->
  shape x = [b; n; dim] ->
  returns_shape (forward m x) [b; dim].
Proof.
  intros B Hx. unfold forward at 1, AttnPooler_Module, AttnPooler_forward.
  eapply returns_bind.
  { apply (Linear_returns _ x [b; n]). rewrite Hx. simpl. do 3 f_equal.
    symmetry. apply B. }
  intros k Hk. rewrite (built_k_out _ _ B) in Hk.
  eapply returns_bind.
  { apply (Linear_returns _ x [b; n]). rewrite Hx. simpl. do 3 f_equal.
    symmetry. apply B. }
  intros v Hv. rewrite (built_v_out _ _ B) in Hv.
  unfold shape0, expand0. rewrite Hx, (built_q _ _ B). simpl.
  intros g. unfold bind. simpl.
  rewrite (sdpa_ok _ k v b 1 n dim dim) by (auto; reflexivity).
  unfold squeeze1. simpl. eauto.
Qed.

(* ================================================================= *)
(** ** PatchEmbed *)

Lemma divmod_mul_add a n r :
  r < n -> (a * n + r) / n = a /\ (a * n + r) mod n = r.
Proof.
  intros Hr. split.
  - rewrite Nat.div_add_l by lia. rewrite Nat.div_small by lia. lia.
  - rewrite Nat.add_comm, Nat.Div0.mod_add. now apply Nat.mod_small.
Qed.

Lemma split_axis_ok len k :
  k <> 0 -> len mod k = 0 -> split_axis len k = Ok (len / k).
Proof.
  intros Hk Hm. unfold split_axis.
  destruct (Nat.eqb_spec k 0); [contradiction|]. now rewrite Hm.
Qed.

Lemma split_axis_indivisible len k :
  k <> 0 -> len mod k <> 0 -> split_axis len k = Raise EinopsError.
Proof.
  intros Hk Hm. unfold split_axis.
  destruct (Nat.eqb_spec k 0); [contradiction|].
  destruct (Nat.eqb_spec (len mod k) 0); [contradiction|reflexivity].
Qed.

Lemma rearrange_patches_ok x b c H W p1 p2 :
  shape x = [b; c; H; W] -> p1 <> 0 -> p2 <> 0 ->
  H mod p1 = 0 -> W mod p2 = 0 ->
  rearrange_patches x p1 p2 = Ok (patches_at x b c (H / p1) (W / p2) p1 p2).
Proof.
  intros Hx H1 H2 D1 D2. unfold rearrange_patches.
  now rewrite Hx, !split_axis_ok.
Qed.

Lemma rearrange_patches_indivisible x b c H W p1 p2 :
  shape x = [b; c; H; W] -> p1 <> 0 -> p2 <> 0 ->
  H mod p1 <> 0 \/ W mod p2 <> 0 ->
  rearrange_patches x p1 p2 = Raise EinopsError.
Proof.
  intros Hx H1 H2 D. unfold rearrange_patches. rewrite Hx.
  destruct (Nat.eq_dec (H mod p1) 0) as [E1|E1].
  - rewrite (split_axis_ok H p1) by assumption.
    destruct D as [D|D]; [contradiction|].
    now rewrite split_axis_indivisible.
  - now rewrite split_axis_indivisible.
Qed.

(** Entry (i1, i2, ci) of the flattened patch (hi, wi) is the pixel of
    channel ci at row hi * p1 + i1 and column wi * p2 + i2. *)
Lemma patches_at_val x b c h w p1 p2 bi hi wi i1 i2 ci :
  wi < w -> i2 < p2 -> ci < c ->
  val (patches_at x b c h w p1 p2) [bi; hi * w + wi; (i1 * p2 + i2) * c + ci]
  = val x [bi; ci; hi * p1 + i1; wi * p2 + i2].
Proof.
  intros Hw H2 Hc. simpl.
  destruct (divmod_mul_add hi w wi Hw) as [-> ->].
  destruct (divmod_mul_add (i1 * p2 + i2) c ci Hc) as [-> ->].
  destruct (divmod_mul_add i1 p2 i2 H2) as [-> ->].
  reflexivity.
Qed.

Lemma PatchEmbed_init_built channels ps out_dim wb pre post src m src' :
  PatchEmbed_init channels ps out_dim wb pre post src = Ok (m, src') ->
  PatchEmbed_built channels (fst (patch_dims ps)) (snd (patch_dims ps))
                   out_dim m.
Proof.
  unfold PatchEmbed_init. destruct (patch_dims ps) as [ph pw]. intros H.
  inv_bind H. inv_ret H. apply Linear_init_inv in E as [? ?].
  constructor; simpl; auto; unfold norm_or_identity.
  - destruct pre; auto.
  - destruct post; auto.
Qed.

Lemma norm_or_identity_forward l d x pre g :
  norm_or_identity l d -> shape x = pre ++ [d] ->
  forward l x g = Ok (norm_or_identity_at l x, g).
Proof.
  intros [->| ->] Hx; [reflexivity|].
  unfold forward, Layer_Module. simpl.
  unfold forward, LayerNorm_Module.
  now rewrite (LayerNorm_apply_ok _ x pre).
Qed.

Lemma norm_or_identity_mismatch l d x pre k g :
  norm_or_identity l d -> shape x = pre ++ [k] -> k <> d ->
  forward l x g = Ok (x, g) \/ forward l x g = Raise RuntimeError.
Proof.
  intros [->| ->] Hx Hk; [now left|right].
  unfold forward, Layer_Module. simpl.
  unfold forward, LayerNorm_Module, LayerNorm_apply.
  rewrite Hx, unsnoc_app. simpl.
  apply Nat.eqb_neq in Hk. now rewrite Hk.
Qed.

Lemma norm_or_identity_at_shape l x : shape (norm_or_identity_at l x) = shape x.
Proof. destruct l; reflexivity. Qed.

Lemma PatchEmbed_forward_ok channels ph pw out_dim m x b H W g :
  PatchEmbed_built channels ph pw out_dim m ->
  shape x = [b; channels; H; W] -> ph <> 0 -> pw <> 0 ->
  H mod ph = 0 -> W mod pw = 0 ->
  PatchEmbed_forward m x g
  = Ok (PatchEmbed_at m (patches_at x b channels (H / ph) (W / pw) ph pw)
                      [b; H / ph * (W / pw)], g).
Proof.
  intros B Hx H1 H2 D1 D2. unfold PatchEmbed_forward.
  rewrite (built_ph _ _ _ _ _ B), (built_pw _ _ _ _ _ B).
  unfold bind at 1.
  rewrite (rearrange_patches_ok x b channels H W) by assumption. simpl lift.
  cbv iota beta.
  set (pt := patches_at x b channels (H / ph) (W / pw) ph pw).
  assert (Hpt : shape pt = [b; H / ph * (W / pw)] ++ [channels * ph * pw]).
  { simpl. do 3 f_equal. lia. }
  unfold bind at 1.
  rewrite (norm_or_identity_forward _ _ _ _ g (built_pre _ _ _ _ _ B) Hpt).
  unfold bind at 1. unfold forward at 1, Linear_Module.
  rewrite (Linear_apply_ok _ _ [b; H / ph * (W / pw)])
    by (now rewrite norm_or_identity_at_shape, Hpt, (built_proj_in _ _ _ _ _ B)).
  simpl lift. cbv iota beta.
  unfold bind at 1.
  rewrite (norm_or_identity_forward _ out_dim _ [b; H / ph * (W / pw)] g
             (built_post _ _ _ _ _ B))
    by (simpl; now rewrite (built_proj_out _ _ _ _ _ B)).
  reflexivity.
Qed.

Lemma PatchEmbed_at_shape channels ph pw out_dim m pt pre :
  PatchEmbed_built channels ph pw out_dim m ->
  shape (PatchEmbed_at m pt pre) = pre ++ [out_dim].
Proof.
  intros B. unfold PatchEmbed_at. rewrite norm_or_identity_at_shape. simpl.
  now rewrite (built_proj_out _ _ _ _ _ B).
Qed.

(** *** Each output position is computed from its own patch *)

Lemma LayerNorm_row_local ln x x' ip j :
  (forall k, k < normalized_shape ln -> val x (ip ++ [k]) = val x' (ip ++ [k])) ->
  j < normalized_shape ln ->
  LayerNorm_row ln x ip j = LayerNorm_row ln x' ip j.
Proof.
  intros H Hj. unfold LayerNorm_row.
  assert (M : row_mean x (normalized_shape ln) ip
              = row_mean x' (normalized_shape ln) ip).
  { unfold row_mean. f_equal. now apply sum_upto_ext. }
  assert (V : row_var x (normalized_shape ln) ip
              = row_var x' (normalized_shape ln) ip).
  { unfold row_var. f_equal. apply sum_upto_ext. intros k Hk.
    now rewrite M, H. }
  now rewrite M, V, H.
Qed.

Lemma norm_or_identity_at_local l d x x' ip :
  norm_or_identity l d ->
  (forall k, k < d -> val x (ip ++ [k]) = val x' (ip ++ [k])) ->
  forall j, j < d ->
    val (norm_or_identity_at l x) (ip ++ [j])
    = val (norm_or_identity_at l x') (ip ++ [j]).
Proof.
  intros [->| ->] H j Hj; simpl; [now apply H|].
  rewrite unsnoc_app. now apply LayerNorm_row_local.
Qed.

Lemma Linear_at_local l x x' pre pre' ip o :
  (forall k, k < in_features l -> val x (ip ++ [k]) = val x' (ip ++ [k])) ->
  val (Linear_at l x pre) (ip ++ [o]) = val (Linear_at l x' pre') (ip ++ [o]).
Proof.
  intros H. simpl. rewrite unsnoc_app. unfold Linear_row. f_equal.
  apply sum_upto_ext. intros k Hk. now rewrite H.
Qed.

Lemma PatchEmbed_at_local channels ph pw out_dim m pt pt' pre pre' bi k :
  PatchEmbed_built channels ph pw out_dim m ->
  (forall j, j < channels * ph * pw -> val pt [bi; k; j] = val pt' [bi; k; j]) ->
  forall o, o < out_dim ->
    val (PatchEmbed_at m pt pre) [bi; k; o]
    = val (PatchEmbed_at m pt' pre') [bi; k; o].
Proof.
  intros B H o Ho. unfold PatchEmbed_at.
  apply (norm_or_identity_at_local _ out_dim _ _ [bi; k]
           (built_post _ _ _ _ _ B)); [|exact Ho].
  intros o' _.
  apply (Linear_at_local _ _ _ _ _ [bi; k]).
  rewrite (built_proj_in _ _ _ _ _ B).
  apply (norm_or_identity_at_local _ _ _ _ [bi; k] (built_pre _ _ _ _ _ B)).
  exact H.
Qed.

Lemma block_coordinates_unique n a r a' r' :
  r < n -> r' < n -> a * n + r = a' * n + r' -> a = a' /\ r = r'.
Proof.
  intros Hr Hr' E.
  destruct (divmod_mul_add a n r Hr) as [D M].
  destruct (divmod_mul_add a' n r' Hr') as [D' M'].
  rewrite E in D, M. split; congruence.
Qed.

(** C2. For an image batch [b, channels, H, W] with H divisible by patch_h
    and W by patch_w, [PatchEmbed.forward] returns (H/patch_h)*(W/patch_w)
    positions per image; position (hi, wi) is computed from the
    channels * patch_h * patch_w values of the pixel block with rows
    hi*patch_h .. hi*patch_h + patch_h - 1 and columns
    wi*patch_w .. wi*patch_w + patch_w - 1, and from nothing else;
    distinct positions read disjoint blocks. *)
Theorem PatchEmbed_positions :
  forall channels ps out_dim wb pre post src m src' ph pw x b H W,
    PatchEmbed_init channels ps out_dim wb pre post src = Ok (m, src') ->
    patch_dims ps = (ph, pw) ->
    shape x = [b; channels; H; W] ->
    ph <> 0 -> pw <> 0 -> H mod ph = 0 -> W mod pw = 0 ->
    let pt := patches_at x b channels (H / ph) (W / pw) ph pw in
    let y := PatchEmbed_at m pt [b; H / ph * (W / pw)] in
    (forall g, PatchEmbed_forward m x g = Ok (y, g)) /\
    shape y = [b; (H / ph) * (W / pw); out_dim] /\
    rearrange_patches x (patch_height m) (patch_width m) = Ok pt /\
    shape pt = [b; (H / ph) * (W / pw); channels * ph * pw] /\
    (forall bi hi wi i1 i2 ci,
        hi < H / ph -> wi < W / pw -> i1 < ph -> i2 < pw -> ci < channels ->
        val pt [bi; hi * (W / pw) + wi; (i1 * pw + i2) * channels + ci]
        = val x [bi; ci; hi * ph + i1; wi * pw + i2]) /\
    (forall hi wi i1 i2 hi' wi' i1' i2',
        i1 < ph -> i2 < pw -> i1' < ph -> i2' < pw ->
        hi * ph + i1 = hi' * ph + i1' -> wi * pw + i2 = wi' * pw + i2' ->
        hi = hi' /\ wi = wi') /\
    (forall x' bi k,
        let pt' := patches_at x' b channels (H / ph) (W / pw) ph pw in
        (forall j, j < channels * ph * pw ->
                   val pt [bi; k; j] = val pt' [bi; k; j]) ->
        forall o, o < out_dim ->
          val y [bi; k; o]
          = val (PatchEmbed_at m pt' [b; H / ph * (W / pw)]) [bi; k; o]).
Proof.
  intros channels ps out_dim wb pre post src m src' ph pw x b H W
    Hinit Hps Hx H1 H2 D1 D2 pt y.
  pose proof (PatchEmbed_init_built _ _ _ _ _ _ _ _ _ Hinit) as B.
  rewrite Hps in B. simpl in B.
  split; [|split; [|split; [|split; [|split; [|split]]]]].
  - intros g. now apply (PatchEmbed_forward_ok channels ph pw out_dim).
  - exact (PatchEmbed_at_shape channels ph pw out_dim m pt
             [b; H / ph * (W / pw)] B).
  - rewrite (built_ph _ _ _ _ _ B), (built_pw _ _ _ _ _ B).
    now apply rearrange_patches_ok.
  - simpl. do 3 f_equal. lia.
  - intros bi hi wi i1 i2 ci _ Hwi _ Hi2 Hci. now apply patches_at_val.
  - intros hi wi i1 i2 hi' wi' i1' i2' Hi1 Hi2 Hi1' Hi2' Er Ec.
    destruct (block_coordinates_unique ph hi i1 hi' i1' Hi1 Hi1' Er).
    destruct (block_coordinates_unique pw wi i2 wi' i2' Hi2 Hi2' Ec).
    now split.
  - intros x' bi k pt' Hagree o Ho.
    now apply (PatchEmbed_at_local channels ph pw out_dim).
Qed.

(* ================================================================= *)
(** ** VIT *)

Lemma VIT_init_built a src m src' :
  VIT_init a src = Ok (m, src') -> VIT_built a m.
Proof.
  unfold VIT_init. intros H.
  inv_bind H. inv_bind H. inv_bind H. inv_bind H. inv_bind H. inv_bind H.
  inv_ret H.
  apply PatchEmbed_init_built in E. simpl in E.
  apply lift_inv in E0 as [E0 ->]. unfold floordiv in E0.
  destruct (Nat.eqb_spec (patch_size a) 0) as [Z|NZ]; [discriminate|].
  inversion E0; subst a1.
  unfold sample in E1. inversion E1; subst.
  apply AttnPooler_init_built in E3.
  apply Linear_init_inv in E4 as [? ?].
  constructor; simpl; eauto.
Qed.

(** *** The positional embedding is added by broadcasting *)

Lemma broadcast_pos b n P d :
  broadcast_shapes [b; n; d] [1; P; d]
  = if broadcastable n P
    then Ok [b; if n =? P then n else if n =? 1 then P else n; d]
    else Raise RuntimeError.
Proof.
  unfold broadcast_shapes, broadcastable. simpl.
  rewrite Nat.eqb_refl.
  destruct (Nat.eqb_spec n P), (Nat.eqb_spec n 1), (Nat.eqb_spec P 1);
    destruct (Nat.eqb_spec b 1); subst; simpl; reflexivity.
Qed.

Lemma add_pos_returns x pos b n P d :
  shape x = [b; n; d] -> shape pos = [P; d] -> broadcastable n P = true ->
  exists n', returns_shape (lift (add x (unsqueeze0 pos))) [b; n'; d].
Proof.
  intros Hx Hp Hb. eexists. unfold add. simpl. rewrite Hx, Hp.
  rewrite broadcast_pos, Hb. apply returns_ret. reflexivity.
Qed.

Lemma add_pos_raises x pos b n P d :
  shape x = [b; n; d] -> shape pos = [P; d] -> broadcastable n P = false ->
  raises (lift (add x (unsqueeze0 pos))) RuntimeError.
Proof.
  intros Hx Hp Hb g. unfold add. simpl. rewrite Hx, Hp.
  now rewrite broadcast_pos, Hb.
Qed.

(** *** From the transformer to the logits *)

Lemma VIT_tail_returns a m h b n :
  VIT_built a m -> arg_heads a <> 0 ->
  shape h = [b; n; head_dim a * arg_heads a] ->
  returns_shape (VIT_tail m h) [b; num_classes a].
Proof.
  intros B Hh Hs. unfold VIT_tail.
  destruct (built_transformer _ _ B) as (s & s' & T).
  eapply returns_bind.
  { eapply Transformer_forward_returns; eauto. }
  intros h1 H1. eapply returns_bind.
  { apply (LayerNorm_returns _ h1 [b; n]).
    now rewrite H1, (built_out_norm _ _ B). }
  intros h2 H2. rewrite H1 in H2. eapply returns_bind.
  { eapply AttnPooler_forward_returns; [apply B|exact H2]. }
  intros h3 H3. eapply returns_bind.
  { apply (Linear_returns _ h3 [b]).
    now rewrite H3, (built_proj_out_in _ _ B). }
  intros h4 H4. apply returns_ret.
  now rewrite H4, (built_proj_out_out _ _ B).
Qed.

Lemma VIT_forward_tail m x g :
  VIT_forward m x g
  = (x <- forward (patch_embed m) x ;;
     h <- lift (add x (unsqueeze0 (pos_embs m))) ;;
     VIT_tail m h) g.
Proof. reflexivity. Qed.

Lemma PatchEmbed_forward_returns channels ph pw out_dim m x b H W :
  PatchEmbed_built channels ph pw out_dim m ->
  shape x = [b; channels; H; W] -> ph <> 0 -> pw <> 0 ->
  H mod ph = 0 -> W mod pw = 0 ->
  returns_shape (forward m x) [b; H / ph * (W / pw); out_dim].
Proof.
  intros B Hx H1 H2 D1 D2 g. unfold forward, PatchEmbed_Module.
  rewrite (PatchEmbed_forward_ok channels ph pw out_dim m x b H W g) by assumption.
  eexists _, _. split; [reflexivity|].
  exact (PatchEmbed_at_shape channels ph pw out_dim m _ [b; H / ph * (W / pw)] B).
Qed.

Lemma PatchEmbed_forward_indivisible channels ph pw out_dim m x b c H W :
  PatchEmbed_built channels ph pw out_dim m ->
  shape x = [b; c; H; W] -> ph <> 0 -> pw <> 0 ->
  H mod ph <> 0 \/ W mod pw <> 0 ->
  raises (forward m x) EinopsError.
Proof.
  intros B Hx H1 H2 D g. unfold forward, PatchEmbed_Module, PatchEmbed_forward.
  rewrite (built_ph _ _ _ _ _ B), (built_pw _ _ _ _ _ B).
  apply bind_Raise. unfold lift.
  now rewrite (rearrange_patches_indivisible x b c H W).
Qed.

Lemma PatchEmbed_forward_channels channels ph pw out_dim m x b c H W :
  PatchEmbed_built channels ph pw out_dim m ->
  shape x = [b; c; H; W] -> ph <> 0 -> pw <> 0 ->
  H mod ph = 0 -> W mod pw = 0 -> c <> channels ->
  raises (forward m x) RuntimeError.
Proof.
  intros B Hx H1 H2 D1 D2 Hc g.
  unfold forward, PatchEmbed_Module, PatchEmbed_forward.
  rewrite (built_ph _ _ _ _ _ B), (built_pw _ _ _ _ _ B).
  unfold bind at 1.
  rewrite (rearrange_patches_ok x b c H W) by assumption. simpl lift.
  cbv iota beta.
  set (pt := patches_at x b c (H / ph) (W / pw) ph pw).
  assert (Hpt : shape pt = [b; H / ph * (W / pw)] ++ [ph * pw * c])
    by reflexivity.
  assert (Hne : ph * pw * c <> channels * ph * pw).
  { intros E. apply Hc.
    apply (Nat.mul_cancel_l c channels (ph * pw)); lia. }
  unfold bind at 1.
  destruct (norm_or_identity_mismatch _ _ _ _ _ g (built_pre _ _ _ _ _ B) Hpt Hne)
    as [E|E]; rewrite E; [|reflexivity].
  apply bind_Raise. unfold forward, Linear_Module, lift.
  rewrite (Linear_apply_mismatch _ _ _ _ Hpt); [reflexivity|].
  now rewrite (built_proj_in _ _ _ _ _ B).
Qed.

(** When [VIT.forward] returns and when it raises, for an input
    [b, c, H, W]. *)
Lemma VIT_forward_cases a m x b c H W :
  VIT_built a m -> arg_heads a <> 0 ->
  shape x = [b; c; H; W] ->
  let p := patch_size a in
  let n := H / p * (W / p) in
  let P := (image_size a / p) ^ 2 in
  (H mod p = 0 -> W mod p = 0 -> c = 3 -> broadcastable n P = true ->
   returns_shape (VIT_forward m x) [b; num_classes a]) /\
  (H mod p <> 0 \/ W mod p <> 0 -> raises (VIT_forward m x) EinopsError) /\
  (H mod p = 0 -> W mod p = 0 -> c <> 3 ->
   raises (VIT_forward m x) RuntimeError) /\
  (H mod p = 0 -> W mod p = 0 -> c = 3 -> broadcastable n P = false ->
   raises (VIT_forward m x) RuntimeError).
Proof.
  intros B Hh Hx p n P.
  pose proof (built_patch_embed _ _ B) as Bpe.
  pose proof (built_patch_size _ _ B) as Hp.
  split; [|split; [|split]].
  - intros D1 D2 -> Hb g. rewrite VIT_forward_tail. revert g.
    eapply returns_bind.
    { eapply PatchEmbed_forward_returns; eauto. }
    intros y Hy.
    destruct (add_pos_returns y (pos_embs m) _ _ _ _ Hy (built_pos_embs _ _ B) Hb)
      as [n' Hadd].
    eapply returns_bind; [exact Hadd|].
    intros h Hs. eapply VIT_tail_returns; eauto.
  - intros D g. rewrite VIT_forward_tail. revert g.
    apply raises_bind_l.
    eapply PatchEmbed_forward_indivisible; eauto.
  - intros D1 D2 Hc g. rewrite VIT_forward_tail. revert g.
    apply raises_bind_l.
    eapply PatchEmbed_forward_channels; eauto.
  - intros D1 D2 -> Hb g. rewrite VIT_forward_tail. revert g.
    eapply raises_bind_r.
    { eapply PatchEmbed_forward_returns; eauto. }
    intros y Hy. apply raises_bind_l.
    eapply add_pos_raises; eauto. apply B.
Qed.

Lemma broadcast_index_in_range b n d bi k j :
  bi < b -> k < n -> j < d ->
  broadcast_index [b; n; d] [bi; k; j] = [bi; k; j].
Proof.
  intros Hb Hn Hd. unfold broadcast_index. simpl.
  destruct (Nat.eqb_spec b 1), (Nat.eqb_spec n 1), (Nat.eqb_spec d 1);
    repeat f_equal; lia.
Qed.

(** Adding the table [n, d] to a batch [b, n, d] adds the same row
    [pos[k]] at position k of every batch element. *)
Lemma add_pos_val x pos b n d bi k j :
  shape x = [b; n; d] -> shape pos = [n; d] ->
  bi < b -> k < n -> j < d ->
  val (add_at x (unsqueeze0 pos) [b; n; d]) [bi; k; j]
  = (val x [bi; k; j] + val pos [k; j])%R.
Proof.
  intros Hx Hp Hb Hn Hd. unfold add_at. cbn [val].
  rewrite Hx, broadcast_index_in_range by assumption.
  cbn [shape unsqueeze0]. rewrite Hp.
  unfold broadcast_index. simpl.
  destruct (Nat.eqb_spec n 1), (Nat.eqb_spec d 1);
    repeat f_equal; lia.
Qed.

(** C3. [VIT.forward] is patch_embed, then the positional embedding added
    to every batch element, then the transformer, the final
    normalization, the pooler and the linear projection to num_classes;
    on a valid image batch of b images it returns a tensor of shape
    [b, num_classes]. *)
Theorem VIT_forward_composition :
  forall a src m src',
    VIT_init a src = Ok (m, src') ->
    arg_heads a <> 0 ->
    (forall x g,
        VIT_forward m x g
        = (x1 <- forward (patch_embed m) x ;;
           h0 <- lift (add x1 (unsqueeze0 (pos_embs m))) ;;
           h1 <- forward (transformer m) h0 ;;
           h2 <- forward (out_norm m) h1 ;;
           h3 <- forward (pooler m) h2 ;;
           forward (proj_out m) h3) g) /\
    (forall x1 b n,
        shape x1 = [b; n; head_dim a * arg_heads a] ->
        n = (image_size a / patch_size a) ^ 2 ->
        let h0 := add_at x1 (unsqueeze0 (pos_embs m))
                         [b; n; head_dim a * arg_heads a] in
        add x1 (unsqueeze0 (pos_embs m)) = Ok h0 /\
        forall bi k j,
          bi < b -> k < n -> j < head_dim a * arg_heads a ->
          val h0 [bi; k; j] = (val x1 [bi; k; j] + val (pos_embs m) [k; j])%R) /\
    (forall x b H W,
        shape x = [b; 3; H; W] ->
        H mod patch_size a = 0 -> W mod patch_size a = 0 ->
        H / patch_size a * (W / patch_size a)
        = (image_size a / patch_size a) ^ 2 ->
        returns_shape (VIT_forward m x) [b; num_classes a]).
Proof.
  intros a src m src' Hinit Hh.
  pose proof (VIT_init_built _ _ _ _ Hinit) as B.
  split; [|split].
  - intros x g. unfold VIT_forward.
    repeat (apply bind_ext; intros ? ?).
    unfold bind, ret. now destruct (forward (proj_out m) _ _) as [[? ?]|?].
  - intros x1 b n Hx1 Hn h0. split.
    + unfold add. cbn [shape unsqueeze0].
      rewrite Hx1, (built_pos_embs _ _ B), <- Hn.
      rewrite broadcast_pos. unfold broadcastable.
      now rewrite Nat.eqb_refl.
    + intros bi k j Hb Hk Hj. apply add_pos_val; auto.
      rewrite (built_pos_embs _ _ B). now rewrite Hn.
  - intros x b H W Hx D1 D2 Hn.
    apply (VIT_forward_cases a m x b 3 H W B Hh Hx); auto.
    rewrite Hn. unfold broadcastable. now rewrite Nat.eqb_refl.
Qed.

Lemma broadcastable_false n P :
  broadcastable n P = false <-> (n <> P /\ n <> 1 /\ P <> 1).
Proof.
  unfold broadcastable.
  destruct (Nat.eqb_spec n P), (Nat.eqb_spec n 1), (Nat.eqb_spec P 1);
    simpl; split; intros; try discriminate; try tauto; intuition congruence.
Qed.

(** C7 (as amended). For a model built with at least one head and an input
    [b, c, H, W], [VIT.forward] raises exactly when H is not divisible by
    the patch size, or W is not, or c is not 3, or the number of patches
    and the first dimension of the positional-embedding table differ and
    neither of them is 1; what it raises is a shape error, returned by
    that very call. *)
Theorem VIT_forward_raises_iff :
  forall a src m src' x b c H W g,
    VIT_init a src = Ok (m, src') ->
    arg_heads a <> 0 ->
    shape x = [b; c; H; W] ->
    let p := patch_size a in
    let n := H / p * (W / p) in
    let P := (image_size a / p) ^ 2 in
    (is_ok (VIT_forward m x g) = false
     <-> (H mod p <> 0 \/ W mod p <> 0 \/ c <> 3
          \/ (n <> P /\ n <> 1 /\ P <> 1))) /\
    (is_ok (VIT_forward m x g) = false ->
     raises_ShapeError (VIT_forward m x g) = true).
Proof.
  intros a src m src' x b c H W g Hinit Hh Hx p n P.
  pose proof (VIT_init_built _ _ _ _ Hinit) as B.
  destruct (VIT_forward_cases a m x b c H W B Hh Hx) as (Cok & Cdiv & Cch & Cbr).
  fold p in Cok, Cdiv, Cch, Cbr. fold n in Cok, Cbr. fold P in Cok, Cbr.
  destruct (Nat.eq_dec (H mod p) 0) as [D1|D1].
  2:{ rewrite (Cdiv (or_introl D1) g). simpl. split; [|reflexivity].
      split; auto. }
  destruct (Nat.eq_dec (W mod p) 0) as [D2|D2].
  2:{ rewrite (Cdiv (or_intror D2) g). simpl. split; [|reflexivity].
      split; auto. }
  destruct (Nat.eq_dec c 3) as [E|E].
  2:{ rewrite (Cch D1 D2 E g). simpl. split; [|reflexivity].
      split; auto. }
  destruct (broadcastable n P) eqn:Hb.
  - destruct (Cok D1 D2 E eq_refl g) as (y & g' & -> & _). simpl.
    split; [|discriminate]. split; [discriminate|].
    intros [F|[F|[F|F]]]; try contradiction.
    apply broadcastable_false in F. congruence.
  - rewrite (Cbr D1 D2 E eq_refl g). simpl. split; [|reflexivity].
    split; auto. intros _. do 3 right. now apply broadcastable_false.
Qed.

(* ================================================================= *)
(** ** Constructor arguments that are not used *)

(** C10. Whatever [in_channels] and [emb_dropout] are, with the other
    arguments and the initial parameter values fixed, [VIT.__init__]
    builds the same model (or raises the same error), so the forward
    functions agree; the patch projection always takes
    3 * patch_size * patch_size inputs. *)
Theorem VIT_ignores_in_channels_and_emb_dropout :
  forall a ic ed ic' ed' src,
    VIT_init (with_unused a ic ed) src = VIT_init (with_unused a ic' ed') src /\
    match VIT_init (with_unused a ic ed) src,
          VIT_init (with_unused a ic' ed') src with
    | Ok (m, _), Ok (m', _) =>
        (forall x g, VIT_forward m x g = VIT_forward m' x g) /\
        in_features (proj (patch_embed m)) = 3 * patch_size a * patch_size a /\
        in_features (proj (patch_embed m')) = 3 * patch_size a * patch_size a
    | Raise e, Raise e' => e = e'
    | _, _ => False
    end.
Proof.
  intros a ic ed ic' ed' src.
  assert (E : VIT_init (with_unused a ic ed) src
              = VIT_init (with_unused a ic' ed') src) by reflexivity.
  split; [exact E|]. rewrite <- E.
  destruct (VIT_init (with_unused a ic ed) src) as [[m s]|e] eqn:Hinit;
    [|reflexivity].
  pose proof (VIT_init_built _ _ _ _ Hinit) as B.
  pose proof (built_proj_in _ _ _ _ _ (built_patch_embed _ _ B)) as Hin.
  simpl in Hin. auto.
Qed.

(* ================================================================= *)
(** ** The script: sharding calls and output *)

Lemma print_if_master_nil rank msg : print_if_master rank msg = [].
Proof. unfold print_if_master, debug. now rewrite andb_false_r. Qed.

Lemma shard_calls_app t u : shard_calls (t ++ u) = shard_calls t ++ shard_calls u.
Proof. unfold shard_calls. apply flat_map_app. Qed.

Lemma shard_calls_flat_map_nil {A} (f : A -> list Event) l :
  (forall a, shard_calls (f a) = []) -> shard_calls (flat_map f l) = [].
Proof.
  intros H. induction l as [|a l IH]; simpl; [reflexivity|].
  now rewrite shard_calls_app, H, IH.
Qed.

Lemma shard_calls_flat_map_one {A} (mk : A -> ShardTarget) rank msg l :
  shard_calls (flat_map (fun a => print_if_master rank msg
                                  ++ [EvFullyShard (mk a) fsdp_config]) l)
  = map (fun a => (mk a, fsdp_config)) l.
Proof.
  induction l as [|a l IH]; simpl; [reflexivity|].
  rewrite !shard_calls_app, IH, print_if_master_nil. reflexivity.
Qed.

Lemma shard_calls_load_datasets rank : shard_calls (load_datasets rank) = [].
Proof. unfold load_datasets. now destruct (rank =? 0). Qed.

Lemma shard_calls_train_batch rank epoch i :
  shard_calls (train_batch rank epoch i) = [].
Proof.
  unfold train_batch. rewrite !print_if_master_nil.
  generalize (i mod 2000 =? 1999). intros [|]; destruct (rank =? 0); reflexivity.
Qed.

Lemma shard_calls_train rank batches : shard_calls (train rank batches) = [].
Proof.
  unfold train. rewrite !shard_calls_app.
  rewrite shard_calls_flat_map_nil.
  - now destruct (rank =? 0).
  - intros epoch. apply shard_calls_flat_map_nil. intros i.
    apply shard_calls_train_batch.
Qed.

(** C8. The calls of [fully_shard] made by the script are, in this order:
    one for each attention block, one for each feed-forward block, and the
    one for the whole model last; every call passes
    reshard_after_forward=True. *)
Theorem fully_shard_order :
  forall rank batches m,
    shard_calls (script rank batches m)
    = map (fun a => (ShardAttention a, fsdp_config)) (attentions (transformer m))
      ++ map (fun f => (ShardFFN f, fsdp_config)) (ffns (transformer m))
      ++ [(ShardModel m, fsdp_config)]
    /\ Forall (fun call => reshard_after_forward (snd call) = true)
              (shard_calls (script rank batches m)).
Proof.
  intros rank batches m.
  assert (E : shard_calls (script rank batches m)
              = map (fun a => (ShardAttention a, fsdp_config))
                    (attentions (transformer m))
                ++ map (fun f => (ShardFFN f, fsdp_config)) (ffns (transformer m))
                ++ [(ShardModel m, fsdp_config)]).
  { unfold script, shard_model. rewrite !shard_calls_app.
    rewrite shard_calls_load_datasets, shard_calls_train.
    rewrite (shard_calls_flat_map_one ShardAttention).
    rewrite (shard_calls_flat_map_one ShardFFN).
    rewrite print_if_master_nil. simpl. now rewrite app_nil_r. }
  split; [exact E|]. rewrite E.
  rewrite !Forall_app. repeat split.
  - apply Forall_forall. intros c Hc. apply in_map_iff in Hc as (a & <- & _).
    reflexivity.
  - apply Forall_forall. intros c Hc. apply in_map_iff in Hc as (a & <- & _).
    reflexivity.
  - repeat constructor.
Qed.

Lemma output_flat_map_nil {A} (f : A -> list Event) l :
  (forall a, filter is_output (f a) = []) ->
  filter is_output (flat_map f l) = [].
Proof.
  intros H. induction l as [|a l IH]; simpl; [reflexivity|].
  now rewrite filter_app, H, IH.
Qed.

Lemma output_shard_model rank m : filter is_output (shard_model rank m) = [].
Proof.
  unfold shard_model. rewrite !filter_app.
  rewrite !output_flat_map_nil.
  - now rewrite print_if_master_nil.
  - intros a. now rewrite print_if_master_nil.
  - intros a. now rewrite print_if_master_nil.
Qed.

Lemma output_load_datasets rank : filter is_output (load_datasets rank) = [].
Proof. unfold load_datasets. now destruct (rank =? 0). Qed.

(** Before the first barrier only rank 0 touches the dataset. *)
Lemma dataset_before_barrier rank :
  exists rest,
    load_datasets rank
    = (if rank =? 0 then [EvDataset true] else []) ++ EvBarrier :: rest.
Proof. unfold load_datasets. eexists. reflexivity. Qed.

(** The progress bar is drawn by rank 0 only, and the debugging prints of
    [print_if_master] by nobody while [debug] is False. *)
Lemma progress_only_rank0 rank batches m :
  rank <> 0 -> ~ In EvProgress (script rank batches m).
Proof.
  intros Hr. apply Nat.eqb_neq in Hr.
  assert (Hb : forall epoch i, ~ In EvProgress (train_batch rank epoch i)).
  { intros epoch i. unfold train_batch. rewrite !print_if_master_nil, Hr.
    generalize (i mod 2000 =? 1999). intros [|]; simpl; intuition discriminate. }
  unfold script, train. rewrite !in_app_iff. intros [H|[H|[H|[H|H]]]].
  - unfold load_datasets in H. rewrite Hr in H. simpl in H.
    intuition discriminate.
  - unfold shard_model in H. rewrite !in_app_iff, !in_flat_map in H.
    rewrite print_if_master_nil in H.
    destruct H as [(a & _ & H)|[(a & _ & H)|[H|H]]];
      try rewrite print_if_master_nil in H; simpl in H; intuition discriminate.
  - rewrite Hr in H. exact H.
  - apply in_flat_map in H as (epoch & _ & H).
    apply in_flat_map in H as (i & _ & H). exact (Hb epoch i H).
  - simpl in H. intuition discriminate.
Qed.

Lemma train_batch_loss_line rank epoch i :
  (i mod 2000 =? 1999) = true ->
  In (EvPrintLoss (epoch + 1) (i + 1)) (train_batch rank epoch i).
Proof.
  intros H. unfold train_batch. rewrite H, !in_app_iff.
  do 5 right. left. left. reflexivity.
Qed.

(** The loss line of line 270 is printed by every rank that reaches
    mini-batch 1999. *)
Lemma loss_line_every_rank rank batches m :
  2000 <= batches -> In (EvPrintLoss 1 2000) (script rank batches m).
Proof.
  intros Hb.
  assert (Hi : In 1999 (seq 0 batches)) by (apply in_seq; lia).
  assert (Hl : In (EvPrintLoss 1 2000) (train_batch rank 0 1999)).
  { apply (train_batch_loss_line rank 0 1999). vm_compute. reflexivity. }
  generalize dependent 1999. intros i Hi Hl.
  unfold script, train. rewrite !in_app_iff.
  right. right. right. left.
  apply in_flat_map. exists 0. split; [simpl; auto|].
  apply in_flat_map. exists i. split; assumption.
Qed.

(** C9 (evaluation at rank 1). With the 98 mini-batches per epoch of the
    CIFAR-10 training set at batch size 512, the worker of rank 1 writes
    one line to standard output: the unguarded
    [print('Finished Training')] of line 276. *)
Theorem rank1_writes_finished_training :
  forall m, filter is_output (script 1 98 m) = [EvPrint "Finished Training"].
Proof.
  intros m. unfold script. rewrite !filter_app.
  rewrite output_load_datasets, output_shard_model.
  vm_compute. reflexivity.
Qed.

(* ================================================================= *)
(** ** The statements at concrete inputs *)

Lemma Transformer_forward_runs_blocks_witness :
  exists m src',
    Transformer_init 4 2 2 2 16 (1 # 10)%Q zero_src = Ok (m, src') /\
    List.length (attentions m) = 2 /\
    List.length (ffns m) = 2 /\
    (forall x g,
        Transformer_forward m x g
        = blocks (combine (attentions m) (ffns m)) x g).
Proof.
  eexists. eexists. split; [reflexivity|].
  pose proof (Transformer_forward_runs_blocks 4 2 2 2 16 (1 # 10)%Q zero_src
                _ _ eq_refl) as (A & B & C & _).
  exact (conj A (conj B C)).
Defined.

(** Scenario A: 32 x 32 images, patch size 4, 3 channels. *)
Lemma PatchEmbed_positions_witness :
  exists m src',
    PatchEmbed_init 3 (PatchInt 4) 512 true false true zero_src = Ok (m, src') /\
    let x := zeros [512; 3; 32; 32] in
    let pt := patches_at x 512 3 8 8 4 4 in
    let y := PatchEmbed_at m pt [512; 64] in
    (forall g, PatchEmbed_forward m x g = Ok (y, g)) /\
    shape y = [512; 64; 512] /\
    shape pt = [512; 64; 48].
Proof.
  eexists. eexists. split; [cbv [PatchEmbed_init patch_dims]; reflexivity|].
  pose proof (PatchEmbed_positions 3 (PatchInt 4) 512 true false true zero_src
                _ _ 4 4 (zeros [512; 3; 32; 32]) 512 32 32
                eq_refl eq_refl eq_refl
                (fun E : 4 = 0 => O_S 3 (eq_sym E))
                (fun E : 4 = 0 => O_S 3 (eq_sym E))
                eq_refl eq_refl) as (A & B & _ & D & _).
  exact (conj A (conj B D)).
Defined.

(** Scenario C: the default model on a batch of 512 images. *)
Lemma VIT_forward_composition_witness :
  exists m src',
    VIT_init VIT_defaults zero_src = Ok (m, src') /\
    returns_shape (VIT_forward m (zeros [512; 3; 32; 32])) [512; 10].
Proof.
  eexists. eexists.
  split; [cbv [VIT_init PatchEmbed_init patch_dims]; reflexivity|].
  pose proof (VIT_forward_composition VIT_defaults zero_src _ _ eq_refl
                (fun E : 8 = 0 => O_S 7 (eq_sym E))) as (_ & _ & C).
  exact (C (zeros [512; 3; 32; 32]) 512 32 32 eq_refl eq_refl eq_refl eq_refl).
Defined.

(** One head as wide as the model: no output projection.  Two heads of
    width 4 in a model of width 4, without dropout: the merged heads of
    width 8 are projected to width 4. *)
Lemma Attention_output_projection_witness :
  (exists m src',
      Attention_init 4 1 4 (1 # 10)%Q zero_src = Ok (m, src') /\
      to_out m = LIdentity /\
      forall g, Attention_forward m (zeros [1; 3; 4]) g
                = Ok (attention_merged m (zeros [1; 3; 4]) 1 3 4, g)) /\
  (exists m src' l d,
      Attention_init 4 2 4 0%Q zero_src = Ok (m, src') /\
      to_out m = LSequential [LLinear l; LDropout d] /\
      shape (attention_merged m (zeros [1; 3; 4]) 1 3 4) = [1; 3; 8] /\
      shape (Linear_at l (attention_merged m (zeros [1; 3; 4]) 1 3 4) [1; 3])
      = [1; 3; 4] /\
      forall g, Attention_forward m (zeros [1; 3; 4]) g
                = Ok (Linear_at l (attention_merged m (zeros [1; 3; 4]) 1 3 4)
                                [1; 3], g)).
Proof.
  split.
  - eexists. eexists. split; [reflexivity|].
    pose proof (Attention_output_projection 4 1 4 (1 # 10)%Q zero_src _ _ eq_refl)
      as ((_ & A) & _ & C).
    destruct (C (zeros [1; 3; 4]) 1 3 (fun E : 1 = 0 => O_S 0 (eq_sym E)) eq_refl)
      as (_ & _ & I & _).
    exact (conj (A (conj eq_refl eq_refl)) (I (conj eq_refl eq_refl))).
  - eexists. eexists.
    match goal with
    | |- exists l d, ?I = _ /\ _ =>
        pose proof (Attention_output_projection 4 2 4 0%Q zero_src _ _
                      (eq_refl : I = _)) as (_ & _ & C)
    end.
    destruct (C (zeros [1; 3; 4]) 1 3 (fun E : 2 = 0 => O_S 1 (eq_sym E)) eq_refl)
      as (S1 & _ & _ & P).
    destruct (P (fun E : 2 = 1 /\ 4 = 4 =>
                   O_S 0 (eq_sym (f_equal Nat.pred (proj1 E)))))
      as (l & d & bs & E & _ & _ & _ & _ & _ & S2 & _ & _ & _ & Z).
    exists l, d. split; [reflexivity|]. split; [exact E|].
    split; [exact S1|]. split; [exact S2|].
    exact (Z eq_refl).
Defined.

Lemma Attention_weights_softmax_witness :
  exists m src' q k v w,
    Attention_init 4 2 2 (1 # 10)%Q zero_src = Ok (m, src') /\
    Attention_qkv m (zeros [1; 3; 4]) = Ok (q, k, v) /\
    Attention_weights m q k = Ok w /\
    shape w = [1; 2; 3; 3] /\
    sum_upto 3 (fun j => val w [0; 1; 2; j]) = 1%R.
Proof.
  eexists. eexists.
  destruct (Attention_weights_softmax 4 2 2 (1 # 10)%Q zero_src _ _
              (zeros [1; 3; 4]) 1 3 eq_refl
              (fun E : 2 = 0 => O_S 1 (eq_sym E)) eq_refl)
    as (q & k & v & w & A & B & _ & D & _ & _ & G).
  exists q, k, v, w. split; [reflexivity|].
  exact (conj A (conj B (conj D (G 0 1 2 (le_n 3))))).
Defined.

Lemma VIT_forward_raises_iff_witness :
  exists m src',
    VIT_init VIT_defaults zero_src = Ok (m, src') /\
    is_ok (VIT_forward m (zeros [2; 3; 32; 30]) keep_all) = false.
Proof.
  eexists. eexists.
  split; [cbv [VIT_init PatchEmbed_init patch_dims]; reflexivity|].
  pose proof (VIT_forward_raises_iff VIT_defaults zero_src _ _
                (zeros [2; 3; 32; 30]) 2 3 32 30 keep_all eq_refl
                (fun E : 8 = 0 => O_S 7 (eq_sym E)) eq_refl) as ((_ & A) & _).
  apply A. right. left. discriminate.
Defined.

(** C7 as stated fails in both directions on the default model: a
    4 x 4 image has one patch although the table has 64 rows, and is
    accepted; a 32 x 32 image with one channel meets none of the three
    stated conditions, and is rejected. *)
Lemma VIT_forward_one_patch_counterexample :
  exists m src',
    VIT_init VIT_defaults zero_src = Ok (m, src') /\
    ~ (is_ok (VIT_forward m (zeros [1; 3; 4; 4]) keep_all) = false
       <-> stated_failure VIT_defaults 4 4) /\
    ~ (is_ok (VIT_forward m (zeros [1; 1; 32; 32]) keep_all) = false
       <-> stated_failure VIT_defaults 32 32).
Proof.
  eexists. eexists.
  split; [cbv [VIT_init PatchEmbed_init patch_dims]; reflexivity|].
  match goal with |- context [VIT_forward ?M _ _] => set (m := M) end.
  assert (Hinit : exists s, VIT_init VIT_defaults zero_src = Ok (m, s))
    by (eexists; cbv [VIT_init PatchEmbed_init patch_dims]; reflexivity).
  destruct Hinit as [s Hinit].
  pose proof (VIT_init_built _ _ _ _ Hinit) as B. clearbody m.
  assert (Hh : arg_heads VIT_defaults <> 0) by discriminate.
  split.
  - intros [_ F].
    destruct (VIT_forward_cases VIT_defaults m (zeros [1; 3; 4; 4]) 1 3 4 4 B
                Hh eq_refl) as (Cok & _).
    destruct (Cok eq_refl eq_refl eq_refl eq_refl keep_all) as (y & g' & E & _).
    rewrite E in F. simpl in F.
    assert (S : stated_failure VIT_defaults 4 4).
    { unfold stated_failure. right. right. vm_compute. discriminate. }
    specialize (F S). discriminate.
  - intros [F _].
    destruct (VIT_forward_cases VIT_defaults m (zeros [1; 1; 32; 32]) 1 1 32 32 B
                Hh eq_refl) as (_ & _ & Cch & _).
    assert (Hc : 1 <> 3) by discriminate.
    rewrite (Cch eq_refl eq_refl Hc keep_all) in F.
    destruct (F eq_refl) as [D|[D|D]]; vm_compute in D; now apply D.
Qed.

(* ================================================================= *)
(** ** The definitions on small inputs *)

Example ex_patches_shape :
  match rearrange_patches (zeros [2; 3; 32; 32]) 4 4 with
  | Ok t => shape t = [2; 64; 48]
  | Raise _ => False
  end.
Proof. reflexivity. Qed.

Example ex_patches_indivisible :
  rearrange_patches (zeros [2; 3; 30; 32]) 4 4 = Raise EinopsError.
Proof. reflexivity. Qed.

Example ex_patches_rank :
  rearrange_patches (zeros [3; 32; 32]) 4 4 = Raise EinopsError.
Proof. reflexivity. Qed.

(** Patch 9 of an 8 x 8 grid is the patch at row 1, column 1; entry 17 of
    its 48 values is channel 2 of the pixel at offset (1, 1). *)
Example ex_patch_entry x :
  val (patches_at x 2 3 8 8 4 4) [1; 9; 17] = val x [1; 2; 5; 5].
Proof. reflexivity. Qed.

Example ex_split_heads_entry x :
  val (split_heads_at x 2 5 8 64) [1; 3; 4; 10] = val x [1; 4; 202].
Proof. reflexivity. Qed.

Example ex_merge_heads_entry x :
  val (merge_heads_at x 2 8 5 64) [1; 4; 202] = val x [1; 3; 4; 10].
Proof. reflexivity. Qed.

Example ex_broadcast_table :
  broadcast_shapes [512; 64; 512] [1; 64; 512] = Ok [512; 64; 512].
Proof. reflexivity. Qed.

Example ex_broadcast_one_patch :
  broadcast_shapes [2; 1; 512] [1; 64; 512] = Ok [2; 64; 512].
Proof. reflexivity. Qed.

Example ex_broadcast_mismatch :
  broadcast_shapes [2; 16; 512] [1; 64; 512] = Raise RuntimeError.
Proof. reflexivity. Qed.

Example ex_chunk_uneven :
  match chunk 3 (zeros [2; 7]) with
  | Ok l => map shape l = [[2; 3]; [2; 3]; [2; 1]]
  | Raise _ => False
  end.
Proof. reflexivity. Qed.

Example ex_chunk_short :
  match chunk 3 (zeros [2; 4]) with
  | Ok l => map shape l = [[2; 2]; [2; 2]]
  | Raise _ => False
  end.
Proof. reflexivity. Qed.

Example ex_squeeze_kept :
  match squeeze1 (zeros [2; 3; 4]) with
  | Ok t => shape t = [2; 3; 4]
  | Raise _ => False
  end.
Proof. reflexivity. Qed.

Example ex_dropout_rate : is_ok (Dropout_init 2 zero_src) = false.
Proof. reflexivity. Qed.

Example ex_head_dim_zero :
  match Attention_init 512 8 0 0 zero_src with
  | Raise e => e = ZeroDivisionError
  | Ok _ => False
  end.
Proof. reflexivity. Qed.

Example ex_patch_size_zero :
  match VIT_init {| num_layers := 1; head_dim := 2; arg_heads := 2;
                    mlp_mult := 4; dropout := 0; emb_dropout := 0;
                    num_classes := 10; in_channels := 3; patch_size := 0;
                    image_size := 32 |} zero_src with
  | Raise e => e = ZeroDivisionError
  | Ok _ => False
  end.
Proof. reflexivity. Qed.

Example ex_load_datasets_rank0 :
  load_datasets 0
  = [EvDataset true; EvBarrier; EvDataset true;
     EvDataset false; EvBarrier; EvDataset false].
Proof. reflexivity. Qed.

Example ex_load_datasets_rank3 :
  load_datasets 3 = [EvBarrier; EvDataset true; EvBarrier; EvDataset false].
Proof. reflexivity. Qed.

(** One mini-batch per epoch: rank 0 draws the bar once when it is made
    and twice per mini-batch, and prints the last line. *)
Example ex_train_rank0 :
  train 0 1
  = [EvProgress; EvProgress; EvProgress; EvProgress; EvProgress;
     EvPrint "Finished Training"].
Proof. vm_compute. reflexivity. Qed.

Example ex_train_rank5 : train 5 1 = [EvPrint "Finished Training"].
Proof. vm_compute. reflexivity. Qed.

(* ================================================================= *)
(** ** Further properties of the script *)

Lemma filter_flat_map_nil {A} (P : Event -> bool) (f : A -> list Event) l :
  (forall a, In a l -> filter P (f a) = []) ->
  filter P (flat_map f l) = [].
Proof.
  induction l as [|a l IH]; intros H; simpl; [reflexivity|].
  rewrite filter_app.
  rewrite H by (left; reflexivity).
  rewrite IH by (intros; apply H; right; assumption).
  reflexivity.
Qed.

Lemma filter_flat_map_length {A} (P : Event -> bool) (f : A -> list Event) c l :
  (forall a, List.length (filter P (f a)) = c) ->
  List.length (filter P (flat_map f l)) = c * List.length l.
Proof.
  intros H. induction l as [|a l IH]; simpl; [lia|].
  rewrite filter_app, length_app, H, IH. lia.
Qed.

Lemma sync_shard_loop {A} (mk : A -> ShardTarget) rank msg l :
  filter is_sync
    (flat_map (fun a => print_if_master rank msg
                        ++ [EvFullyShard (mk a) fsdp_config]) l)
  = map (fun a => EvFullyShard (mk a) fsdp_config) l.
Proof.
  induction l as [|a l IH]; simpl; [reflexivity|].
  rewrite filter_app, IH, print_if_master_nil. reflexivity.
Qed.

Lemma train_batch_filter P rank epoch i :
  filter P (train_batch rank epoch i)
  = filter P (if i mod 2000 =? 1999 then [EvPrintLoss (epoch + 1) (i + 1)] else [])
    ++ filter P (pbar_draw (negb (rank =? 0)))
    ++ filter P (pbar_draw (negb (rank =? 0))).
Proof.
  unfold train_batch. rewrite !print_if_master_nil.
  match goal with
  | |- context [if ?c then ?a else ?b] => generalize (if c then a else b)
  end.
  intros l. simpl app. now rewrite !filter_app.
Qed.

(** Every worker passes the same meeting points in the same order, whatever
    its rank: the two barriers of the dataset set-up, then the sharding
    calls.  No rank-dependent branch contains one. *)
Theorem script_sync_points_rank_independent :
  forall rank batches m,
    filter is_sync (script rank batches m)
    = [EvBarrier; EvBarrier]
      ++ map (fun a => EvFullyShard (ShardAttention a) fsdp_config)
             (attentions (transformer m))
      ++ map (fun f => EvFullyShard (ShardFFN f) fsdp_config)
             (ffns (transformer m))
      ++ [EvFullyShard (ShardModel m) fsdp_config].
Proof.
  intros rank batches m. unfold script. rewrite !filter_app.
  assert (L : filter is_sync (load_datasets rank) = [EvBarrier; EvBarrier])
    by (unfold load_datasets; now destruct (rank =? 0)).
  assert (T : filter is_sync (train rank batches) = []).
  { unfold train. rewrite !filter_app.
    rewrite filter_flat_map_nil.
    - now destruct (rank =? 0).
    - intros epoch _. apply filter_flat_map_nil. intros i _.
      rewrite train_batch_filter.
      generalize (i mod 2000 =? 1999). intros [|]; now destruct (rank =? 0). }
  rewrite L, T, app_nil_r. f_equal.
  unfold shard_model. rewrite !filter_app.
  rewrite (sync_shard_loop ShardAttention), (sync_shard_loop ShardFFN).
  now rewrite print_if_master_nil.
Qed.

(** The progress bar is drawn by rank 0 only: once when it is made and
    twice in each of the 2 * batches mini-batch steps. *)
Theorem progress_draw_count :
  forall rank batches m,
    List.length (filter is_progress (script rank batches m))
    = if rank =? 0 then 1 + 4 * batches else 0.
Proof.
  intros rank batches m. unfold script. rewrite !filter_app, !length_app.
  assert (L : filter is_progress (load_datasets rank) = [])
    by (unfold load_datasets; now destruct (rank =? 0)).
  assert (S : filter is_progress (shard_model rank m) = []).
  { unfold shard_model. rewrite !filter_app.
    rewrite !filter_flat_map_nil.
    - now rewrite print_if_master_nil.
    - intros a _. now rewrite print_if_master_nil.
    - intros a _. now rewrite print_if_master_nil. }
  rewrite L, S. simpl List.length. unfold train.
  rewrite !filter_app, !length_app.
  rewrite (filter_flat_map_length is_progress _
             ((if rank =? 0 then 2 else 0) * batches)).
  - rewrite length_seq. destruct (rank =? 0); simpl; lia.
  - intros epoch.
    rewrite (filter_flat_map_length is_progress _ (if rank =? 0 then 2 else 0)).
    + now rewrite length_seq.
    + intros i. rewrite train_batch_filter.
      generalize (i mod 2000 =? 1999). intros [|]; now destruct (rank =? 0).
Qed.

(** With fewer than 2000 mini-batches per epoch the condition
    [i % 2000 == 1999] never holds: no rank ever prints a loss line, and a
    worker of rank other than 0 writes nothing but the last line. *)
Theorem short_epochs_print_no_loss :
  forall rank batches m,
    batches < 2000 ->
    filter is_loss_line (script rank batches m) = [] /\
    (rank <> 0 ->
     filter is_output (script rank batches m) = [EvPrint "Finished Training"]).
Proof.
  intros rank batches m Hb.
  assert (Hi : forall i, In i (seq 0 batches) -> (i mod 2000 =? 1999) = false).
  { intros i Hin. apply in_seq in Hin.
    rewrite Nat.mod_small by lia. apply Nat.eqb_neq. lia. }
  split.
  - unfold script. rewrite !filter_app.
    assert (L : filter is_loss_line (load_datasets rank) = [])
      by (unfold load_datasets; now destruct (rank =? 0)).
    assert (S : filter is_loss_line (shard_model rank m) = []).
    { unfold shard_model. rewrite !filter_app.
      rewrite !filter_flat_map_nil.
      - now rewrite print_if_master_nil.
      - intros a _. now rewrite print_if_master_nil.
      - intros a _. now rewrite print_if_master_nil. }
    rewrite L, S. unfold train. rewrite !filter_app.
    rewrite filter_flat_map_nil.
    + now destruct (rank =? 0).
    + intros epoch _. apply filter_flat_map_nil. intros i Hin.
      rewrite train_batch_filter, (Hi i Hin). now destruct (rank =? 0).
  - intros Hr. apply Nat.eqb_neq in Hr.
    unfold script. rewrite !filter_app.
    rewrite output_load_datasets, output_shard_model.
    unfold train. rewrite !filter_app, Hr.
    rewrite filter_flat_map_nil; [reflexivity|].
    intros epoch _. apply filter_flat_map_nil. intros i Hin.
    now rewrite train_batch_filter, (Hi i Hin), Hr.
Qed.

(* ================================================================= *)
(** ** Forward passes that draw no dropout mask *)

Lemma pure_bind (c : Fwd Tensor) (k : Tensor -> Fwd Tensor) s s' :
  returns_pure c s ->
  (forall y, shape y = s -> returns_pure (k y) s') ->
  returns_pure (bind c k) s'.
Proof.
  intros (y & Hy & E) Hk. destruct (Hk y Hy) as (z & Hz & E').
  exists z. split; [exact Hz|]. intros g. unfold bind. now rewrite E.
Qed.

Lemma pure_lift (r : Result Tensor) y s :
  r = Ok y -> shape y = s -> returns_pure (lift r) s.
Proof. intros -> Hs. exists y. now split. Qed.

Lemma pure_ret y s : shape y = s -> returns_pure (ret y) s.
Proof. intros Hs. exists y. now split. Qed.

Lemma pure_ext (c c' : Fwd Tensor) s :
  (forall g, c g = c' g) -> returns_pure c' s -> returns_pure c s.
Proof.
  intros H (y & Hy & E). exists y. split; [exact Hy|].
  intros g. now rewrite H.
Qed.

Lemma pure_returns (c : Fwd Tensor) s : returns_pure c s -> returns_shape c s.
Proof. intros (y & Hy & E) g. exists y, g. now split. Qed.

Lemma Linear_pure l x pre :
  shape x = pre ++ [in_features l] ->
  returns_pure (forward l x) (pre ++ [out_features l]).
Proof.
  intros H. eapply pure_lift; [apply Linear_apply_ok, H|reflexivity].
Qed.

Lemma LayerNorm_pure ln x pre :
  shape x = pre ++ [normalized_shape ln] ->
  returns_pure (forward ln x) (shape x).
Proof.
  intros H. eapply pure_lift; [apply (LayerNorm_apply_ok _ _ pre), H|reflexivity].
Qed.

Lemma Dropout_pure (d : Dropout) x :
  Qeq_bool (drop_p d) 0 = true -> returns_pure (forward d x) (shape x).
Proof.
  intros H. exists x. split; [reflexivity|]. intros g.
  unfold forward, Dropout_Module. rewrite H.
  now rewrite orb_true_r.
Qed.

Lemma to_out_pure dim h dh dr m y pre :
  Attention_built dim h dh dr m ->
  Qeq_bool dr 0 = true ->
  shape y = pre ++ [h * dh] ->
  returns_pure (forward (to_out m) y) (pre ++ [dim]).
Proof.
  intros B Hr Hy.
  destruct (built_out _ _ _ _ _ B)
    as [(H1 & H2 & E)|(_ & l & d & E & Hi & Ho & Hd)]; rewrite E.
  - subst. apply pure_ret. rewrite Hy. now rewrite Nat.mul_1_l.
  - simpl. eapply pure_bind.
    + apply (Linear_pure l y pre). now rewrite Hy, Hi, Nat.mul_comm.
    + intros y1 Hy1. eapply pure_bind.
      * apply Dropout_pure. now rewrite Hd.
      * intros y2 Hy2. apply pure_ret. now rewrite Hy2, Hy1, Ho.
Qed.

Lemma Attention_forward_pure dim h dh dr m x b n :
  Attention_built dim h dh dr m -> h <> 0 ->
  Qeq_bool dr 0 = true ->
  shape x = [b; n; dim] ->
  returns_pure (forward m x) [b; n; dim].
Proof.
  intros B Hh Hr Hx.
  apply (pure_ext _ (forward (to_out m) (attention_merged m x b n dh))).
  - intros g. now apply (Attention_forward_to_out dim h dh dr).
  - apply (to_out_pure dim h dh dr m _ [b; n] B Hr).
    simpl. now rewrite (built_heads _ _ _ _ _ B).
Qed.

Lemma FeedForward_init_rates dim hidden dr src m src' :
  FeedForward_init dim hidden dr src = Ok (m, src') ->
  exists l1 d1 l2 d2,
    net m = LSequential [LLinear l1; LGELU; LDropout d1; LLinear l2; LDropout d2]
    /\ in_features l1 = dim /\ out_features l1 = hidden
    /\ in_features l2 = hidden /\ out_features l2 = dim
    /\ drop_p d1 = dr /\ drop_p d2 = dr.
Proof.
  unfold FeedForward_init. intros H.
  inv_bind H. inv_bind H. inv_bind H. inv_bind H. inv_ret H.
  apply Linear_init_inv in E as [? ?]. apply Linear_init_inv in E1 as [? ?].
  apply Dropout_init_inv in E0 as [? ?]. apply Dropout_init_inv in E2 as [? ?].
  simpl. eauto 12.
Qed.

Lemma FeedForward_forward_pure dim hidden dr m x pre :
  FeedForward_rated dim hidden dr m ->
  Qeq_bool dr 0 = true ->
  shape x = pre ++ [dim] ->
  returns_pure (forward m x) (pre ++ [dim]).
Proof.
  intros (l1 & d1 & l2 & d2 & E & I1 & O1 & I2 & O2 & R1 & R2) Hr Hx.
  unfold forward, FeedForward_Module, FeedForward_forward. rewrite E. simpl.
  eapply pure_bind.
  { apply (Linear_pure l1 x pre). now rewrite I1. }
  intros y1 H1. eapply pure_bind.
  { apply pure_ret. reflexivity. }
  intros y2 H2. simpl in H2. eapply pure_bind.
  { apply Dropout_pure. now rewrite R1. }
  intros y3 H3. eapply pure_bind.
  { apply (Linear_pure l2 y3 pre). now rewrite H3, H2, H1, O1, I2. }
  intros y4 H4. eapply pure_bind.
  { apply Dropout_pure. now rewrite R2. }
  intros y5 H5. apply pure_ret. now rewrite H5, H4, O2.
Qed.

Lemma residual_pure f x s :
  shape x = s -> returns_pure (f x) s -> returns_pure (residual f x) s.
Proof.
  intros Hx Hf. unfold residual. eapply pure_bind; [exact Hf|].
  intros y Hy. eapply pure_lift.
  - apply add_same_shape. congruence.
  - simpl. exact Hy.
Qed.

Lemma normalized_pure {F} `{Module F} ln (f : F) x pre s :
  shape x = pre ++ [normalized_shape ln] ->
  (forall h, shape h = shape x -> returns_pure (forward f h) s) ->
  returns_pure (normalized ln f x) s.
Proof.
  intros Hx Hf. unfold normalized. eapply pure_bind.
  - apply (LayerNorm_pure ln x pre Hx).
  - exact Hf.
Qed.

Lemma blocks_pure dim h dh dr mlp b n :
  h <> 0 -> Qeq_bool dr 0 = true ->
  forall atts ffs,
    Forall (attention_block_built dim h dh dr) atts ->
    Forall (fun pn : PreNorm FeedForward =>
              normalized_shape (norm pn) = dim
              /\ FeedForward_rated dim mlp dr (fn pn)) ffs ->
    forall x, shape x = [b; n; dim] ->
              returns_pure (blocks (combine atts ffs) x) [b; n; dim].
Proof.
  intros Hh Hr. induction atts as [|a atts IH]; intros ffs Ha Hf x Hx.
  - now apply pure_ret.
  - destruct ffs as [|f ffs]; [now apply pure_ret|].
    inversion Ha as [|? ? Ha1 Ha']; subst.
    inversion Hf as [|? ? Hf1 Hf']; subst.
    destruct Ha1 as [Na Ba]. destruct Hf1 as [Nf Bf]. simpl.
    eapply pure_bind.
    + unfold block. simpl fst. simpl snd. eapply pure_bind.
      * apply residual_pure; [exact Hx|].
        apply (normalized_pure _ _ _ [b; n]); [now rewrite Hx, Na|].
        intros y Hy. apply (Attention_forward_pure dim h dh dr); auto.
        congruence.
      * intros x1 Hx1. apply residual_pure; [exact Hx1|].
        apply (normalized_pure _ _ _ [b; n]); [now rewrite Hx1, Nf|].
        intros y Hy.
        apply (FeedForward_forward_pure dim mlp dr _ _ [b; n]); auto.
        simpl. congruence.
    + intros x' Hx'. now apply IH.
Qed.

Lemma Transformer_init_rated dim depth h dh mlp dr src m src' :
  Transformer_init dim depth h dh mlp dr src = Ok (m, src') ->
  Forall (fun pn : PreNorm FeedForward =>
            normalized_shape (norm pn) = dim
            /\ FeedForward_rated dim mlp dr (fn pn)) (ffns m).
Proof.
  intros H. unfold Transformer_init in H.
  inv_bind H. inv_bind H. inv_ret H. simpl.
  eapply replicateM_Forall; [|exact E0].
  intros s1 pn s2 Hpn. inv_bind Hpn. inv_ret Hpn.
  split; [reflexivity|]. simpl. eapply FeedForward_init_rates; eauto.
Qed.

Lemma Transformer_forward_pure dim depth h dh mlp dr src m src' x b n :
  Transformer_init dim depth h dh mlp dr src = Ok (m, src') ->
  h <> 0 -> Qeq_bool dr 0 = true ->
  shape x = [b; n; dim] ->
  returns_pure (forward m x) [b; n; dim].
Proof.
  intros H Hh Hr Hx.
  destruct (Transformer_init_lengths _ _ _ _ _ _ _ _ _ H) as [La Lf].
  destruct (Transformer_init_built _ _ _ _ _ _ _ _ _ H) as [Ba _].
  pose proof (Transformer_init_rated _ _ _ _ _ _ _ _ _ H) as Bf.
  apply (pure_ext _ (blocks (combine (attentions m) (ffns m)) x)).
  - intros g. apply Transformer_forward_blocks. congruence.
  - eapply blocks_pure; eauto.
Qed.

(* ================================================================= *)
(** ** AttnPooler *)

Lemma AttnPooler_forward_eq dim m x b n g :
  AttnPooler_built dim m ->
  shape x = [b; n; dim] ->
  AttnPooler_forward m x g = Ok (AttnPooler_at m x b n dim, g).
Proof.
  intros B Hx. unfold AttnPooler_forward.
  assert (Hk : shape x = [b; n] ++ [in_features (to_k m)])
    by (rewrite Hx, (built_k_in _ _ B); reflexivity).
  assert (Hv : shape x = [b; n] ++ [in_features (to_v m)])
    by (rewrite Hx, (built_v_in _ _ B); reflexivity).
  unfold forward, Linear_Module.
  unfold bind at 1. rewrite (Linear_apply_ok _ _ _ Hk). simpl lift. cbv iota beta.
  unfold bind at 1. rewrite (Linear_apply_ok _ _ _ Hv). simpl lift. cbv iota beta.
  unfold bind at 1. unfold shape0. rewrite Hx. simpl lift. cbv iota beta.
  unfold bind at 1. unfold expand0. rewrite (built_q _ _ B). simpl.
  unfold bind.
  rewrite (sdpa_ok _ _ _ b 1 n dim dim).
  - reflexivity.
  - reflexivity.
  - simpl. now rewrite (built_k_out _ _ B).
  - simpl. now rewrite (built_v_out _ _ B).
Qed.

(** [AttnPooler.forward] turns a sequence [b, n, dim] of any length n into
    one vector per batch element, without drawing a dropout mask.  The
    vector is the sum over the positions of weight times value
    projection; with at least one position the weights are positive and
    sum to 1. *)
Theorem AttnPooler_forward_pools :
  forall dim src m src' x b n,
    AttnPooler_init dim src = Ok (m, src') ->
    shape x = [b; n; dim] ->
    exists y,
      (forall g, AttnPooler_forward m x g = Ok (y, g)) /\
      shape y = [b; dim] /\
      (forall bi c,
          val y [bi; c]
          = sum_upto n (fun j => (pool_weight m x b n dim bi j
                                  * val (Linear_at (to_v m) x [b; n]) [bi; j; c])%R)) /\
      (0 < n ->
       forall bi,
         (forall j, (0 < pool_weight m x b n dim bi j)%R) /\
         sum_upto n (fun j => pool_weight m x b n dim bi j) = 1%R).
Proof.
  intros dim src m src' x b n Hinit Hx.
  pose proof (AttnPooler_init_built _ _ _ _ Hinit) as B.
  exists (AttnPooler_at m x b n dim).
  split; [|split; [|split]].
  - intros g. now apply (AttnPooler_forward_eq dim).
  - reflexivity.
  - intros bi c. unfold AttnPooler_at. cbn [val].
    now rewrite sdpa_at_same_batch.
  - intros Hn bi. split.
    + intros j. unfold pool_weight, sdpa_weight.
      apply Rdiv_lt_0_compat; [apply exp_pos|].
      apply sum_upto_pos; [exact Hn|]. intros k. apply exp_pos.
    + unfold pool_weight, sdpa_weight. now apply softmax_row_sum.
Qed.

Lemma AttnPooler_forward_pure dim m x b n :
  AttnPooler_built dim m ->
  shape x = [b; n; dim] ->
  returns_pure (forward m x) [b; dim].
Proof.
  intros B Hx. exists (AttnPooler_at m x b n dim). split; [reflexivity|].
  intros g. now apply (AttnPooler_forward_eq dim).
Qed.

(* ================================================================= *)
(** ** The model without dropout *)

(** With dropout rate 0, [VIT.forward] on a valid image batch returns its
    logits without drawing any dropout mask: the result does not depend on
    the random state, and the random state is left as it was. *)
Theorem VIT_forward_without_dropout :
  forall a src m src' x b H W,
    VIT_init a src = Ok (m, src') ->
    arg_heads a <> 0 ->
    Qeq_bool (dropout a) 0 = true ->
    shape x = [b; 3; H; W] ->
    H mod patch_size a = 0 -> W mod patch_size a = 0 ->
    broadcastable (H / patch_size a * (W / patch_size a))
                  ((image_size a / patch_size a) ^ 2) = true ->
    exists y,
      shape y = [b; num_classes a] /\
      forall g, VIT_forward m x g = Ok (y, g).
Proof.
  intros a src m src' x b H W Hinit Hh Hr Hx D1 D2 Hb.
  pose proof (VIT_init_built _ _ _ _ Hinit) as B.
  pose proof (built_patch_embed _ _ B) as Bpe.
  pose proof (built_patch_size _ _ B) as Hp.
  destruct (built_transformer _ _ B) as (s & s' & T).
  change (returns_pure (VIT_forward m x) [b; num_classes a]).
  apply (pure_ext _ (x1 <- forward (patch_embed m) x ;;
                     h <- lift (add x1 (unsqueeze0 (pos_embs m))) ;;
                     VIT_tail m h)); [intros g; apply VIT_forward_tail|].
  eapply pure_bind.
  { exists (PatchEmbed_at (patch_embed m)
              (patches_at x b 3 (H / patch_size a) (W / patch_size a)
                          (patch_size a) (patch_size a))
              [b; H / patch_size a * (W / patch_size a)]).
    split.
    - exact (PatchEmbed_at_shape 3 (patch_size a) (patch_size a) _ _ _
               [b; H / patch_size a * (W / patch_size a)] Bpe).
    - intros g.
      exact (PatchEmbed_forward_ok 3 (patch_size a) (patch_size a)
               (head_dim a * arg_heads a) (patch_embed m) x b H W g
               Bpe Hx Hp Hp D1 D2). }
  intros y Hy. simpl in Hy.
  eapply (pure_bind _ _ [b; _; head_dim a * arg_heads a]).
  { unfold add. cbn [shape unsqueeze0]. rewrite Hy, (built_pos_embs _ _ B).
    rewrite broadcast_pos, Hb. apply pure_ret. reflexivity. }
  intros h0 H0. unfold VIT_tail. eapply pure_bind.
  { eapply Transformer_forward_pure; eauto. }
  intros h1 H1. eapply pure_bind.
  { match type of H1 with
    | shape _ = [?b0; ?n0; _] => apply (LayerNorm_pure _ h1 [b0; n0])
    end.
    now rewrite H1, (built_out_norm _ _ B). }
  intros h2 H2. rewrite H1 in H2. eapply pure_bind.
  { eapply AttnPooler_forward_pure; [apply B|exact H2]. }
  intros h3 H3. eapply pure_bind.
  { apply (Linear_pure _ h3 [b]). now rewrite H3, (built_proj_out_in _ _ B). }
  intros h4 H4. apply pure_ret. now rewrite H4, (built_proj_out_out _ _ B).
Qed.

(* ================================================================= *)
(** ** FeedForward acts on each position separately *)

Lemma agree_bind (c c' : Fwd Tensor) (k k' : Tensor -> Fwd Tensor) ip s s' :
  agree_on_row c c' ip s ->
  (forall y y', shape y = s -> shape y' = s ->
                (forall o, val y (ip ++ [o]) = val y' (ip ++ [o])) ->
                agree_on_row (k y) (k' y') ip s') ->
  agree_on_row (bind c k) (bind c' k') ip s'.
Proof.
  intros Hc Hk g.
  destruct (Hc g) as (y & y' & g1 & E & E' & Hy & Hy' & Hv).
  destruct (Hk y y' Hy Hy' Hv g1) as (z & z' & g2 & F & F' & Hz & Hz' & Hw).
  exists z, z', g2. unfold bind. rewrite E, E'. auto.
Qed.

Lemma Linear_agree l x x' pre ip :
  shape x = pre ++ [in_features l] ->
  shape x' = pre ++ [in_features l] ->
  (forall j, j < in_features l -> val x (ip ++ [j]) = val x' (ip ++ [j])) ->
  agree_on_row (forward l x) (forward l x') ip (pre ++ [out_features l]).
Proof.
  intros Hx Hx' Hv g.
  exists (Linear_at l x pre), (Linear_at l x' pre), g.
  unfold forward, Linear_Module, lift.
  rewrite (Linear_apply_ok _ _ _ Hx), (Linear_apply_ok _ _ _ Hx').
  repeat split. intros o. now apply Linear_at_local.
Qed.

Lemma Dropout_agree (d : Dropout) y y' ip s :
  shape y = s -> shape y' = s ->
  (forall o, val y (ip ++ [o]) = val y' (ip ++ [o])) ->
  agree_on_row (forward d y) (forward d y') ip s.
Proof.
  intros Hy Hy' Hv g. unfold forward, Dropout_Module.
  assert (N : numel y = numel y') by (unfold numel; now rewrite Hy, Hy').
  rewrite <- N.
  destruct (negb (training d) || Qeq_bool (drop_p d) 0 || (numel y =? 0)).
  - exists y, y', g. auto.
  - destruct (Qeq_bool (drop_p d) 1).
    + exists (mul_scalar y 0), (mul_scalar y' 0), g. repeat split; auto.
      intros o. simpl. now rewrite Hv.
    + exists (Dropout_at d y (g 0)), (Dropout_at d y' (g 0)), (fun k => g (S k)).
      repeat split; auto. intros o. simpl. now rewrite Hv.
Qed.

(** [FeedForward.forward] has no interaction between positions: on two
    inputs of the same shape whose rows at one position are equal, and
    from the same random state, the outputs have equal rows at that
    position (and the shape of the input). *)
Theorem FeedForward_position_wise :
  forall dim hidden dr src m src' x x' pre ip,
    FeedForward_init dim hidden dr src = Ok (m, src') ->
    shape x = pre ++ [dim] ->
    shape x' = pre ++ [dim] ->
    (forall j, j < dim -> val x (ip ++ [j]) = val x' (ip ++ [j])) ->
    agree_on_row (FeedForward_forward m x) (FeedForward_forward m x') ip
                 (pre ++ [dim]).
Proof.
  intros dim hidden dr src m src' x x' pre ip Hinit Hx Hx' Hv.
  destruct (FeedForward_init_built _ _ _ _ _ _ Hinit)
    as [(l1 & d1 & l2 & d2 & E & I1 & O1 & I2 & O2)].
  unfold FeedForward_forward. rewrite E. simpl.
  eapply agree_bind.
  { apply (Linear_agree l1 x x' pre ip); rewrite I1; assumption. }
  intros y1 y1' H1 H1' V1. eapply agree_bind.
  { intros g. exists (GELU_at y1), (GELU_at y1'), g.
    split; [reflexivity|]. split; [reflexivity|].
    split; [exact H1|]. split; [exact H1'|].
    intros o. simpl. now rewrite V1. }
  intros y2 y2' H2 H2' V2. eapply agree_bind.
  { apply (Dropout_agree d1 y2 y2' ip _ eq_refl); [congruence|exact V2]. }
  intros y3 y3' H3 H3' V3. eapply agree_bind.
  { apply (Linear_agree l2 y3 y3' pre ip).
    - now rewrite H3, H2, O1, I2.
    - now rewrite H3', H2, O1, I2.
    - intros j _. apply V3. }
  intros y4 y4' H4 H4' V4. eapply agree_bind.
  { apply (Dropout_agree d2 y4 y4' ip _ eq_refl); [congruence|exact V4]. }
  intros y5 y5' H5 H5' V5 g. exists y5, y5', g.
  repeat split; auto; rewrite ?H5, ?H5', H4, O2; reflexivity.
Qed.

(* ================================================================= *)
(** ** Attention: heads, shapes and errors *)

(** The two rearrangements of [Attention.forward] undo each other:
    splitting [b, n, h d] into heads and merging the heads again gives
    back every entry, and so does merging and then splitting. *)
Theorem split_merge_heads_round_trip :
  forall x b n h d,
    h <> 0 ->
    shape x = [b; n; d * h] ->
    exists t u t',
      rearrange_split_heads x h = Ok t /\
      shape t = [b; h; n; d] /\
      rearrange_merge_heads t = Ok u /\
      shape u = [b; n; h * d] /\
      (forall bi ni j, val u [bi; ni; j] = val x [bi; ni; j]) /\
      rearrange_split_heads u h = Ok t' /\
      shape t' = [b; h; n; d] /\
      (forall bi hi ni di,
          di < d -> val t' [bi; hi; ni; di] = val t [bi; hi; ni; di]).
Proof.
  intros x b n h d Hh Hx.
  exists (split_heads_at x b n h d),
    (merge_heads_at (split_heads_at x b n h d) b h n d),
    (split_heads_at (merge_heads_at (split_heads_at x b n h d) b h n d) b n h d).
  split; [now apply rearrange_split_heads_ok|].
  split; [reflexivity|]. split; [reflexivity|]. split; [reflexivity|].
  split.
  { intros bi ni j. simpl. do 4 f_equal.
    pose proof (Nat.div_mod_eq j d). lia. }
  split.
  { apply rearrange_split_heads_ok; [exact Hh|]. simpl.
    now rewrite (Nat.mul_comm h d). }
  split; [reflexivity|].
  intros bi hi ni di Hd. simpl.
  now destruct (divmod_mul_add hi d di Hd) as [-> ->].
Qed.

(** [Attention.forward] returns a tensor of the shape of its input
    [b, n, dim]. *)
Theorem Attention_forward_preserves_shape :
  forall dim h dh dr src m src' x b n,
    Attention_init dim h dh dr src = Ok (m, src') ->
    h <> 0 ->
    shape x = [b; n; dim] ->
    returns_shape (Attention_forward m x) [b; n; dim].
Proof.
  intros dim h dh dr src m src' x b n Hinit Hh Hx.
  apply (Attention_forward_returns dim h dh dr); auto.
  eapply Attention_init_built; eauto.
Qed.

Lemma rearrange_split_heads_rank t h pre k :
  shape t = pre ++ [k] -> List.length pre <> 2 ->
  rearrange_split_heads t h = Raise EinopsError.
Proof.
  intros Ht Hl. unfold rearrange_split_heads. rewrite Ht.
  destruct pre as [|a [|b [|c pre]]]; simpl in *; try reflexivity.
  - contradiction.
  - destruct pre; reflexivity.
Qed.

(** [Attention.forward] rejects an input whose last axis is not [dim]
    with a RuntimeError (from the qkv projection), and an input of width
    [dim] that does not have exactly three axes with an EinopsError (from
    the rearrangement into heads). *)
Theorem Attention_forward_rejects :
  forall dim h dh dr src m src' x pre k,
    Attention_init dim h dh dr src = Ok (m, src') ->
    shape x = pre ++ [k] ->
    (k <> dim -> raises (Attention_forward m x) RuntimeError) /\
    (k = dim -> List.length pre <> 2 ->
     raises (Attention_forward m x) EinopsError).
Proof.
  intros dim h dh dr src m src' x pre k Hinit Hx.
  pose proof (Attention_init_built _ _ _ _ _ _ _ Hinit) as B.
  split.
  - intros Hk g. unfold Attention_forward. apply bind_Raise.
    unfold lift, Attention_qkv.
    rewrite (Linear_apply_mismatch _ _ _ _ Hx); [reflexivity|].
    now rewrite (built_qkv_in _ _ _ _ _ B).
  - intros -> Hl g. unfold Attention_forward. apply bind_Raise.
    unfold lift, Attention_qkv.
    rewrite (Linear_apply_ok _ _ pre)
      by (now rewrite Hx, (built_qkv_in _ _ _ _ _ B)).
    rewrite (chunk3_ok _ pre (dh * h))
      by (unfold Linear_at; simpl; now rewrite (built_qkv_out _ _ _ _ _ B)).
    simpl map_results.
    rewrite (rearrange_split_heads_rank _ _ pre (dh * h)); [reflexivity| |exact Hl].
    apply (chunk_at_shape _ pre). lia.
Qed.

(* ================================================================= *)
(** ** Transformer: shapes and errors *)

Lemma LayerNorm_apply_mismatch ln x pre k :
  shape x = pre ++ [k] -> k <> normalized_shape ln ->
  LayerNorm_apply ln x = Raise RuntimeError.
Proof.
  intros H Hk. unfold LayerNorm_apply. rewrite H, unsnoc_app.
  apply Nat.eqb_neq in Hk. now rewrite Hk.
Qed.

(** A [Transformer] of depth 0 returns any input unchanged; one of any
    depth returns an input [b, n, dim] with its shape unchanged; one of
    depth at least 1 rejects an input whose last axis is not [dim] with a
    RuntimeError, raised by the first normalization. *)
Theorem Transformer_forward_shapes :
  forall dim depth h dh mlp dr src m src',
    Transformer_init dim depth h dh mlp dr src = Ok (m, src') ->
    (depth = 0 -> forall x g, Transformer_forward m x g = Ok (x, g)) /\
    (h <> 0 -> forall x b n,
        shape x = [b; n; dim] ->
        returns_shape (Transformer_forward m x) [b; n; dim]) /\
    (depth <> 0 -> forall x pre k,
        shape x = pre ++ [k] -> k <> dim ->
        raises (Transformer_forward m x) RuntimeError).
Proof.
  intros dim depth h dh mlp dr src m src' Hinit.
  destruct (Transformer_init_lengths _ _ _ _ _ _ _ _ _ Hinit) as [La Lf].
  destruct (Transformer_init_built _ _ _ _ _ _ _ _ _ Hinit) as [Ba Bf].
  split; [|split].
  - intros -> x g. unfold Transformer_forward. rewrite La. reflexivity.
  - intros Hh x b n Hx.
    exact (Transformer_forward_returns _ _ _ _ _ _ _ _ _ x b n Hinit Hh Hx).
  - intros Hd x pre k Hx Hk g.
    rewrite Transformer_forward_blocks by congruence.
    destruct (attentions m) as [|a atts] eqn:Ea; [simpl in La; congruence|].
    destruct (ffns m) as [|f ffs] eqn:Ef; [simpl in Lf; congruence|].
    inversion Ba as [|? ? Ha1 _]; subst. destruct Ha1 as [Na _].
    simpl. apply bind_Raise. unfold block. simpl fst.
    apply bind_Raise. unfold residual. apply bind_Raise.
    unfold normalized. apply bind_Raise.
    unfold forward, LayerNorm_Module, lift.
    rewrite (LayerNorm_apply_mismatch _ _ _ _ Hx); [reflexivity|].
    now rewrite Na.
Qed.

(* ================================================================= *)
(** ** PatchEmbed: what is accepted and what is raised *)

Lemma rearrange_patches_rank x p1 p2 :
  List.length (shape x) <> 4 -> rearrange_patches x p1 p2 = Raise EinopsError.
Proof.
  intros H. unfold rearrange_patches.
  destruct (shape x) as [|a [|b [|c [|d [|e r]]]]]; simpl in H;
    try reflexivity. contradiction.
Qed.

(** [PatchEmbed.forward] with non-zero patch sizes accepts an input
    [b, c, H, W] exactly when patch_h divides H, patch_w divides W and c
    is the number of channels it was built for.  An indivisible side
    raises EinopsError, a wrong channel count RuntimeError, and an input
    that does not have four axes EinopsError. *)
Theorem PatchEmbed_forward_outcome :
  forall channels ps out_dim wb pre post src m src' ph pw,
    PatchEmbed_init channels ps out_dim wb pre post src = Ok (m, src') ->
    patch_dims ps = (ph, pw) ->
    ph <> 0 -> pw <> 0 ->
    (forall x b c H W g,
        shape x = [b; c; H; W] ->
        (is_ok (PatchEmbed_forward m x g) = true
         <-> (H mod ph = 0 /\ W mod pw = 0 /\ c = channels)) /\
        (H mod ph <> 0 \/ W mod pw <> 0 ->
         PatchEmbed_forward m x g = Raise EinopsError) /\
        (H mod ph = 0 -> W mod pw = 0 -> c <> channels ->
         PatchEmbed_forward m x g = Raise RuntimeError)) /\
    (forall x g,
        List.length (shape x) <> 4 ->
        PatchEmbed_forward m x g = Raise EinopsError).
Proof.
  intros channels ps out_dim wb pre post src m src' ph pw Hinit Hps H1 H2.
  pose proof (PatchEmbed_init_built _ _ _ _ _ _ _ _ _ Hinit) as B.
  rewrite Hps in B. simpl in B.
  split.
  - intros x b c H W g Hx.
    assert (Ediv : H mod ph <> 0 \/ W mod pw <> 0 ->
                   PatchEmbed_forward m x g = Raise EinopsError).
    { intros D.
      exact (PatchEmbed_forward_indivisible channels ph pw out_dim m x b c H W
               B Hx H1 H2 D g). }
    assert (Ech : H mod ph = 0 -> W mod pw = 0 -> c <> channels ->
                  PatchEmbed_forward m x g = Raise RuntimeError).
    { intros D1 D2 Hc.
      exact (PatchEmbed_forward_channels channels ph pw out_dim m x b c H W
               B Hx H1 H2 D1 D2 Hc g). }
    split; [|split; assumption].
    destruct (Nat.eq_dec (H mod ph) 0) as [D1|D1].
    2:{ rewrite (Ediv (or_introl D1)). simpl. split; [discriminate|tauto]. }
    destruct (Nat.eq_dec (W mod pw) 0) as [D2|D2].
    2:{ rewrite (Ediv (or_intror D2)). simpl. split; [discriminate|tauto]. }
    destruct (Nat.eq_dec c channels) as [Hc|Hc].
    2:{ rewrite (Ech D1 D2 Hc). simpl. split; [discriminate|tauto]. }
    subst c.
    rewrite (PatchEmbed_forward_ok channels ph pw out_dim m x b H W g)
      by assumption.
    simpl. tauto.
  - intros x g Hl. unfold PatchEmbed_forward. apply bind_Raise.
    unfold lift. now rewrite rearrange_patches_rank.
Qed.

(* ================================================================= *)
(** ** Adding the positional embedding to a single patch *)

(** When the image is one patch, [x + self.pos_embs.unsqueeze(0)] does not
    fail against a table of P rows: the one patch row is repeated, the
    result has P positions and position k is the patch row plus row k of
    the table. *)
Theorem single_patch_is_broadcast :
  forall x pos b P d,
    shape x = [b; 1; d] ->
    shape pos = [P; d] ->
    add x (unsqueeze0 pos) = Ok (add_at x (unsqueeze0 pos) [b; P; d]) /\
    forall bi k j,
      bi < b -> k < P -> j < d ->
      val (add_at x (unsqueeze0 pos) [b; P; d]) [bi; k; j]
      = (val x [bi; 0%nat; j] + val pos [k; j])%R.
Proof.
  intros x pos b P d Hx Hp. split.
  - unfold add. cbn [shape unsqueeze0]. rewrite Hx, Hp, broadcast_pos.
    unfold broadcastable. simpl.
    rewrite orb_true_r. simpl.
    destruct P as [|[|P]]; reflexivity.
  - intros bi k j Hb Hk Hj. unfold add_at. cbn [val shape unsqueeze0].
    rewrite Hx, Hp. unfold broadcast_index. simpl.
    destruct (Nat.eqb_spec b 1), (Nat.eqb_spec d 1), (Nat.eqb_spec P 1);
      repeat f_equal; lia.
Qed.

(* ================================================================= *)
(** ** When the constructors raise *)

Lemma Linear_init_total i o wb s :
  exists l s', Linear_init i o wb s = Ok (l, s').
Proof. destruct wb; eexists; eexists; reflexivity. Qed.

Lemma replicateM_total {S A} (c : StateErr S A) :
  (forall s, exists a s', c s = Ok (a, s')) ->
  forall n s, exists l s', replicateM n c s = Ok (l, s').
Proof.
  intros Hc. induction n as [|n IH]; intros s; simpl.
  - eexists. eexists. reflexivity.
  - destruct (Hc s) as (a & s1 & E). destruct (IH s1) as (l & s2 & E').
    exists (a :: l), s2. unfold bind. now rewrite E, E'.
Qed.

Lemma replicateM_raise {S A} (c : StateErr S A) e :
  (forall s, c s = Raise e) ->
  forall n s, n <> 0 -> replicateM n c s = Raise e.
Proof.
  intros Hc [|n] s Hn; [contradiction|]. simpl. unfold bind. now rewrite Hc.
Qed.

Lemma Attention_init_cases dim h dh dr s :
  (dh = 0 -> Attention_init dim h dh dr s = Raise ZeroDivisionError) /\
  (dh <> 0 ->
   rate_ok dr = true \/ negb ((h =? 1) && (dh =? dim)) = false ->
   exists m s', Attention_init dim h dh dr s = Ok (m, s')) /\
  (dh <> 0 -> rate_ok dr = false ->
   negb ((h =? 1) && (dh =? dim)) = true ->
   Attention_init dim h dh dr s = Raise ValueError).
Proof.
  unfold Attention_init, pow_neg_half, Linear_init, Dropout_init, rate_ok,
    bind, lift, ret, raise, sample.
  split; [|split].
  - intros ->. reflexivity.
  - intros Hd Hc. apply Nat.eqb_neq in Hd. rewrite Hd.
    destruct (negb ((h =? 1) && (dh =? dim))).
    + destruct Hc as [Hc|Hc]; [|discriminate]. rewrite Hc. eauto.
    + eauto.
  - intros Hd Hr Hp. apply Nat.eqb_neq in Hd. rewrite Hd, Hp, Hr. reflexivity.
Qed.

Lemma FeedForward_init_cases dim hidden dr s :
  (rate_ok dr = true -> exists m s', FeedForward_init dim hidden dr s = Ok (m, s')) /\
  (rate_ok dr = false -> FeedForward_init dim hidden dr s = Raise ValueError).
Proof.
  unfold FeedForward_init, Linear_init, Dropout_init, rate_ok,
    bind, lift, ret, raise, sample.
  split; intros ->; eauto.
Qed.

(** [Transformer.__init__] raises exactly when it has at least one block to
    build and either dim_head is 0 (ZeroDivisionError from
    [dim_head ** -0.5]) or, dim_head being non-zero, the dropout rate is
    outside [0, 1] (ValueError from [nn.Dropout]). *)
Lemma Transformer_init_outcome dim depth h dh mlp dr s :
  match Transformer_init dim depth h dh mlp dr s with
  | Ok _ => depth = 0 \/ (dh <> 0 /\ rate_ok dr = true)
  | Raise e =>
      depth <> 0 /\
      ((e = ZeroDivisionError /\ dh = 0)
       \/ (e = ValueError /\ dh <> 0 /\ rate_ok dr = false))
  end.
Proof.
  unfold Transformer_init.
  set (ca := (a <- Attention_init dim h dh dr ;; ret (PreNorm_init dim a))).
  set (cf := (f <- FeedForward_init dim mlp dr ;; ret (PreNorm_init dim f))).
  destruct (Nat.eq_dec depth 0) as [->|Hn].
  { simpl. unfold bind, ret. auto. }
  destruct (Nat.eq_dec dh 0) as [Hd|Hd].
  { assert (Ra : forall s0, ca s0 = Raise ZeroDivisionError).
    { intros s0. unfold ca. apply bind_Raise.
      now apply (Attention_init_cases dim h dh dr s0). }
    unfold bind at 1. rewrite (replicateM_raise ca _ Ra depth s Hn). auto. }
  destruct (rate_ok dr) eqn:Hr.
  - assert (Ta : forall s0, exists a s', ca s0 = Ok (a, s')).
    { intros s0.
      destruct (Attention_init_cases dim h dh dr s0) as (_ & Ok_ & _).
      destruct (Ok_ Hd (or_introl Hr)) as (a & s' & E).
      eexists. eexists. unfold ca, bind. rewrite E. reflexivity. }
    assert (Tf : forall s0, exists f s', cf s0 = Ok (f, s')).
    { intros s0.
      destruct (FeedForward_init_cases dim mlp dr s0) as (Ok_ & _).
      destruct (Ok_ Hr) as (f & s' & E).
      eexists. eexists. unfold cf, bind. rewrite E. reflexivity. }
    destruct (replicateM_total ca Ta depth s) as (la & s1 & Ea).
    destruct (replicateM_total cf Tf depth s1) as (lf & s2 & Ef).
    unfold bind. rewrite Ea, Ef. unfold ret. auto.
  - assert (Rf : forall s0, cf s0 = Raise ValueError).
    { intros s0. unfold cf. apply bind_Raise.
      now apply (FeedForward_init_cases dim mlp dr s0). }
    destruct (negb ((h =? 1) && (dh =? dim))) eqn:Hp.
    + assert (Ra : forall s0, ca s0 = Raise ValueError).
      { intros s0. unfold ca. apply bind_Raise.
        now apply (Attention_init_cases dim h dh dr s0). }
      unfold bind at 1. rewrite (replicateM_raise ca _ Ra depth s Hn). auto.
    + assert (Ta : forall s0, exists a s', ca s0 = Ok (a, s')).
      { intros s0.
        destruct (Attention_init_cases dim h dh dr s0) as (_ & Ok_ & _).
        destruct (Ok_ Hd (or_intror Hp)) as (a & s' & E).
        eexists. eexists. unfold ca, bind. rewrite E. reflexivity. }
      destruct (replicateM_total ca Ta depth s) as (la & s1 & Ea).
      unfold bind at 1. rewrite Ea.
      unfold bind at 1. rewrite (replicateM_raise cf _ Rf depth s1 Hn). auto.
Qed.

(** [VIT(...)] raises ZeroDivisionError exactly when patch_size is 0
    ([image_size // patch_size]) or there is a layer to build and head_dim
    is 0; ValueError exactly when neither holds, there is a layer to build
    and [dropout] is outside [0, 1]; and succeeds otherwise.  The values
    of [emb_dropout], [in_channels], [heads], [mlp_mult], [num_classes]
    and [image_size] never make it raise. *)
Theorem VIT_init_outcome :
  forall a src,
    match VIT_init a src with
    | Ok _ =>
        patch_size a <> 0 /\
        (num_layers a = 0 \/ (head_dim a <> 0 /\ rate_ok (dropout a) = true))
    | Raise e =>
        (e = ZeroDivisionError /\
         (patch_size a = 0 \/ (num_layers a <> 0 /\ head_dim a = 0)))
        \/ (e = ValueError /\ patch_size a <> 0 /\ num_layers a <> 0 /\
            head_dim a <> 0 /\ rate_ok (dropout a) = false)
    end.
Proof.
  intros a src. unfold VIT_init.
  unfold PatchEmbed_init, patch_dims.
  destruct (Linear_init_total (3 * patch_size a * patch_size a)
              (head_dim a * arg_heads a) true src) as (pr & s1 & E1).
  unfold bind at 1. unfold bind at 1. rewrite E1. unfold ret at 1.
  cbv beta iota zeta.
  unfold bind at 1. unfold lift, floordiv.
  destruct (Nat.eqb_spec (patch_size a) 0) as [Hp|Hp]; [auto|].
  unfold bind at 1. unfold sample at 1.
  unfold bind at 1.
  match goal with
  | |- context [Transformer_init ?d ?n ?h ?dh ?mlp ?dr ?s] =>
      pose proof (Transformer_init_outcome d n h dh mlp dr s) as T;
      destruct (Transformer_init d n h dh mlp dr s) as [[tr s2]|e]
  end.
  - destruct (Linear_init_total (head_dim a * arg_heads a)
                (head_dim a * arg_heads a) true s2) as (k & s3 & Ek).
    destruct (Linear_init_total (head_dim a * arg_heads a)
                (head_dim a * arg_heads a) true s3) as (v & s4 & Ev).
    unfold AttnPooler_init, bind at 1. unfold bind at 1. rewrite Ek.
    unfold bind at 1. rewrite Ev.
    unfold bind at 1. unfold sample at 1. unfold ret at 1.
    destruct (Linear_init_total (head_dim a * arg_heads a) (num_classes a) true
                (fun k0 => s4 (S k0))) as (pj & s5 & Ep).
    unfold bind. rewrite Ep. unfold ret. tauto.
  - destruct T as (Hn & [(-> & Hd)|(-> & Hd & Hr)]); [left|right]; auto.
Qed.

(* ================================================================= *)
(** ** Attention: which rows of the qkv projection feed what *)

Lemma Attention_init_no_qkv_bias dim h dh dr src m src' :
  Attention_init dim h dh dr src = Ok (m, src') -> bias (to_qkv m) = None.
Proof.
  unfold Attention_init. intros H.
  inv_bind H. inv_bind H. inv_bind H. inv_ret H. simpl.
  unfold Linear_init in E0. inv_bind E0. inv_bind E0. inv_ret E0.
  simpl. now inv_ret E3.
Qed.

(** The one projection [to_qkv] holds queries, keys and values in this
    order, inner_dim rows each, and within each the heads one after the
    other: entry di of head hi of the query is row hi * dim_head + di, of
    the key row inner_dim + hi * dim_head + di, of the value row
    2 * inner_dim + hi * dim_head + di. *)
Theorem Attention_qkv_layout :
  forall dim h dh dr src m src' x b n,
    Attention_init dim h dh dr src = Ok (m, src') ->
    h <> 0 ->
    shape x = [b; n; dim] ->
    exists q0 k v,
      Attention_qkv m x = Ok (q0, k, v) /\
      shape q0 = [b; h; n; dh] /\ shape k = [b; h; n; dh] /\
      shape v = [b; h; n; dh] /\
      forall bi hi ni di,
        val q0 [bi; hi; ni; di] = qkv_row m x dim bi ni (hi * dh + di) /\
        val k [bi; hi; ni; di] = qkv_row m x dim bi ni (dh * h + (hi * dh + di)) /\
        val v [bi; hi; ni; di]
        = qkv_row m x dim bi ni (2 * (dh * h) + (hi * dh + di)).
Proof.
  intros dim h dh dr src m src' x b n Hinit Hh Hx.
  pose proof (Attention_init_built _ _ _ _ _ _ _ Hinit) as B.
  pose proof (Attention_init_no_qkv_bias _ _ _ _ _ _ _ Hinit) as Hb.
  assert (Hm : heads m = h) by apply B.
  assert (Hin : in_features (to_qkv m) = dim) by apply B.
  exists (qkv_part m x b n dh 0), (qkv_part m x b n dh 1),
    (qkv_part m x b n dh 2).
  split.
  { apply Attention_qkv_ok; rewrite ?Hm, ?Hin; auto. apply B. }
  assert (V : forall j bi hi ni di,
             val (qkv_part m x b n dh j) [bi; hi; ni; di]
             = qkv_row m x dim bi ni (j * (dh * h) + (hi * dh + di))).
  { intros j bi hi ni di. unfold qkv_part, qkv_row. simpl.
    unfold Linear_row. rewrite Hb, Hin, Hm, Rplus_0_r. reflexivity. }
  unfold qkv_part at 1 2 3. simpl shape. rewrite Hm.
  repeat split; try reflexivity.
  - now rewrite V.
  - rewrite V. f_equal. lia.
  - rewrite V. reflexivity.
Qed.

(** On a sequence of one token the softmax has one entry, which is 1:
    the merged heads are the value rows of that token, whatever its query
    and key. *)
Theorem Attention_single_token :
  forall dim h dh dr src m src' x b,
    Attention_init dim h dh dr src = Ok (m, src') ->
    h <> 0 ->
    shape x = [b; 1; dim] ->
    (forall g, Attention_forward m x g
               = forward (to_out m) (attention_merged m x b 1 dh) g) /\
    shape (attention_merged m x b 1 dh) = [b; 1; h * dh] /\
    forall bi j,
      val (attention_merged m x b 1 dh) [bi; 0; j]
      = qkv_row m x dim bi 0 (2 * (dh * h) + j).
Proof.
  intros dim h dh dr src m src' x b Hinit Hh Hx.
  pose proof (Attention_init_built _ _ _ _ _ _ _ Hinit) as B.
  pose proof (Attention_init_no_qkv_bias _ _ _ _ _ _ _ Hinit) as Hb.
  assert (Hm : heads m = h) by apply B.
  assert (Hin : in_features (to_qkv m) = dim) by apply B.
  split; [|split].
  - intros g. now apply (Attention_forward_to_out dim h dh dr).
  - simpl. now rewrite Hm.
  - intros bi j. unfold attention_merged. cbn [val merge_heads_at].
    cbn [val matmul_at unsnoc2 rev app]. cbn [sum_upto].
    rewrite attention_matrix_val. cbn [sum_upto].
    rewrite Rplus_0_l, Rplus_0_l.
    rewrite Rdiv_diag by (apply Rgt_not_eq, Rlt_gt, exp_pos).
    rewrite Rmult_1_l.
    unfold qkv_part, qkv_row. simpl.
    unfold Linear_row. rewrite Hb, Hin, Hm, Rplus_0_r.
    apply sum_upto_ext. intros c _. do 3 f_equal.
    pose proof (Nat.div_mod_eq j dh). lia.
Qed.

(* ================================================================= *)
(** ** The further properties at concrete inputs *)

Lemma short_epochs_print_no_loss_witness :
  exists m src',
    VIT_init small_args zero_src = Ok (m, src') /\
    filter is_loss_line (script 1 98 m) = [] /\
    filter is_output (script 1 98 m) = [EvPrint "Finished Training"].
Proof.
  eexists. eexists.
  split; [cbv [VIT_init PatchEmbed_init patch_dims]; reflexivity|].
  assert (Hb : 98 < 2000) by lia.
  match goal with
  | |- context [script 1 98 ?M] =>
      destruct (short_epochs_print_no_loss 1 98 M Hb) as [A B]
  end.
  split; [exact A|]. apply B. discriminate.
Defined.

Lemma AttnPooler_forward_pools_witness :
  exists m src' y,
    AttnPooler_init 4 zero_src = Ok (m, src') /\
    AttnPooler_forward m (zeros [2; 5; 4]) keep_all = Ok (y, keep_all) /\
    shape y = [2; 4] /\
    sum_upto 5 (fun j => pool_weight m (zeros [2; 5; 4]) 2 5 4 1 j) = 1%R.
Proof.
  eexists. eexists.
  destruct (AttnPooler_forward_pools 4 zero_src _ _ (zeros [2; 5; 4]) 2 5
              eq_refl eq_refl) as (y & A & B & _ & D).
  exists y. split; [reflexivity|].
  assert (H5 : 0 < 5) by lia.
  exact (conj (A keep_all) (conj B (proj2 (D H5 1)))).
Defined.

Lemma VIT_forward_without_dropout_witness :
  exists m src',
    VIT_init small_args zero_src = Ok (m, src') /\
    exists y,
      shape y = [2; 10] /\
      forall g, VIT_forward m (zeros [2; 3; 8; 8]) g = Ok (y, g).
Proof.
  eexists. eexists.
  split; [cbv [VIT_init PatchEmbed_init patch_dims]; reflexivity|].
  exact (VIT_forward_without_dropout small_args zero_src _ _
           (zeros [2; 3; 8; 8]) 2 8 8 eq_refl
           (fun E : 2 = 0 => O_S 1 (eq_sym E)) eq_refl eq_refl
           eq_refl eq_refl eq_refl).
Defined.

Lemma FeedForward_position_wise_witness :
  exists m src',
    FeedForward_init 4 8 (1 # 10)%Q zero_src = Ok (m, src') /\
    agree_on_row (FeedForward_forward m (zeros [2; 3; 4]))
                 (FeedForward_forward m zero_row_input) [0; 1] [2; 3; 4].
Proof.
  eexists. eexists. split; [reflexivity|].
  exact (FeedForward_position_wise 4 8 (1 # 10)%Q zero_src _ _
           (zeros [2; 3; 4]) zero_row_input [2; 3] [0; 1]
           eq_refl eq_refl eq_refl (fun j (_ : j < 4) => eq_refl)).
Defined.

Lemma split_merge_heads_round_trip_witness :
  exists t u,
    rearrange_split_heads (ones [2; 5; 512]) 8 = Ok t /\
    shape t = [2; 8; 5; 64] /\
    rearrange_merge_heads t = Ok u /\
    shape u = [2; 5; 512] /\
    val u [1; 4; 202] = val (ones [2; 5; 512]) [1; 4; 202].
Proof.
  destruct (split_merge_heads_round_trip (ones [2; 5; 512]) 2 5 8 64
              (fun E : 8 = 0 => O_S 7 (eq_sym E)) eq_refl)
    as (t & u & _ & A & B & C & D & E & _).
  exists t, u. exact (conj A (conj B (conj C (conj D (E 1 4 202))))).
Defined.

Lemma Attention_forward_preserves_shape_witness :
  exists m src',
    Attention_init 4 2 2 (1 # 10)%Q zero_src = Ok (m, src') /\
    returns_shape (Attention_forward m (zeros [3; 5; 4])) [3; 5; 4].
Proof.
  eexists. eexists. split; [reflexivity|].
  exact (Attention_forward_preserves_shape 4 2 2 (1 # 10)%Q zero_src _ _
           (zeros [3; 5; 4]) 3 5 eq_refl
           (fun E : 2 = 0 => O_S 1 (eq_sym E)) eq_refl).
Defined.

Lemma Attention_forward_rejects_witness :
  exists m src',
    Attention_init 4 2 2 (1 # 10)%Q zero_src = Ok (m, src') /\
    raises (Attention_forward m (zeros [3; 5; 6])) RuntimeError /\
    raises (Attention_forward m (zeros [5; 4])) EinopsError.
Proof.
  eexists. eexists. split; [reflexivity|]. split.
  - apply (Attention_forward_rejects 4 2 2 (1 # 10)%Q zero_src _ _
             (zeros [3; 5; 6]) [3; 5] 6 eq_refl eq_refl).
    discriminate.
  - apply (Attention_forward_rejects 4 2 2 (1 # 10)%Q zero_src _ _
             (zeros [5; 4]) [5] 4 eq_refl eq_refl).
    + reflexivity.
    + discriminate.
Defined.

Lemma Transformer_forward_shapes_witness :
  exists m src',
    Transformer_init 4 2 2 2 16 (1 # 10)%Q zero_src = Ok (m, src') /\
    returns_shape (Transformer_forward m (zeros [3; 5; 4])) [3; 5; 4] /\
    raises (Transformer_forward m (zeros [3; 5; 6])) RuntimeError.
Proof.
  eexists. eexists. split; [reflexivity|].
  destruct (Transformer_forward_shapes 4 2 2 2 16 (1 # 10)%Q zero_src _ _
              eq_refl) as (_ & A & B).
  split.
  - exact (A (fun E : 2 = 0 => O_S 1 (eq_sym E)) (zeros [3; 5; 4]) 3 5 eq_refl).
  - apply (B (fun E : 2 = 0 => O_S 1 (eq_sym E)) (zeros [3; 5; 6]) [3; 5] 6
             eq_refl).
    discriminate.
Defined.

Lemma PatchEmbed_forward_outcome_witness :
  exists m src',
    PatchEmbed_init 3 (PatchPair 4 2) 16 true true false zero_src
    = Ok (m, src') /\
    is_ok (PatchEmbed_forward m (zeros [2; 3; 8; 6]) keep_all) = true /\
    PatchEmbed_forward m (zeros [2; 3; 8; 7]) keep_all = Raise EinopsError /\
    PatchEmbed_forward m (zeros [2; 1; 8; 6]) keep_all = Raise RuntimeError /\
    PatchEmbed_forward m (zeros [3; 8; 6]) keep_all = Raise EinopsError.
Proof.
  eexists. eexists. split; [cbv [PatchEmbed_init patch_dims]; reflexivity|].
  destruct (PatchEmbed_forward_outcome 3 (PatchPair 4 2) 16 true true false
              zero_src _ _ 4 2 eq_refl eq_refl
              (fun E : 4 = 0 => O_S 3 (eq_sym E))
              (fun E : 2 = 0 => O_S 1 (eq_sym E))) as (A & B).
  split; [|split; [|split]].
  - apply (A (zeros [2; 3; 8; 6]) 2 3 8 6 keep_all eq_refl).
    repeat split; reflexivity.
  - apply (A (zeros [2; 3; 8; 7]) 2 3 8 7 keep_all eq_refl).
    right. discriminate.
  - apply (A (zeros [2; 1; 8; 6]) 2 1 8 6 keep_all eq_refl);
      [reflexivity|reflexivity|discriminate].
  - apply B. discriminate.
Defined.

Lemma single_patch_is_broadcast_witness :
  is_ok (add (zeros [2; 1; 4]) (unsqueeze0 (ones [64; 4]))) = true /\
  val (add_at (zeros [2; 1; 4]) (unsqueeze0 (ones [64; 4])) [2; 64; 4])
      [1; 63; 3]
  = Rplus (val (zeros [2; 1; 4]) [1; 0; 3]) (val (ones [64; 4]) [63; 3]).
Proof.
  destruct (single_patch_is_broadcast (zeros [2; 1; 4]) (ones [64; 4]) 2 64 4
              eq_refl eq_refl) as [A B].
  split.
  - rewrite A. reflexivity.
  - apply B; lia.
Defined.

Lemma Attention_qkv_layout_witness :
  exists m src' q0 k v,
    Attention_init 4 2 2 (1 # 10)%Q zero_src = Ok (m, src') /\
    Attention_qkv m (ones [3; 5; 4]) = Ok (q0, k, v) /\
    val v [2; 1; 4; 1] = qkv_row m (ones [3; 5; 4]) 4 2 4 11.
Proof.
  eexists. eexists.
  destruct (Attention_qkv_layout 4 2 2 (1 # 10)%Q zero_src _ _
              (ones [3; 5; 4]) 3 5 eq_refl
              (fun E : 2 = 0 => O_S 1 (eq_sym E)) eq_refl)
    as (q0 & k & v & A & _ & _ & _ & B).
  exists q0, k, v. split; [reflexivity|].
  exact (conj A (proj2 (proj2 (B 2 1 4 1)))).
Defined.

Lemma Attention_single_token_witness :
  exists m src',
    Attention_init 4 2 2 (1 # 10)%Q zero_src = Ok (m, src') /\
    val (attention_merged m (ones [3; 1; 4]) 3 1 2) [2; 0; 3]
    = qkv_row m (ones [3; 1; 4]) 4 2 0 11.
Proof.
  eexists. eexists. split; [reflexivity|].
  destruct (Attention_single_token 4 2 2 (1 # 10)%Q zero_src _ _
              (ones [3; 1; 4]) 3 eq_refl
              (fun E : 2 = 0 => O_S 1 (eq_sym E)) eq_refl) as (_ & _ & A).
  exact (A 2 3).
Defined.

(* ================================================================= *)
(** ** Batch elements do not influence each other *)

Lemma sample_bind (c c' : Fwd Tensor) (k k' : Tensor -> Fwd Tensor)
  r r' bi s s' :
  agree_on_sample c c' r bi s ->
  (forall y y', shape y = s -> shape y' = s -> same_sample r bi y y' ->
                agree_on_sample (k y) (k' y') r' bi s') ->
  agree_on_sample (bind c k) (bind c' k') r' bi s'.
Proof.
  intros Hc Hk g.
  destruct (Hc g) as (y & y' & g1 & E & E' & Hy & Hy' & Hv).
  destruct (Hk y y' Hy Hy' Hv g1) as (z & z' & g2 & F & F' & Hz & Hz' & Hw).
  exists z, z', g2. unfold bind. rewrite E, E'. auto.
Qed.

Lemma sample_ret y y' r bi s :
  shape y = s -> shape y' = s -> same_sample r bi y y' ->
  agree_on_sample (ret y) (ret y') r bi s.
Proof. intros Hy Hy' Hv g. exists y, y', g. auto. Qed.

Lemma sample_ext (c c' d d' : Fwd Tensor) r bi s :
  (forall g, c g = d g) -> (forall g, c' g = d' g) ->
  agree_on_sample d d' r bi s -> agree_on_sample c c' r bi s.
Proof.
  intros H H' Hd g. destruct (Hd g) as (y & y' & g' & E & E' & R).
  exists y, y', g'. rewrite H, H'. auto.
Qed.

Lemma snoc_cases {A} (l : list A) n :
  List.length l = S n ->
  exists l' a, l = l' ++ [a] /\ List.length l' = n.
Proof.
  intros H. destruct (exists_last (l := l)) as (l' & a & ->).
  - intros ->. discriminate.
  - exists l', a. split; [reflexivity|].
    rewrite length_app in H. simpl in H. lia.
Qed.

Lemma Linear_at_sample l x x' pre pre' r bi :
  same_sample (S r) bi x x' ->
  same_sample (S r) bi (Linear_at l x pre) (Linear_at l x' pre').
Proof.
  intros H rest Hl. destruct (snoc_cases rest r Hl) as (ip & o & -> & Hip).
  change (bi :: ip ++ [o]) with ((bi :: ip) ++ [o]).
  unfold Linear_at. cbn [val]. rewrite !(unsnoc_app (bi :: ip) o).
  unfold Linear_row. f_equal.
  apply sum_upto_ext. intros j _. f_equal.
  apply (H (ip ++ [j])). rewrite length_app. simpl. lia.
Qed.

Lemma LayerNorm_row_ext ln x x' ip j :
  (forall k, val x (ip ++ [k]) = val x' (ip ++ [k])) ->
  LayerNorm_row ln x ip j = LayerNorm_row ln x' ip j.
Proof.
  intros H. unfold LayerNorm_row.
  assert (M : row_mean x (normalized_shape ln) ip
              = row_mean x' (normalized_shape ln) ip).
  { unfold row_mean. f_equal. apply sum_upto_ext. intros; apply H. }
  assert (V : row_var x (normalized_shape ln) ip
              = row_var x' (normalized_shape ln) ip).
  { unfold row_var. f_equal. apply sum_upto_ext. intros k _.
    now rewrite M, H. }
  now rewrite M, V, H.
Qed.

Lemma LayerNorm_at_sample ln x x' r bi :
  same_sample (S r) bi x x' ->
  same_sample (S r) bi (LayerNorm_at ln x) (LayerNorm_at ln x').
Proof.
  intros H rest Hl. destruct (snoc_cases rest r Hl) as (ip & o & -> & Hip).
  change (bi :: ip ++ [o]) with ((bi :: ip) ++ [o]).
  unfold LayerNorm_at. cbn [val]. rewrite !(unsnoc_app (bi :: ip) o).
  apply LayerNorm_row_ext.
  intros k. apply (H (ip ++ [k])). rewrite length_app. simpl. lia.
Qed.

Lemma Linear_sample l x x' pre r bi :
  shape x = pre ++ [in_features l] ->
  shape x' = pre ++ [in_features l] ->
  same_sample (S r) bi x x' ->
  agree_on_sample (forward l x) (forward l x') (S r) bi
                  (pre ++ [out_features l]).
Proof.
  intros Hx Hx' Hv g.
  exists (Linear_at l x pre), (Linear_at l x' pre), g.
  unfold forward, Linear_Module, lift.
  rewrite (Linear_apply_ok _ _ _ Hx), (Linear_apply_ok _ _ _ Hx').
  repeat split. now apply Linear_at_sample.
Qed.

Lemma LayerNorm_sample ln x x' pre r bi :
  shape x = pre ++ [normalized_shape ln] ->
  shape x' = pre ++ [normalized_shape ln] ->
  same_sample (S r) bi x x' ->
  agree_on_sample (forward ln x) (forward ln x') (S r) bi
                  (pre ++ [normalized_shape ln]).
Proof.
  intros Hx Hx' Hv g.
  exists (LayerNorm_at ln x), (LayerNorm_at ln x'), g.
  unfold forward, LayerNorm_Module, lift.
  rewrite (LayerNorm_apply_ok _ _ _ Hx), (LayerNorm_apply_ok _ _ _ Hx').
  repeat split; auto. now apply LayerNorm_at_sample.
Qed.

Lemma Dropout_sample (d : Dropout) y y' r bi s :
  shape y = s -> shape y' = s -> same_sample r bi y y' ->
  agree_on_sample (forward d y) (forward d y') r bi s.
Proof.
  intros Hy Hy' Hv g. unfold forward, Dropout_Module.
  assert (N : numel y = numel y') by (unfold numel; now rewrite Hy, Hy').
  rewrite <- N.
  destruct (negb (training d) || Qeq_bool (drop_p d) 0 || (numel y =? 0)).
  - exists y, y', g. auto.
  - destruct (Qeq_bool (drop_p d) 1).
    + exists (mul_scalar y 0), (mul_scalar y' 0), g. repeat split; auto.
      intros rest Hl. simpl. now rewrite (Hv rest Hl).
    + exists (Dropout_at d y (g 0)), (Dropout_at d y' (g 0)), (fun k => g (S k)).
      repeat split; auto. intros rest Hl. simpl. now rewrite (Hv rest Hl).
Qed.

Lemma add_at_sample x x' y y' b n d bi :
  bi < b ->
  shape x = [b; n; d] -> shape x' = [b; n; d] ->
  shape y = [b; n; d] -> shape y' = [b; n; d] ->
  same_sample 2 bi x x' -> same_sample 2 bi y y' ->
  same_sample 2 bi (add_at x y [b; n; d]) (add_at x' y' [b; n; d]).
Proof.
  intros Hb Hx Hx' Hy Hy' Vx Vy rest Hl.
  destruct rest as [|k [|j [|? ?]]]; try discriminate.
  unfold add_at. cbn [val]. rewrite Hx, Hx', Hy, Hy'.
  unfold broadcast_index. simpl.
  assert (E : (if b =? 1 then 0 else bi) = bi)
    by (destruct (Nat.eqb_spec b 1); lia).
  rewrite E. f_equal; [apply Vx|apply Vy]; reflexivity.
Qed.

Lemma residual_sample f f' x x' b n d bi :
  bi < b ->
  shape x = [b; n; d] -> shape x' = [b; n; d] ->
  same_sample 2 bi x x' ->
  agree_on_sample (f x) (f' x') 2 bi [b; n; d] ->
  agree_on_sample (residual f x) (residual f' x') 2 bi [b; n; d].
Proof.
  intros Hb Hx Hx' Vx Hf. unfold residual. eapply sample_bind; [exact Hf|].
  intros y y' Hy Hy' Vy g.
  exists (add_at x y [b; n; d]), (add_at x' y' [b; n; d]), g.
  unfold lift. rewrite !add_same_shape by congruence. rewrite Hy, Hy'.
  repeat split. now apply add_at_sample.
Qed.

Lemma add_pos_sample x x' pos b n P d bi :
  bi < b ->
  shape x = [b; n; d] -> shape x' = [b; n; d] -> shape pos = [P; d] ->
  broadcastable n P = true ->
  same_sample 2 bi x x' ->
  exists n',
    agree_on_sample (lift (add x (unsqueeze0 pos)))
                    (lift (add x' (unsqueeze0 pos))) 2 bi [b; n'; d].
Proof.
  intros Hb Hx Hx' Hp Hbr Vx. eexists. intros g.
  unfold add, lift. cbn [shape unsqueeze0]. rewrite Hx, Hx', Hp.
  rewrite broadcast_pos, Hbr.
  eexists. eexists. eexists.
  split; [reflexivity|]. split; [reflexivity|].
  split; [reflexivity|]. split; [reflexivity|].
  intros rest Hl. destruct rest as [|k [|j [|? ?]]]; try discriminate.
  unfold add_at. cbn [val shape unsqueeze0]. rewrite Hx, Hx'.
  f_equal. unfold broadcast_index. simpl.
  assert (E : (if b =? 1 then 0 else bi) = bi)
    by (destruct (Nat.eqb_spec b 1); lia).
  rewrite E. now apply Vx.
Qed.

Lemma patches_at_sample x x' b c h w p1 p2 bi :
  same_sample 3 bi x x' ->
  same_sample 2 bi (patches_at x b c h w p1 p2) (patches_at x' b c h w p1 p2).
Proof.
  intros V rest Hl. destruct rest as [|k [|j [|? ?]]]; try discriminate.
  simpl. now apply V.
Qed.

Lemma norm_or_identity_at_sample l x x' r bi :
  same_sample (S r) bi x x' ->
  same_sample (S r) bi (norm_or_identity_at l x) (norm_or_identity_at l x').
Proof.
  intros V. destruct l; simpl; auto. now apply LayerNorm_at_sample.
Qed.

Lemma PatchEmbed_at_sample m pt pt' pre bi :
  same_sample 2 bi pt pt' ->
  same_sample 2 bi (PatchEmbed_at m pt pre) (PatchEmbed_at m pt' pre).
Proof.
  intros V. unfold PatchEmbed_at.
  apply norm_or_identity_at_sample, Linear_at_sample,
    norm_or_identity_at_sample, V.
Qed.

Lemma qkv_part_sample m x x' b n dh j bi :
  same_sample 2 bi x x' ->
  same_sample 3 bi (qkv_part m x b n dh j) (qkv_part m x' b n dh j).
Proof.
  intros V rest Hl. destruct rest as [|hi [|ni [|di [|? ?]]]]; try discriminate.
  unfold qkv_part. simpl. unfold Linear_row. f_equal.
  apply sum_upto_ext. intros c _. f_equal. now apply V.
Qed.

Lemma attention_merged_sample m x x' b n dh bi :
  same_sample 2 bi x x' ->
  same_sample 2 bi (attention_merged m x b n dh) (attention_merged m x' b n dh).
Proof.
  intros V rest Hl. destruct rest as [|ni [|j [|? ?]]]; try discriminate.
  pose proof (qkv_part_sample m x x' b n dh 0 bi V) as Q0.
  pose proof (qkv_part_sample m x x' b n dh 1 bi V) as Q1.
  pose proof (qkv_part_sample m x x' b n dh 2 bi V) as Q2.
  assert (Sc : forall hi i k,
             attention_score m (qkv_part m x b n dh 0) (qkv_part m x b n dh 1)
                             dh bi hi i k
             = attention_score m (qkv_part m x' b n dh 0)
                               (qkv_part m x' b n dh 1) dh bi hi i k).
  { intros hi i k. unfold attention_score. f_equal.
    apply sum_upto_ext. intros c _.
    now rewrite (Q0 [hi; i; c]), (Q1 [hi; k; c]). }
  unfold attention_merged. cbn [val merge_heads_at].
  cbn [val matmul_at unsnoc2 rev app].
  apply sum_upto_ext. intros k _.
  rewrite !attention_matrix_val, Sc.
  rewrite (Q2 [j / dh; k; j mod dh]) by reflexivity.
  rewrite (sum_upto_ext n _ _
             (fun j' _ => f_equal exp (Sc (j / dh) ni j'))).
  reflexivity.
Qed.

Lemma to_out_sample dim h dh dr m y y' pre bi :
  Attention_built dim h dh dr m ->
  shape y = pre ++ [h * dh] -> shape y' = pre ++ [h * dh] ->
  same_sample 2 bi y y' ->
  agree_on_sample (forward (to_out m) y) (forward (to_out m) y') 2 bi
                  (pre ++ [dim]).
Proof.
  intros B Hy Hy' V.
  destruct (built_out _ _ _ _ _ B)
    as [(H1 & H2 & E)|(_ & l & d & E & Hi & Ho & _)]; rewrite E.
  - subst. apply sample_ret; auto; rewrite ?Hy, ?Hy'; now rewrite Nat.mul_1_l.
  - simpl. eapply sample_bind.
    + apply (Linear_sample l y y' pre 1 bi); auto;
        rewrite ?Hy, ?Hy', Hi; now rewrite Nat.mul_comm.
    + intros y1 y1' H1 H1' V1. eapply sample_bind.
      * apply (Dropout_sample d y1 y1' 2 bi _ H1 H1' V1).
      * intros y2 y2' H2 H2' V2. apply sample_ret; auto;
          rewrite ?H2, ?H2', Ho; reflexivity.
Qed.

Lemma Attention_forward_sample dim h dh dr m x x' b n bi :
  Attention_built dim h dh dr m -> h <> 0 ->
  shape x = [b; n; dim] -> shape x' = [b; n; dim] ->
  same_sample 2 bi x x' ->
  agree_on_sample (forward m x) (forward m x') 2 bi [b; n; dim].
Proof.
  intros B Hh Hx Hx' V.
  apply (sample_ext _ _ (forward (to_out m) (attention_merged m x b n dh))
           (forward (to_out m) (attention_merged m x' b n dh))).
  - intros g. now apply (Attention_forward_to_out dim h dh dr).
  - intros g. now apply (Attention_forward_to_out dim h dh dr).
  - apply (to_out_sample dim h dh dr m _ _ [b; n] bi B).
    + simpl. now rewrite (built_heads _ _ _ _ _ B).
    + simpl. now rewrite (built_heads _ _ _ _ _ B).
    + now apply attention_merged_sample.
Qed.

Lemma FeedForward_forward_sample dim hidden m x x' pre r bi :
  FeedForward_built dim hidden m ->
  shape x = pre ++ [dim] -> shape x' = pre ++ [dim] ->
  same_sample (S r) bi x x' ->
  agree_on_sample (forward m x) (forward m x') (S r) bi (pre ++ [dim]).
Proof.
  intros [(l1 & d1 & l2 & d2 & E & I1 & O1 & I2 & O2)] Hx Hx' V.
  unfold forward, FeedForward_Module, FeedForward_forward. rewrite E. simpl.
  eapply sample_bind.
  { apply (Linear_sample l1 x x' pre r bi); rewrite ?I1; assumption. }
  intros y1 y1' H1 H1' V1. eapply sample_bind.
  { apply (sample_ret (GELU_at y1) (GELU_at y1') (S r) bi _ H1 H1').
    intros rest Hl. simpl. now rewrite (V1 rest Hl). }
  intros y2 y2' H2 H2' V2. eapply sample_bind.
  { apply (Dropout_sample d1 y2 y2' (S r) bi _ H2 H2' V2). }
  intros y3 y3' H3 H3' V3. eapply sample_bind.
  { apply (Linear_sample l2 y3 y3' pre r bi); auto;
      rewrite ?H3, ?H3', O1, I2; reflexivity. }
  intros y4 y4' H4 H4' V4. eapply sample_bind.
  { apply (Dropout_sample d2 y4 y4' (S r) bi _ H4 H4' V4). }
  intros y5 y5' H5 H5' V5. apply sample_ret; auto;
    rewrite ?H5, ?H5', O2; reflexivity.
Qed.

Lemma normalized_sample {F} `{Module F} ln (f : F) x x' b n bi :
  shape x = [b; n; normalized_shape ln] ->
  shape x' = [b; n; normalized_shape ln] ->
  same_sample 2 bi x x' ->
  (forall h h', shape h = [b; n; normalized_shape ln] ->
                shape h' = [b; n; normalized_shape ln] ->
                same_sample 2 bi h h' ->
                agree_on_sample (forward f h) (forward f h') 2 bi
                                [b; n; normalized_shape ln]) ->
  agree_on_sample (normalized ln f x) (normalized ln f x') 2 bi
                  [b; n; normalized_shape ln].
Proof.
  intros Hx Hx' V Hf. unfold normalized. eapply sample_bind.
  - apply (LayerNorm_sample ln x x' [b; n] 1 bi Hx Hx' V).
  - exact Hf.
Qed.

Lemma blocks_sample dim h dh dr mlp b n bi :
  h <> 0 -> bi < b ->
  forall atts ffs,
    Forall (attention_block_built dim h dh dr) atts ->
    Forall (ffn_block_built dim mlp) ffs ->
    forall x x',
      shape x = [b; n; dim] -> shape x' = [b; n; dim] ->
      same_sample 2 bi x x' ->
      agree_on_sample (blocks (combine atts ffs) x)
                      (blocks (combine atts ffs) x') 2 bi [b; n; dim].
Proof.
  intros Hh Hb. induction atts as [|a atts IH]; intros ffs Ha Hf x x' Hx Hx' V.
  - now apply sample_ret.
  - destruct ffs as [|f ffs]; [now apply sample_ret|].
    inversion Ha as [|? ? Ha1 Ha']; subst.
    inversion Hf as [|? ? Hf1 Hf']; subst.
    destruct Ha1 as [Na Ba]. destruct Hf1 as [Nf Bf]. simpl.
    apply (sample_bind _ _ _ _ 2 2 bi [b; n; dim]);
      [|intros y y' Hy Hy' Vy; apply IH; assumption].
    unfold block. simpl fst. simpl snd.
    apply (sample_bind _ _ _ _ 2 2 bi [b; n; dim]).
    + apply residual_sample; auto. rewrite <- Na.
      apply normalized_sample; rewrite ?Na; auto.
      intros h0 h0' H0 H0' V0.
      apply (Attention_forward_sample _ h dh dr); auto.
    + intros x1 x1' H1 H1' V1. apply residual_sample; auto. rewrite <- Nf.
      apply normalized_sample; rewrite ?Nf; auto.
      intros h0 h0' H0 H0' V0.
      apply (FeedForward_forward_sample _ mlp _ _ _ [b; n] 1 bi); auto.
Qed.

Lemma AttnPooler_at_sample m x x' b n dim bi :
  same_sample 2 bi x x' ->
  same_sample 1 bi (AttnPooler_at m x b n dim) (AttnPooler_at m x' b n dim).
Proof.
  intros V rest Hl. destruct rest as [|c [|? ?]]; try discriminate.
  pose proof (Linear_at_sample (to_k m) x x' [b; n] [b; n] 1 bi V) as K.
  pose proof (Linear_at_sample (to_v m) x x' [b; n] [b; n] 1 bi V) as W.
  unfold AttnPooler_at. cbn [val]. rewrite !sdpa_at_same_batch.
  assert (Sc : forall j,
             sum_upto dim (fun c0 =>
               (val (expand0_at (q m) 1 b 1 dim) [bi; 0%nat; c0]
                * val (Linear_at (to_k m) x [b; n]) [bi; j; c0])%R)
             = sum_upto dim (fun c0 =>
               (val (expand0_at (q m) 1 b 1 dim) [bi; 0%nat; c0]
                * val (Linear_at (to_k m) x' [b; n]) [bi; j; c0])%R)).
  { intros j. apply sum_upto_ext. intros c0 _.
    now rewrite (K [j; c0]). }
  apply sum_upto_ext. intros j _.
  rewrite (W [j; c]) by reflexivity. f_equal.
  unfold sdpa_weight. rewrite Sc.
  rewrite (sum_upto_ext n _ _
             (fun j' _ => f_equal (fun t => exp (t / sqrt (INR dim)))
                            (Sc j'))).
  reflexivity.
Qed.

(** The logits of one image do not depend on the other images of the
    batch: on two accepted batches of the same shape that hold the same
    image at index bi, run from the same random state, [VIT.forward]
    returns the same row of logits at index bi. *)
Theorem VIT_forward_batch_local :
  forall a src m src' x x' b H W bi,
    VIT_init a src = Ok (m, src') ->
    arg_heads a <> 0 ->
    shape x = [b; 3; H; W] -> shape x' = [b; 3; H; W] ->
    H mod patch_size a = 0 -> W mod patch_size a = 0 ->
    broadcastable (H / patch_size a * (W / patch_size a))
                  ((image_size a / patch_size a) ^ 2) = true ->
    bi < b ->
    (forall c i j, val x [bi; c; i; j] = val x' [bi; c; i; j]) ->
    forall g, exists y y' g',
      VIT_forward m x g = Ok (y, g') /\
      VIT_forward m x' g = Ok (y', g') /\
      shape y = [b; num_classes a] /\ shape y' = [b; num_classes a] /\
      forall o, val y [bi; o] = val y' [bi; o].
Proof.
  intros a src m src' x x' b H W bi Hinit Hh Hx Hx' D1 D2 Hbr Hb Himg.
  pose proof (VIT_init_built _ _ _ _ Hinit) as B.
  pose proof (built_patch_embed _ _ B) as Bpe.
  pose proof (built_patch_size _ _ B) as Hp.
  destruct (built_transformer _ _ B) as (s & s' & T).
  destruct (Transformer_init_lengths _ _ _ _ _ _ _ _ _ T) as [La Lf].
  destruct (Transformer_init_built _ _ _ _ _ _ _ _ _ T) as [Ba Bf].
  set (p := patch_size a) in *. set (dim := head_dim a * arg_heads a) in *.
  assert (V3 : same_sample 3 bi x x').
  { intros rest Hl. destruct rest as [|c [|i [|j [|? ?]]]]; try discriminate.
    apply Himg. }
  assert (Main : agree_on_sample (VIT_forward m x) (VIT_forward m x') 1 bi
                                 [b; num_classes a]).
  { apply (sample_ext _ _
             (x1 <- forward (patch_embed m) x ;;
              h <- lift (add x1 (unsqueeze0 (pos_embs m))) ;; VIT_tail m h)
             (x1 <- forward (patch_embed m) x' ;;
              h <- lift (add x1 (unsqueeze0 (pos_embs m))) ;; VIT_tail m h));
      [intros g; apply VIT_forward_tail|intros g; apply VIT_forward_tail|].
    apply (sample_bind _ _ _ _ 2 1 bi [b; H / p * (W / p); dim]).
    { intros g.
      exists (PatchEmbed_at (patch_embed m)
                (patches_at x b 3 (H / p) (W / p) p p) [b; H / p * (W / p)]),
        (PatchEmbed_at (patch_embed m)
           (patches_at x' b 3 (H / p) (W / p) p p) [b; H / p * (W / p)]), g.
      split; [exact (PatchEmbed_forward_ok 3 p p dim _ x b H W g
                       Bpe Hx Hp Hp D1 D2)|].
      split; [exact (PatchEmbed_forward_ok 3 p p dim _ x' b H W g
                       Bpe Hx' Hp Hp D1 D2)|].
      split; [exact (PatchEmbed_at_shape 3 p p dim _ _ [b; H / p * (W / p)] Bpe)|].
      split; [exact (PatchEmbed_at_shape 3 p p dim _ _ [b; H / p * (W / p)] Bpe)|].
      apply PatchEmbed_at_sample, patches_at_sample, V3. }
    intros y y' Hy Hy' Vy.
    destruct (add_pos_sample y y' (pos_embs m) b _ _ dim bi Hb Hy Hy'
                (built_pos_embs _ _ B) Hbr Vy) as (n' & Hadd).
    eapply sample_bind; [exact Hadd|].
    intros h0 h0' H0 H0' V0. unfold VIT_tail.
    apply (sample_bind _ _ _ _ 2 1 bi [b; n'; dim]).
    { apply (sample_ext _ _
               (blocks (combine (attentions (transformer m))
                                (ffns (transformer m))) h0)
               (blocks (combine (attentions (transformer m))
                                (ffns (transformer m))) h0')).
      - intros g. apply Transformer_forward_blocks. congruence.
      - intros g. apply Transformer_forward_blocks. congruence.
      - exact (blocks_sample dim (arg_heads a) (head_dim a) (dropout a)
                 (dim * mlp_mult a) b n' bi Hh Hb _ _ Ba Bf _ _ H0 H0' V0). }
    intros h1 h1' H1 H1' V1.
    apply (sample_bind _ _ _ _ 2 1 bi [b; n'; dim]).
    { assert (Hn : normalized_shape (out_norm m) = dim) by apply B.
      rewrite <- Hn.
      apply (LayerNorm_sample _ h1 h1' [b; n'] 1 bi); rewrite ?Hn; auto. }
    intros h2 h2' H2 H2' V2.
    apply (sample_bind _ _ _ _ 1 1 bi [b; dim]).
    { intros g. exists (AttnPooler_at (pooler m) h2 b n' dim),
        (AttnPooler_at (pooler m) h2' b n' dim), g.
      split; [exact (AttnPooler_forward_eq dim _ h2 b n' g (built_pooler _ _ B) H2)|].
      split; [exact (AttnPooler_forward_eq dim _ h2' b n' g (built_pooler _ _ B) H2')|].
      repeat split. now apply AttnPooler_at_sample. }
    intros h3 h3' H3 H3' V3'.
    apply (sample_bind _ _ _ _ 1 1 bi [b; num_classes a]).
    { assert (Hi : in_features (proj_out m) = dim) by apply B.
      rewrite <- (built_proj_out_out _ _ B).
      apply (Linear_sample _ h3 h3' [b] 0 bi); auto;
        rewrite ?H3, ?H3', Hi; reflexivity. }
    intros h4 h4' H4 H4' V4. now apply sample_ret. }
  intros g. destruct (Main g) as (y & y' & g' & E & E' & Sy & Sy' & V).
  exists y, y', g'.
  split; [exact E|]. split; [exact E'|]. split; [exact Sy|]. split; [exact Sy'|].
  intros o. now apply V.
Qed.

Lemma VIT_forward_batch_local_witness :
  exists m src',
    VIT_init small_args zero_src = Ok (m, src') /\
    exists y y' g',
      VIT_forward m (zeros [2; 3; 8; 8]) keep_all = Ok (y, g') /\
      VIT_forward m two_images keep_all = Ok (y', g') /\
      forall o, val y [0; o] = val y' [0; o].
Proof.
  eexists. eexists.
  split; [cbv [VIT_init PatchEmbed_init patch_dims]; reflexivity|].
  assert (Hb : 0 < 2) by lia.
  destruct (VIT_forward_batch_local small_args zero_src _ _
              (zeros [2; 3; 8; 8]) two_images 2 8 8 0 eq_refl
              (fun E : 2 = 0 => O_S 1 (eq_sym E)) eq_refl eq_refl
              eq_refl eq_refl eq_refl Hb (fun c i j => eq_refl) keep_all)
    as (y & y' & g' & A & B & _ & _ & C).
  exists y, y', g'. exact (conj A (conj B C)).
Defined.

(* ================================================================= *)
(** ** AttnPooler on an input without a batch axis *)

Lemma AttnPooler_forward_shared_eq dim m x n g :
  AttnPooler_built dim m ->
  shape x = [n; dim] ->
  AttnPooler_forward m x g = Ok (AttnPooler_shared_at m x n dim, g).
Proof.
  intros B Hx. unfold AttnPooler_forward.
  assert (Hk : shape x = [n] ++ [in_features (to_k m)])
    by (rewrite Hx, (built_k_in _ _ B); reflexivity).
  assert (Hv : shape x = [n] ++ [in_features (to_v m)])
    by (rewrite Hx, (built_v_in _ _ B); reflexivity).
  unfold forward, Linear_Module.
  unfold bind at 1. rewrite (Linear_apply_ok _ _ _ Hk). simpl lift. cbv iota beta.
  unfold bind at 1. rewrite (Linear_apply_ok _ _ _ Hv). simpl lift. cbv iota beta.
  unfold bind at 1. unfold shape0. rewrite Hx. simpl lift. cbv iota beta.
  unfold bind at 1. unfold expand0. rewrite (built_q _ _ B). simpl.
  unfold bind. unfold scaled_dot_product_attention.
  cbn [shape expand0_at Linear_at unsnoc2 rev app].
  rewrite (built_k_out _ _ B), (built_v_out _ _ B).
  rewrite !Nat.eqb_refl. reflexivity.
Qed.

(** [AttnPooler.forward] accepts a matrix [n, dim]: the n rows become n
    batch elements for the query, while the keys and values of all n rows
    are shared.  The result is [n, dim], no dropout mask is drawn, and
    every row of the result is the same weighted sum of the value
    projections; with at least one row the weights are positive and sum
    to 1. *)
Theorem AttnPooler_forward_matrix_input :
  forall dim src m src' x n,
    AttnPooler_init dim src = Ok (m, src') ->
    shape x = [n; dim] ->
    exists y,
      (forall g, AttnPooler_forward m x g = Ok (y, g)) /\
      shape y = [n; dim] /\
      (forall i c,
          val y [i; c]
          = sum_upto n (fun j => (shared_pool_weight m x n dim j
                                  * val (Linear_at (to_v m) x [n]) [j; c])%R)) /\
      (0 < n ->
       (forall j, (0 < shared_pool_weight m x n dim j)%R) /\
       sum_upto n (fun j => shared_pool_weight m x n dim j) = 1%R).
Proof.
  intros dim src m src' x n Hinit Hx.
  pose proof (AttnPooler_init_built _ _ _ _ Hinit) as B.
  exists (AttnPooler_shared_at m x n dim).
  split; [|split; [|split]].
  - intros g. now apply (AttnPooler_forward_shared_eq dim).
  - reflexivity.
  - intros i c. unfold AttnPooler_shared_at.
    cbn [val sdpa_at unsnoc2 rev app batch_index batch_index_rev].
    reflexivity.
  - intros Hn. split.
    + intros j. unfold shared_pool_weight.
      apply Rdiv_lt_0_compat; [apply exp_pos|].
      apply sum_upto_pos; [exact Hn|]. intros k. apply exp_pos.
    + unfold shared_pool_weight. now apply softmax_row_sum.
Qed.

(** A pooler of width 4 on a matrix [5, 4]. *)
Lemma AttnPooler_forward_matrix_input_witness :
  exists m src' y,
    AttnPooler_init 4 zero_src = Ok (m, src') /\
    AttnPooler_forward m (zeros [5; 4]) keep_all = Ok (y, keep_all) /\
    shape y = [5; 4] /\
    sum_upto 5 (fun j => shared_pool_weight m (zeros [5; 4]) 5 4 j) = 1%R.
Proof.
  eexists. eexists.
  destruct (AttnPooler_forward_matrix_input 4 zero_src _ _ (zeros [5; 4]) 5
              eq_refl eq_refl) as (y & A & B & _ & D).
  exists y. split; [reflexivity|].
  assert (H5 : 0 < 5) by lia.
  exact (conj (A keep_all) (conj B (proj2 (D H5)))).
Defined.
